(** * stringutils: a shallow embedding of [stringutils.cpp]

    The C++ namespace [stringutils] is a collection of independent, pure
    functions over [std::string].  Each one is embedded below as a Rocq
    function that follows the control flow of the C++ body: range [for]
    loops become folds, counted [for] loops become [for_le]/[for_lt],
    [while] loops become [while_loop] with explicit fuel, and the
    [std::vector] tables are lists updated by index.

    Data model
    - [char] is [ascii] (one byte); [std::string] is [list ascii];
    - [int] is [Z]; a conversion from [size_t] or [ptrdiff_t] to [int]
      is written [to_int] (reduction modulo 2^32 into the signed range).
      Arithmetic on [int] is left in [Z]: signed overflow is undefined in
      C++, and every theorem that depends on it assumes a bound on the
      lengths involved under which no [int] expression of the program
      leaves the range: [fits_int] (length at most [INT_MAX]) for the
      functions that only count or index, and [fits_table] (length below
      [INT_MAX]) for the two table functions, which compute [m + 1],
      [n + 1] and let a counter run up to [m + 1];
    - [double] is IEEE 754 binary64, [spec_float] with precision 53 and
      [emax] 1024, rounded to nearest even;
    - [size_t] indices are [Z] or [nat]; they never exceed a string length;
    - [std::unordered_map<char, bool>] used as a seen-set is a
      [gmap ascii bool]. *)

From Stdlib Require Import ZArith Ascii String Lia SpecFloat.
From stdpp Require Import base decidable option list sorting gmap strings.

Local Open Scope Z_scope.

(** ** Characters, strings and machine integers *)

Abbreviation char := ascii.
Abbreviation cstring := (list ascii).

(** A string literal of the C++ source. *)
Definition lit (s : string) : cstring := list_ascii_of_string s.

#[global] Instance char_inhabited : Inhabited char := populate Ascii.zero.

Definition INT_MAX : Z := 2147483647.

(** [static_cast<int>(z)], and the implicit conversion in [int m = s.length()]. *)
Definition to_int (z : Z) : Z := (z + 2147483648) mod 4294967296 - 2147483648.

(** [s.length()] as a mathematical integer. *)
Definition strlen (s : cstring) : Z := Z.of_nat (length s).

(** The length of [s] is representable as an [int]. *)
Definition fits_int (s : cstring) : Prop := strlen s <= INT_MAX.

(** The length of [s] is below [INT_MAX], so that [s.length() + 1] (the
    size of a table, and the value a counter [i <= m; i++] ends with) is
    representable as an [int] too. *)
Definition fits_table (s : cstring) : Prop := strlen s < INT_MAX.

(** [s[i]] for an index held in an integer variable. *)
Definition char_at (s : cstring) (i : Z) : char := s !!! Z.to_nat i.

(** [std::toupper] in the "C" locale (the program never calls [setlocale]),
    on the value of an [unsigned char]. *)
Definition std_toupper (c : N) : N :=
  if ((97 <=? c) && (c <=? 122))%N then (c - 32)%N else c.

(** [static_cast<char>(std::toupper(static_cast<unsigned char>(c)))] *)
Definition upper_char (c : char) : char := ascii_of_N (std_toupper (N_of_ascii c)).

(** ** Loops *)

(** [for (i = lo; ...; ++i) s = body i s], [n] iterations. *)
Fixpoint for_up {S : Type} (n : nat) (lo : Z) (body : Z → S → S) (s : S) : S :=
  match n with
  | O => s
  | Datatypes.S n' => for_up n' (lo + 1) body (body lo s)
  end.

(** [for (int i = lo; i <= hi; i++)] *)
Definition for_le {S : Type} (lo hi : Z) (body : Z → S → S) (s : S) : S :=
  for_up (Z.to_nat (hi + 1 - lo)) lo body s.

(** [for (size_t i = lo; i < hi; ++i)] *)
Definition for_lt {S : Type} (lo hi : Z) (body : Z → S → S) (s : S) : S :=
  for_up (Z.to_nat (hi - lo)) lo body s.

(** [while (cond) body], cut off after [fuel] tests of the condition;
    [None] when the fuel does not suffice. *)
Fixpoint while_loop {S : Type} (fuel : nat) (cond : S → bool) (body : S → S)
    (s : S) : option S :=
  match fuel with
  | O => None
  | Datatypes.S fuel' =>
      if cond s then while_loop fuel' cond body (body s) else Some s
  end.

(** ** [reverse_string] *)

(** [std::reverse(first, last)] on a whole string. *)
Definition std_reverse (s : cstring) : cstring := rev s.

Definition reverse_string (input : cstring) : cstring :=
  match input with
  | [] => input
  | _ => let result := input in std_reverse result
  end.

(** ** [count_char] *)

(** [std::count(first, last, c)] *)
Fixpoint std_count (s : cstring) (c : char) : nat :=
  match s with
  | [] => O
  | x :: s' => if Ascii.eqb x c then Datatypes.S (std_count s' c) else std_count s' c
  end.

Definition count_char (input : cstring) (c : char) : Z :=
  match input with
  | [] => 0
  | _ => to_int (Z.of_nat (std_count input c))
  end.

(** ** [remove_duplicates] *)

Record dedup_state := DedupState {
  dd_result : cstring;
  dd_seen : gmap char bool
}.

(** One iteration of the loop [for (char c : input)]. *)
Definition dedup_step (st : dedup_state) (c : char) : dedup_state :=
  match dd_seen st !! c with
  | None => DedupState (dd_result st ++ [c]) (<[c := true]> (dd_seen st))
  | Some _ => st
  end.

Definition remove_duplicates (input : cstring) : cstring :=
  dd_result (fold_left dedup_step input (DedupState [] ∅)).

(** ** [validate_dna] *)

Definition is_nucleotide (c : char) : bool :=
  let upper_c := upper_char c in
  Ascii.eqb upper_c "A" || Ascii.eqb upper_c "T"
  || Ascii.eqb upper_c "G" || Ascii.eqb upper_c "C".

Definition validate_dna (sequence : cstring) : bool :=
  match sequence with
  | [] => true
  | _ => forallb is_nucleotide sequence
  end.

(** ** Two-dimensional tables: [std::vector<std::vector<int>>] *)

Abbreviation table := (list (list Z)).

(** [std::vector<std::vector<int>> dp(rows, std::vector<int>(cols, v))] *)
Definition dp_make (rows cols : Z) (v : Z) : table :=
  replicate (Z.to_nat rows) (replicate (Z.to_nat cols) v).

(** [dp[i][j]] *)
Definition dp_get (dp : table) (i j : Z) : Z :=
  (dp !!! Z.to_nat i) !!! Z.to_nat j.

(** [dp[i][j] = v] *)
Definition dp_set (dp : table) (i j : Z) (v : Z) : table :=
  alter (λ row, <[Z.to_nat j := v]> row) (Z.to_nat i) dp.

(** ** [longest_common_subsequence] *)

(** Body of the inner loop that fills the table. *)
Definition lcs_cell (str1 str2 : cstring) (i j : Z) (dp : table) : table :=
  if Ascii.eqb (char_at str1 (i - 1)) (char_at str2 (j - 1))
  then dp_set dp i j (dp_get dp (i - 1) (j - 1) + 1)
  else dp_set dp i j (Z.max (dp_get dp (i - 1) j) (dp_get dp i (j - 1))).

Definition lcs_fill (str1 str2 : cstring) (m n : Z) (dp : table) : table :=
  for_le 1 m (λ i dp, for_le 1 n (λ j dp, lcs_cell str1 str2 i j dp) dp) dp.

Record lcs_state := LcsState {
  lcs_i : Z;
  lcs_j : Z;
  lcs_result : cstring
}.

(** [i > 0 && j > 0] *)
Definition lcs_cond (st : lcs_state) : bool :=
  (0 <? lcs_i st) && (0 <? lcs_j st).

(** Body of the backtracking loop. *)
Definition lcs_back (str1 str2 : cstring) (dp : table) (st : lcs_state) : lcs_state :=
  let i := lcs_i st in
  let j := lcs_j st in
  if Ascii.eqb (char_at str1 (i - 1)) (char_at str2 (j - 1))
  then LcsState (i - 1) (j - 1) (char_at str1 (i - 1) :: lcs_result st)
  else if dp_get dp (i - 1) j >? dp_get dp i (j - 1)
  then LcsState (i - 1) j (lcs_result st)
  else LcsState i (j - 1) (lcs_result st).

(** The backtracking loop shortens [i] or [j] at every turn, so
    [m + n + 1] tests of its condition are enough. *)
Definition longest_common_subsequence (str1 str2 : cstring) : option cstring :=
  let m := to_int (strlen str1) in
  let n := to_int (strlen str2) in
  let dp := lcs_fill str1 str2 m n (dp_make (m + 1) (n + 1) 0) in
  lcs_result <$>
    while_loop (Z.to_nat (m + n) + 1) lcs_cond (lcs_back str1 str2 dp)
      (LcsState m n []).

(** ** [levenshtein_distance] *)

(** [std::min({a, b, c})] *)
Definition std_min3 (a b c : Z) : Z := Z.min a (Z.min b c).

Definition lev_cell (str1 str2 : cstring) (i j : Z) (dp : table) : table :=
  if Ascii.eqb (char_at str1 (i - 1)) (char_at str2 (j - 1))
  then dp_set dp i j (dp_get dp (i - 1) (j - 1))
  else dp_set dp i j
         (1 + std_min3 (dp_get dp (i - 1) j) (dp_get dp i (j - 1))
                       (dp_get dp (i - 1) (j - 1))).

Definition lev_fill (str1 str2 : cstring) (m n : Z) (dp : table) : table :=
  let dp := for_le 0 m (λ i dp, dp_set dp i 0 i) dp in
  let dp := for_le 0 n (λ j dp, dp_set dp 0 j j) dp in
  for_le 1 m (λ i dp, for_le 1 n (λ j dp, lev_cell str1 str2 i j dp) dp) dp.

Definition levenshtein_distance (str1 str2 : cstring) : Z :=
  let m := to_int (strlen str1) in
  let n := to_int (strlen str2) in
  let dp := lev_fill str1 str2 m n (dp_make (m + 1) (n + 1) 0) in
  dp_get dp m n.

(** ** [find_pattern] *)

(** [static_cast<size_t>(j)] and arithmetic in [size_t]. *)
Definition to_size_t (z : Z) : Z := z mod 18446744073709551616.

(** [while (j > 0 && c != pattern[j]) j = failure[j - 1];]
    With a failure table every turn lowers [j], so [j + 1] tests of the
    condition are enough. *)
Definition kmp_fallback (pattern : cstring) (failure : list Z) (c : char)
    (j : Z) : option Z :=
  while_loop (Z.to_nat j + 1)
    (λ j, (0 <? j) && negb (Ascii.eqb c (char_at pattern j)))
    (λ j, failure !!! Z.to_nat (j - 1)) j.

(** The fallback loop followed by [if (c == pattern[j]) ++j;]. *)
Definition kmp_advance (pattern : cstring) (failure : list Z) (c : char)
    (j : Z) : option Z :=
  j ← kmp_fallback pattern failure c j;
  Some (if Ascii.eqb c (char_at pattern j) then j + 1 else j).

(** The lambda [build_failure_function]. *)
Definition build_failure_function (pattern : cstring) : option (list Z) :=
  let failure := replicate (length pattern) 0 in
  fst <$>
    for_lt 1 (strlen pattern)
      (λ i st,
         '(failure, j) ← st;
         j ← kmp_advance pattern failure (char_at pattern i) j;
         Some (<[Z.to_nat i := j]> failure, j))
      (Some (failure, 0)).

(** Body of the scanning loop, on the state [(positions, j)]. *)
Definition kmp_scan_step (text pattern : cstring) (failure : list Z) (i : Z)
    (st : option (list Z * Z)) : option (list Z * Z) :=
  '(positions, j) ← st;
  j ← kmp_advance pattern failure (char_at text i) j;
  if to_size_t j =? strlen pattern
  then Some (positions ++ [to_int (to_size_t (i - strlen pattern + 1))],
             failure !!! Z.to_nat (j - 1))
  else Some (positions, j).

Definition find_pattern (text pattern : cstring) : option (list Z) :=
  let positions := [] in
  if bool_decide (pattern = []) || bool_decide (text = [])
     || (strlen pattern >? strlen text)
  then Some positions
  else
    failure ← build_failure_function pattern;
    fst <$>
      for_lt 0 (strlen text) (kmp_scan_step text pattern failure)
        (Some (positions, 0)).

(** ** [calculate_gc_content]

    [std::count_if] with the G-or-C predicate, stored in [const int gc_count];
    the percentage is then computed in [double]. *)

Definition is_gc (c : char) : bool :=
  let upper_c := upper_char c in
  Ascii.eqb upper_c "G" || Ascii.eqb upper_c "C".

Definition gc_count (sequence : cstring) : Z :=
  to_int (Z.of_nat (length (filter (λ c, is_gc c = true) sequence))).

(** [static_cast<double>(z)]: the binary64 value nearest to the integer [z]. *)
Definition double_of_Z (z : Z) : spec_float := binary_normalize 53 1024 z 0 false.

(** The literal [0.0] is [S754_zero false] and [100.0] is [double_of_Z 100];
    [/] and [*] on [double] are [SFdiv] and [SFmul] at binary64. *)
Definition calculate_gc_content (sequence : cstring) : spec_float :=
  if bool_decide (sequence = []) then S754_zero false
  else
    SFmul 53 1024
      (SFdiv 53 1024 (double_of_Z (gc_count sequence))
                     (double_of_Z (strlen sequence)))
      (double_of_Z 100).


(** ** [count_chars] *)

(** [counts[c]++]: [operator[]] creates the entry with value 0 when the key
    is new, then the entry is incremented. *)
Definition count_chars_step (counts : gmap char Z) (c : char) : gmap char Z :=
  <[c := default 0 (counts !! c) + 1]> counts.

Definition count_chars (input : cstring) : gmap char Z :=
  fold_left count_chars_step input ∅.

(** ** [is_palindrome] *)

(** [std::isalnum] and [std::tolower] in the "C" locale.  Their argument
    must have the value of an [unsigned char]; [is_palindrome] passes a
    plain [char], so the calls are defined for the seven-bit characters
    ([seven_bit] below), which is what the theorems on [is_palindrome]
    assume. *)
Definition std_isalnum (c : N) : bool :=
  (((48 <=? c) && (c <=? 57)) || ((65 <=? c) && (c <=? 90))
   || ((97 <=? c) && (c <=? 122)))%N.

Definition std_tolower (c : N) : N :=
  if ((65 <=? c) && (c <=? 90))%N then (c + 32)%N else c.

(** One iteration of [for (char c : input)]:
    [if (std::isalnum(c)) cleaned += std::tolower(c);] *)
Definition palindrome_step (cleaned : cstring) (c : char) : cstring :=
  if std_isalnum (N_of_ascii c)
  then cleaned ++ [ascii_of_N (std_tolower (N_of_ascii c))]
  else cleaned.

Definition is_palindrome (input : cstring) : bool :=
  let cleaned := fold_left palindrome_step input [] in
  let reversed := std_reverse cleaned in
  bool_decide (cleaned = reversed).

(** Every character of [s] has a value below 128. *)
Definition seven_bit (s : cstring) : Prop :=
  Forall (λ c, (N_of_ascii c < 128)%N) s.

(** * Specification-level notions

    The definitions below do not come from the C++ bodies.  They state, in
    the vocabulary of the library's documentation, what the functions are
    expected to compute; the theorems compare the two. *)

(** ** Occurrences of a pattern *)

(** [pattern] occurs in [text] as a contiguous block starting at the
    zero-based offset [p]. *)
Definition occurs_at (text pattern : cstring) (p : Z) : Prop :=
  ∃ before after : cstring,
    text = before ++ pattern ++ after ∧ strlen before = p.

(** A list of integers in strictly ascending order. *)
Definition ascending (l : list Z) : Prop := StronglySorted Z.lt l.

(** ** First occurrences *)

(** The character at index [i] of [s], when no earlier index holds it. *)
Definition first_occurrence_at (s : cstring) (i : nat) : option char :=
  c ← s !! i; if decide (c ∈ take i s) then None else Some c.

(** The characters of [s] at the indices of first occurrences, by
    increasing index. *)
Definition first_occurrences (s : cstring) : cstring :=
  omap (first_occurrence_at s) (seq 0 (length s)).

(** ** The standard LCS table and its backtracking *)

(** [lcs_table s1 s2 i j]: cell [(i, j)] of the textbook table, the length
    of a longest common subsequence of the first [i] characters of [s1]
    and the first [j] characters of [s2]. *)
Fixpoint lcs_table (s1 s2 : cstring) (i : nat) : nat → Z :=
  match i with
  | O => λ _, 0
  | Datatypes.S i' =>
      fix row (j : nat) : Z :=
        match j with
        | O => 0
        | Datatypes.S j' =>
            if Ascii.eqb (s1 !!! i') (s2 !!! j')
            then lcs_table s1 s2 i' j' + 1
            else Z.max (lcs_table s1 s2 i' j) (row j')
        end
  end.

(** Which neighbour the backtracking takes when both hold the same value:
    [TieUp] lowers the index into the first string, [TieLeft] the index
    into the second. *)
Inductive tie_break := TieUp | TieLeft.

(** Backtracking from cell [(i, j)]: on equal characters take the
    character and go diagonally; otherwise go to the larger of the upper
    cell [(i-1, j)] and the left cell [(i, j-1)], and follow [tie] when
    they are equal. *)
Fixpoint lcs_backtrack (tie : tie_break) (s1 s2 : cstring) (i : nat) : nat → cstring :=
  match i with
  | O => λ _, []
  | Datatypes.S i' =>
      fix row (j : nat) : cstring :=
        match j with
        | O => []
        | Datatypes.S j' =>
            if Ascii.eqb (s1 !!! i') (s2 !!! j')
            then lcs_backtrack tie s1 s2 i' j' ++ [s1 !!! i']
            else
              let up := lcs_table s1 s2 i' j in
              let left := lcs_table s1 s2 i j' in
              if up >? left then lcs_backtrack tie s1 s2 i' j
              else if left >? up then row j'
              else match tie with
                   | TieUp => lcs_backtrack tie s1 s2 i' j
                   | TieLeft => row j'
                   end
        end
  end.

(** Backtracking from the bottom-right cell. *)
Definition lcs_by_backtracking (tie : tie_break) (s1 s2 : cstring) : cstring :=
  lcs_backtrack tie s1 s2 (length s1) (length s2).

(** [l] is a subsequence of both strings. *)
Definition common_subsequence (l s1 s2 : cstring) : Prop :=
  l `sublist_of` s1 ∧ l `sublist_of` s2.

(** ** The classic edit-distance recurrence *)

(** [lev_table s1 s2 i j]: base cases [dp[i][0] = i] and [dp[0][j] = j];
    otherwise the cheapest of a deletion, an insertion (cost 1 each) and a
    substitution (cost 1) or match (cost 0). *)
Fixpoint lev_table (s1 s2 : cstring) (i : nat) : nat → Z :=
  match i with
  | O => λ j, Z.of_nat j
  | Datatypes.S i' =>
      fix row (j : nat) : Z :=
        match j with
        | O => Z.of_nat i
        | Datatypes.S j' =>
            let cost := if Ascii.eqb (s1 !!! i') (s2 !!! j') then 0 else 1 in
            Z.min (lev_table s1 s2 i' j + 1)
                  (Z.min (row j' + 1) (lev_table s1 s2 i' j' + cost))
        end
  end.

Definition lev_classic (s1 s2 : cstring) : Z :=
  lev_table s1 s2 (length s1) (length s2).

(** ** Edit scripts

    [edit_script s t k]: [s] can be turned into [t] with [k] single-character
    insertions, deletions and substitutions, the two strings being read
    from left to right. *)
Inductive edit_script : cstring → cstring → nat → Prop :=
  | edit_done : edit_script [] [] O
  | edit_keep (x : char) (s t : cstring) (k : nat) :
      edit_script s t k → edit_script (s ++ [x]) (t ++ [x]) k
  | edit_substitute (x y : char) (s t : cstring) (k : nat) :
      edit_script s t k → edit_script (s ++ [x]) (t ++ [y]) (Datatypes.S k)
  | edit_delete (x : char) (s t : cstring) (k : nat) :
      edit_script s t k → edit_script (s ++ [x]) t (Datatypes.S k)
  | edit_insert (y : char) (s t : cstring) (k : nat) :
      edit_script s t k → edit_script s (t ++ [y]) (Datatypes.S k).

(** ** The cleaned string of [is_palindrome] *)

(** What one character contributes to [cleaned]. *)
Definition palindrome_char (c : char) : cstring :=
  if std_isalnum (N_of_ascii c)
  then [ascii_of_N (std_tolower (N_of_ascii c))]
  else [].

(** ** Shape and contents of a table *)

(** [dp] has [rows] rows of [cols] columns each. *)
Definition dp_dims (dp : table) (rows cols : nat) : Prop :=
  length dp = rows ∧ Forall (λ row, length row = cols) dp.

(** [dp[i][j]] at indices known to be natural numbers. *)
Definition cell (dp : table) (i j : nat) : Z :=
  dp_get dp (Z.of_nat i) (Z.of_nat j).

(** Progress of a row-by-row fill of an [(M+1) x (N+1)] table towards the
    function [T]: rows [0..k] are done, and so are column 0 and the first
    [l + 1] cells of row [k + 1]. *)
Definition filled_upto (T : nat → nat → Z) (M N k l : nat) (dp : table) : Prop :=
  dp_dims dp (Datatypes.S M) (Datatypes.S N)
  ∧ ∀ i j, (i ≤ M)%nat → (j ≤ N)%nat →
      (i ≤ k)%nat ∨ j = O ∨ (i = Datatypes.S k ∧ (j ≤ l)%nat) →
      cell dp i j = T i j.

(** ** Prefix matches, borders and the failure table

    The vocabulary of the correctness argument for Knuth-Morris-Pratt. *)

(** [j] has property [P] and no larger number has it. *)
Definition greatest (P : nat → Prop) (j : nat) : Prop :=
  P j ∧ ∀ k, P k → (k ≤ j)%nat.

(** The first [k] characters of [pattern] end the text [t] read so far. *)
Definition matches (pattern t : cstring) (k : nat) : Prop :=
  (k ≤ length pattern)%nat ∧ take k pattern `suffix_of` t.

(** A match that is not yet the whole pattern. *)
Definition proper_match (pattern t : cstring) (k : nat) : Prop :=
  (k < length pattern)%nat ∧ matches pattern t k.

(** [b] is the length of a proper border of the first [n] characters of
    [pattern]: a prefix, shorter than [n], that is also a suffix. *)
Definition border (pattern : cstring) (n b : nat) : Prop :=
  (b < n)%nat ∧ take b pattern `suffix_of` take n pattern.

(** The first [n] entries of [failure] hold the longest proper borders. *)
Definition failure_ok (pattern : cstring) (failure : list Z) (n : nat) : Prop :=
  ∀ k, (k < n)%nat →
    ∃ b, failure !! k = Some (Z.of_nat b) ∧ greatest (border pattern (Datatypes.S k)) b.

(** The candidates kept by the fallback loop: [j] matches, and every match
    that the character [c] extends is at most [j]. *)
Definition fallback_inv (pattern t : cstring) (c : char) (j : nat) : Prop :=
  (j < length pattern)%nat ∧ matches pattern t j
  ∧ ∀ k, (k < length pattern)%nat → matches pattern t k →
         pattern !!! k = c → (k ≤ j)%nat.

(** [pattern] is found in [text] at the natural-number offset [o]. *)
Definition occurs_nat (text pattern : cstring) (o : nat) : Prop :=
  take (length pattern) (drop o text) = pattern.

#[global] Instance occurs_nat_dec (text pattern : cstring) (o : nat) :
  Decision (occurs_nat text pattern o).
Proof. unfold occurs_nat. apply _. Defined.

(** The offsets below [k] at which [pattern] is found, by increasing value. *)
Definition occ_list (text pattern : cstring) (k : nat) : list nat :=
  filter (occurs_nat text pattern) (seq 0 k).

(** State of the loop of [build_failure_function] before the iteration
    with index [k + 1]. *)
Definition build_inv (pattern : cstring) (k : nat)
    (st : option (list Z * Z)) : Prop :=
  ∃ (failure : list Z) (j : nat),
    st = Some (failure, Z.of_nat j)
    ∧ length failure = length pattern
    ∧ failure_ok pattern failure (Datatypes.S k)
    ∧ greatest (border pattern (Datatypes.S k)) j.

(** State of the scanning loop of [find_pattern] before the iteration with
    index [k]: the offsets of the occurrences that end within the first [k]
    characters, and the longest proper match of those characters. *)
Definition scan_inv (text pattern : cstring) (k : nat)
    (st : option (list Z * Z)) : Prop :=
  ∃ j : nat,
    st = Some (Z.of_nat <$> occ_list text pattern (k + 1 - length pattern), Z.of_nat j)
    ∧ greatest (proper_match pattern (take k text)) j.

(** ** Doubles as real numbers

    A finite double [S754_finite s m e] stands for the real number
    [m * 2^e], negated when [s] is set; both zeros stand for 0.  The
    relations below compare it with integers and fractions, with both sides
    multiplied by [2^-e] when [e] is negative. *)

(** [x] is finite and [lo <= x <= hi]. *)
Definition double_between (lo hi : Z) (x : spec_float) : Prop :=
  match x with
  | S754_zero _ => lo ≤ 0 ≤ hi
  | S754_finite s m e =>
      lo * 2 ^ Z.max (- e) 0 ≤ cond_Zopp s (Z.pos m) * 2 ^ Z.max e 0
      ∧ cond_Zopp s (Z.pos m) * 2 ^ Z.max e 0 ≤ hi * 2 ^ Z.max (- e) 0
  | _ => False
  end.

(** [x] is finite and is the fraction [p / q]. *)
Definition double_is_fraction (x : spec_float) (p q : Z) : Prop :=
  match x with
  | S754_zero _ => p = 0
  | S754_finite s m e =>
      cond_Zopp s (Z.pos m) * 2 ^ Z.max e 0 * q = p * 2 ^ Z.max (- e) 0
  | _ => False
  end.

(** The number of characters of [s] that are G or C in either case. *)
Definition gc_letters (s : cstring) : Z :=
  Z.of_nat (length (filter (λ c, c ∈ lit "GCgc") s)).

(** ** Bounds kept by rounding *)

(** The mantissa of a shift record is not negative and is at most [B],
    and below [B] when the record holds a remainder. *)
Definition shr_below (B : Z) (mrs : shr_record) : Prop :=
  0 ≤ shr_m mrs
  ∧ if shr_r mrs || shr_s mrs then shr_m mrs < B else shr_m mrs ≤ B.

(** [x] is [+0.0], or positive with a negative or zero exponent and at most
    [b]. *)
Definition double_upto (b : Z) (x : spec_float) : Prop :=
  match x with
  | S754_zero false => True
  | S754_finite false m e => e ≤ 0 ∧ Z.pos m ≤ b * 2 ^ (- e)
  | _ => False
  end.

(** The mantissa of [x] has at least 53 digits, unless the exponent is at
    the bottom of the range. *)
Definition double_full (x : spec_float) : Prop :=
  match x with
  | S754_finite _ m e => 2 ^ 52 ≤ Z.pos m ∨ e ≤ -1073
  | _ => True
  end.

(** * Properties *)

(** ** Machine integers and loops *)

Lemma to_int_small (z : Z) : 0 ≤ z ≤ INT_MAX → to_int z = z.
Proof.
  unfold to_int, INT_MAX. intros Hz.
  rewrite Z.mod_small by lia. lia.
Qed.

Lemma strlen_nonneg (s : cstring) : 0 ≤ strlen s.
Proof. unfold strlen. lia. Qed.

Lemma fits_table_fits_int (s : cstring) : fits_table s → fits_int s.
Proof. unfold fits_table, fits_int. lia. Qed.

Lemma to_int_strlen (s : cstring) : fits_int s → to_int (strlen s) = strlen s.
Proof. intros Hs. apply to_int_small. split; [apply strlen_nonneg | exact Hs]. Qed.

Lemma for_up_snoc {S : Type} (n : nat) (lo : Z) (body : Z → S → S) (s : S) :
  for_up (Datatypes.S n) lo body s = body (lo + Z.of_nat n) (for_up n lo body s).
Proof.
  revert lo s. induction n as [|n IH]; intros lo s.
  - simpl. f_equal. lia.
  - change (for_up (Datatypes.S (Datatypes.S n)) lo body s)
      with (for_up (Datatypes.S n) (lo + 1) body (body lo s)).
    rewrite IH. simpl. f_equal. lia.
Qed.

(** Invariant rule for counted loops: [P k] holds of the state before the
    iteration with index [lo + k]. *)
Lemma for_up_invariant {S : Type} (P : nat → S → Prop) (n : nat) (lo : Z)
    (body : Z → S → S) (s : S) :
  P O s →
  (∀ k st, (k < n)%nat → P k st → P (Datatypes.S k) (body (lo + Z.of_nat k) st)) →
  P n (for_up n lo body s).
Proof.
  intros H0 Hstep. induction n as [|n IH].
  - exact H0.
  - rewrite for_up_snoc. apply Hstep; [lia|]. apply IH.
    intros k st Hk. apply Hstep. lia.
Qed.

(** ** Lists *)

Lemma take_snoc {A : Type} `{!Inhabited A} (s : list A) (i : nat) :
  (i < length s)%nat → take (Datatypes.S i) s = take i s ++ [s !!! i].
Proof. intros Hi. apply take_S_r. by apply list_lookup_lookup_total_lt. Qed.

Lemma length_take_le {A : Type} (l : list A) (k : nat) :
  (k ≤ length l)%nat → length (take k l) = k.
Proof. intros Hk. rewrite length_take. lia. Qed.

(** ** [reverse_string] *)

Lemma reverse_string_rev (s : cstring) : reverse_string s = rev s.
Proof. destruct s; reflexivity. Qed.

(** C6: reversing twice gives the original string back, the empty string
    included. *)
Theorem reverse_string_involutive (s : cstring) :
  reverse_string (reverse_string s) = s.
Proof. rewrite !reverse_string_rev. apply rev_involutive. Qed.

(** ** [count_char] *)

Lemma std_count_filter (s : cstring) (c : char) :
  std_count s c = length (filter (λ x, x = c) s).
Proof.
  induction s as [|x s IH]; [reflexivity|].
  simpl. rewrite filter_cons. destruct (Ascii.eqb_spec x c) as [->|Hne].
  - rewrite decide_True by reflexivity. simpl. by rewrite IH.
  - rewrite decide_False by exact Hne. exact IH.
Qed.

Lemma std_count_le (s : cstring) (c : char) : (std_count s c ≤ length s)%nat.
Proof.
  induction s as [|x s IH]; simpl; [lia|].
  destruct (Ascii.eqb x c); lia.
Qed.

Lemma count_char_std_count (s : cstring) (c : char) :
  fits_int s → count_char s c = Z.of_nat (std_count s c).
Proof.
  intros Hs. destruct s as [|x s]; [reflexivity|].
  unfold count_char. apply to_int_small.
  pose proof (std_count_le (x :: s) c). unfold fits_int, strlen in Hs. lia.
Qed.

Lemma std_count_sum_fresh (x : char) (s : cstring) (cs : list char) :
  x ∉ cs →
  foldr Nat.add O ((std_count (x :: s)) <$> cs)
  = foldr Nat.add O ((std_count s) <$> cs).
Proof.
  induction cs as [|d cs IH]; intros Hx; [reflexivity|].
  apply not_elem_of_cons in Hx as [Hxd Hx].
  rewrite !fmap_cons. cbn [foldr].
  change (std_count (x :: s) d)
    with (if Ascii.eqb x d then Datatypes.S (std_count s d) else std_count s d).
  destruct (Ascii.eqb_spec x d) as [->|_]; [done|].
  f_equal. by apply IH.
Qed.

(** Sum of the occurrence counts over a list of characters. *)
Lemma std_count_sum_cons (x : char) (s : cstring) (cs : list char) :
  NoDup cs → x ∈ cs →
  foldr Nat.add O ((std_count (x :: s)) <$> cs)
  = Datatypes.S (foldr Nat.add O ((std_count s) <$> cs)).
Proof.
  induction 1 as [|c cs Hc Hnd IH]; intros Hx.
  - by apply elem_of_nil in Hx.
  - rewrite !fmap_cons. cbn [foldr].
    change (std_count (x :: s) c)
      with (if Ascii.eqb x c then Datatypes.S (std_count s c) else std_count s c).
    destruct (Ascii.eqb_spec x c) as [->|Hne].
    + rewrite (std_count_sum_fresh c s cs Hc). lia.
    + apply elem_of_cons in Hx as [->|Hx]; [done|].
      rewrite IH by exact Hx. lia.
Qed.

Lemma std_count_sum (s : cstring) (cs : list char) :
  NoDup cs → (∀ c, c ∈ s → c ∈ cs) →
  foldr Nat.add O ((std_count s) <$> cs) = length s.
Proof.
  intros Hnd. induction s as [|x s IH]; intros Hcov.
  - induction cs as [|c cs IHcs]; [reflexivity|].
    apply NoDup_cons in Hnd as [_ Hnd]. rewrite fmap_cons. simpl.
    apply IHcs; [exact Hnd|]. intros c' Hc'. by apply elem_of_nil in Hc'.
  - rewrite std_count_sum_cons; [|exact Hnd|apply Hcov; left].
    simpl. f_equal. apply IH. intros c Hc. apply Hcov. by right.
Qed.

Lemma count_char_sum (s : cstring) (cs : list char) :
  fits_int s →
  foldr Z.add 0 ((count_char s) <$> cs)
  = Z.of_nat (foldr Nat.add O ((std_count s) <$> cs)).
Proof.
  intros Hs. induction cs as [|c cs IH]; [reflexivity|].
  rewrite !fmap_cons. cbn [foldr]. rewrite IH, count_char_std_count by exact Hs. lia.
Qed.

(** C7: for a string whose length fits in an [int], the counts of its
    distinct characters add up to its length; a count is the number of
    positions holding exactly that character, is never negative, and is 0 on
    the empty string. *)
Theorem count_char_sum_distinct (s : cstring) (cs : list char) :
  fits_int s → NoDup cs → (∀ c, c ∈ cs ↔ c ∈ s) →
  foldr Z.add 0 ((count_char s) <$> cs) = strlen s
  ∧ (∀ c, count_char s c = Z.of_nat (length (filter (λ x, x = c) s))
          ∧ 0 ≤ count_char s c)
  ∧ (∀ c, count_char [] c = 0).
Proof.
  intros Hs Hnd Hcov. split; [|split].
  - rewrite count_char_sum by exact Hs.
    rewrite std_count_sum; [reflexivity|exact Hnd|]. intros c Hc. by apply Hcov.
  - intros c. rewrite count_char_std_count by exact Hs.
    rewrite std_count_filter. split; [reflexivity|lia].
  - reflexivity.
Qed.

Lemma count_char_sum_distinct_witness :
  foldr Z.add 0 ((count_char (lit "banana")) <$> lit "ban") = strlen (lit "banana")
  ∧ (∀ c, count_char (lit "banana") c
          = Z.of_nat (length (filter (λ x, x = c) (lit "banana")))
          ∧ 0 ≤ count_char (lit "banana") c)
  ∧ (∀ c, count_char [] c = 0).
Proof.
  apply (count_char_sum_distinct (lit "banana") (lit "ban")).
  - unfold fits_int. vm_compute. discriminate.
  - apply (bool_decide_unpack _). vm_compute. exact I.
  - intros c. unfold lit. simpl. rewrite !elem_of_cons, !elem_of_nil. tauto.
Defined.

(** ** [remove_duplicates] *)

Lemma remove_duplicates_loop (p rest : cstring) (st : dedup_state) :
  (∀ c, dd_seen st !! c = None ↔ c ∉ p) →
  dd_result (fold_left dedup_step rest st)
  = dd_result st
    ++ omap (first_occurrence_at (p ++ rest)) (seq (length p) (length rest)).
Proof.
  revert p st. induction rest as [|c rest IH]; intros p st Hseen.
  - simpl. by rewrite app_nil_r.
  - cbn [fold_left length seq omap list_omap].
    assert (Hat : first_occurrence_at (p ++ c :: rest) (length p)
                  = if decide (c ∈ p) then None else Some c).
    { unfold first_occurrence_at. rewrite list_lookup_middle by reflexivity.
      simpl. by rewrite take_app_length. }
    rewrite Hat.
    replace (p ++ c :: rest) with ((p ++ [c]) ++ rest) by (by rewrite <- app_assoc).
    replace (Datatypes.S (length p)) with (length (p ++ [c]))
      by (rewrite length_app; simpl; lia).
    unfold dedup_step at 2. destruct (dd_seen st !! c) as [b|] eqn:Hc.
    + assert (Hin : c ∈ p).
      { destruct (decide (c ∈ p)) as [|Hn]; [done|].
        apply Hseen in Hn. congruence. }
      rewrite decide_True by exact Hin. apply IH.
      intros c'. rewrite Hseen. rewrite not_elem_of_app, not_elem_of_cons.
      split; [|tauto]. intros Hc'. split; [done|]. split; [|apply not_elem_of_nil].
      intros ->. done.
    + assert (Hnin : c ∉ p) by (by apply Hseen).
      rewrite decide_False by exact Hnin.
      rewrite IH with (p := p ++ [c]).
      * simpl. by rewrite <- app_assoc.
      * intros c'. simpl. rewrite lookup_insert_None, Hseen.
        rewrite not_elem_of_app, not_elem_of_cons. split.
        -- intros [? ?]. split; [done|]. split; [done|apply not_elem_of_nil].
        -- intros [? [? _]]. split; [done|congruence].
Qed.

Lemma first_occurrences_sublist_from (s : cstring) (n k : nat) :
  omap (first_occurrence_at s) (seq k n) `sublist_of` drop k s.
Proof.
  revert k. induction n as [|n IH]; intros k; [apply sublist_nil_l|].
  cbn [seq omap list_omap]. destruct (first_occurrence_at s k) as [c|] eqn:Hk.
  - unfold first_occurrence_at in Hk.
    destruct (s !! k) as [c'|] eqn:Hsk; [|done]. simpl in Hk.
    destruct (decide (c' ∈ take k s)); [done|]. injection Hk as ->.
    rewrite (drop_S s c k Hsk). apply sublist_skip, IH.
  - destruct (s !! k) as [c'|] eqn:Hsk.
    + rewrite (drop_S s c' k Hsk). apply sublist_cons, IH.
    + rewrite drop_ge by (by apply lookup_ge_None).
      specialize (IH (Datatypes.S k)).
      rewrite drop_ge in IH by (apply lookup_ge_None in Hsk; lia). exact IH.
Qed.

Lemma remove_duplicates_loop_elements (rest : cstring) (st : dedup_state) :
  NoDup (dd_result st) →
  (∀ c, c ∈ dd_result st ↔ is_Some (dd_seen st !! c)) →
  NoDup (dd_result (fold_left dedup_step rest st))
  ∧ ∀ c, c ∈ dd_result (fold_left dedup_step rest st)
         ↔ c ∈ dd_result st ∨ c ∈ rest.
Proof.
  revert st. induction rest as [|x rest IH]; intros st Hnd Hseen.
  { simpl. split; [exact Hnd|]. intros c. rewrite elem_of_nil. tauto. }
  cbn [fold_left]. unfold dedup_step at 2 4.
  destruct (dd_seen st !! x) as [b|] eqn:Hx.
  - destruct (IH st Hnd Hseen) as [Hnd' Hel]. split; [exact Hnd'|].
    intros c. rewrite Hel, elem_of_cons. split; [tauto|].
    intros [?|[->|?]]; [tauto| |tauto]. left. apply Hseen. by rewrite Hx.
  - assert (Hfresh : x ∉ dd_result st).
    { intros Hin. apply Hseen in Hin as [? Hin]. congruence. }
    destruct (IH (DedupState (dd_result st ++ [x]) (<[x := true]> (dd_seen st))))
      as [Hnd' Hel].
    + simpl. apply NoDup_app. split; [exact Hnd|]. split; [|apply NoDup_singleton].
      intros c Hc ->%list_elem_of_singleton. done.
    + intros c. simpl. rewrite elem_of_app, list_elem_of_singleton, Hseen.
      destruct (decide (x = c)) as [->|Hne].
      * rewrite lookup_insert_eq. split; [by eauto|by right].
      * rewrite lookup_insert_ne by exact Hne. split; [|by left].
        intros [?|?]; [done|congruence].
    + split; [exact Hnd'|]. intros c. rewrite Hel. simpl.
      rewrite elem_of_app, list_elem_of_singleton, elem_of_cons. tauto.
Qed.

(** C9: [remove_duplicates] keeps exactly the first occurrence of every
    character, in the order of the input: the result lists the characters
    found at first-occurrence indices by increasing index; it is a
    subsequence of the input, has no repeated character and has the same
    characters as the input; ["aabbcc"] becomes ["abc"]. *)
Theorem remove_duplicates_first_occurrences (s : cstring) :
  remove_duplicates s = first_occurrences s
  ∧ remove_duplicates s `sublist_of` s
  ∧ NoDup (remove_duplicates s)
  ∧ (∀ c, c ∈ remove_duplicates s ↔ c ∈ s)
  ∧ remove_duplicates (lit "aabbcc") = lit "abc".
Proof.
  assert (Heq : remove_duplicates s = first_occurrences s).
  { unfold remove_duplicates, first_occurrences.
    rewrite (remove_duplicates_loop [] s); [reflexivity|].
    intros c. simpl. rewrite lookup_empty. split; [|done].
    intros _. apply not_elem_of_nil. }
  split; [exact Heq|]. split.
  { rewrite Heq. apply (first_occurrences_sublist_from s (length s) 0). }
  destruct (remove_duplicates_loop_elements s (DedupState [] ∅)) as [Hnd Hel].
  { constructor. }
  { intros c. simpl. rewrite lookup_empty, elem_of_nil.
    split; [done|]. by intros [? ?]. }
  split; [exact Hnd|]. split; [|reflexivity].
  intros c. unfold remove_duplicates. rewrite Hel. simpl. rewrite elem_of_nil. tauto.
Qed.

(** ** [validate_dna] *)

Lemma is_nucleotide_letters (c : char) :
  is_nucleotide c = bool_decide (c ∈ lit "ATGCatgc").
Proof. destruct c as [[] [] [] [] [] [] [] []]; vm_compute; reflexivity. Qed.

Lemma is_nucleotide_folded (c : char) :
  is_nucleotide c = bool_decide (upper_char c ∈ lit "ATGC").
Proof. destruct c as [[] [] [] [] [] [] [] []]; vm_compute; reflexivity. Qed.

Lemma validate_dna_forallb (s : cstring) :
  validate_dna s = forallb is_nucleotide s.
Proof. destruct s; reflexivity. Qed.

Lemma validate_dna_true (s : cstring) (P : char → Prop) `{∀ c, Decision (P c)} :
  (∀ c, is_nucleotide c = bool_decide (P c)) →
  validate_dna s = true ↔ ∀ c, c ∈ s → P c.
Proof.
  intros HP. rewrite validate_dna_forallb, forallb_forall. split.
  - intros Hall c Hc. apply list_elem_of_In, Hall in Hc.
    rewrite HP in Hc. by apply bool_decide_eq_true in Hc.
  - intros Hall c Hc. rewrite HP. apply bool_decide_eq_true, Hall.
    by apply list_elem_of_In.
Qed.

(** C4: [validate_dna s] is true exactly when every character of [s],
    folded to upper case, is one of A, T, G, C, that is when every character
    is one of the eight letters A T G C a t g c; the empty string and
    ["atgc"] are valid and ["ATGCX"] is not. *)
Theorem validate_dna_iff (s : cstring) :
  (validate_dna s = true ↔ ∀ c, c ∈ s → upper_char c ∈ lit "ATGC")
  ∧ (validate_dna s = true ↔ ∀ c, c ∈ s → c ∈ lit "ATGCatgc")
  ∧ validate_dna (lit "") = true
  ∧ validate_dna (lit "atgc") = true
  ∧ validate_dna (lit "ATGCX") = false.
Proof.
  split; [|split].
  - apply (validate_dna_true s (λ c, upper_char c ∈ lit "ATGC")), is_nucleotide_folded.
  - apply (validate_dna_true s (λ c, c ∈ lit "ATGCatgc")), is_nucleotide_letters.
  - repeat split; reflexivity.
Qed.

(** ** [find_pattern]: the guard *)

(** C3: with an empty pattern, an empty text, or a pattern longer than the
    text, [find_pattern] returns normally and its result is the empty
    sequence. *)
Theorem find_pattern_edge_cases (text pattern : cstring) :
  pattern = [] ∨ text = [] ∨ (length pattern > length text)%nat →
  find_pattern text pattern = Some [].
Proof.
  intros Hedge. unfold find_pattern.
  destruct (bool_decide_reflect (pattern = [])) as [|Hp]; [reflexivity|].
  destruct (bool_decide_reflect (text = [])) as [|Ht]; [reflexivity|].
  destruct Hedge as [?|[?|Hlen]]; [done|done|].
  replace (strlen pattern >? strlen text) with true; [reflexivity|].
  symmetry. unfold strlen. apply Z.gtb_lt. lia.
Qed.

Lemma find_pattern_edge_cases_witness :
  find_pattern (lit "ab") (lit "abc") = Some []
  ∧ find_pattern (lit "") (lit "a") = Some []
  ∧ find_pattern (lit "abc") (lit "") = Some [].
Proof.
  split; [|split].
  - apply (find_pattern_edge_cases (lit "ab") (lit "abc")).
    right. right. simpl. lia.
  - apply (find_pattern_edge_cases (lit "") (lit "a")).
    right. left. reflexivity.
  - apply (find_pattern_edge_cases (lit "abc") (lit "")).
    left. reflexivity.
Defined.

(** ** Tables *)

Lemma dp_make_dims (rows cols : nat) (v : Z) :
  dp_dims (dp_make (Z.of_nat rows) (Z.of_nat cols) v) rows cols.
Proof.
  unfold dp_dims, dp_make. rewrite !Nat2Z.id, length_replicate.
  split; [reflexivity|]. apply Forall_replicate, length_replicate.
Qed.

Lemma dp_make_cell (rows cols i j : nat) (v : Z) :
  (i < rows)%nat → (j < cols)%nat →
  cell (dp_make (Z.of_nat rows) (Z.of_nat cols) v) i j = v.
Proof.
  intros Hi Hj. unfold cell, dp_get, dp_make. rewrite !Nat2Z.id.
  rewrite lookup_total_replicate_2 by exact Hi.
  by rewrite lookup_total_replicate_2 by exact Hj.
Qed.

Lemma dp_set_dims (dp : table) (rows cols : nat) (i j v : Z) :
  dp_dims dp rows cols → dp_dims (dp_set dp i j v) rows cols.
Proof.
  intros [Hlen Hrows]. unfold dp_dims, dp_set. rewrite length_alter.
  split; [exact Hlen|]. apply Forall_alter; [exact Hrows|].
  intros row _ Hrow. by rewrite length_insert.
Qed.

Lemma dp_row_length (dp : table) (rows cols i : nat) :
  dp_dims dp rows cols → (i < rows)%nat → length (dp !!! i) = cols.
Proof.
  intros [Hlen Hrows] Hi.
  destruct (lookup_lt_is_Some_2 dp i) as [row Hrow]; [lia|].
  rewrite (list_lookup_total_correct _ _ _ Hrow).
  by apply (Forall_lookup_1 _ _ _ _ Hrows Hrow).
Qed.

Lemma cell_set_eq (dp : table) (rows cols i j : nat) (v : Z) :
  dp_dims dp rows cols → (i < rows)%nat → (j < cols)%nat →
  cell (dp_set dp (Z.of_nat i) (Z.of_nat j) v) i j = v.
Proof.
  intros Hdims Hi Hj. unfold cell, dp_get, dp_set. rewrite !Nat2Z.id.
  rewrite list_lookup_total_alter_eq by (destruct Hdims; lia).
  apply list_lookup_total_insert_eq.
  by rewrite (dp_row_length dp rows cols i Hdims Hi).
Qed.

Lemma cell_set_ne (dp : table) (i j i' j' : nat) (v : Z) :
  (i, j) ≠ (i', j') →
  cell (dp_set dp (Z.of_nat i) (Z.of_nat j) v) i' j' = cell dp i' j'.
Proof.
  intros Hne. unfold cell, dp_get, dp_set. rewrite !Nat2Z.id.
  rewrite list_lookup_total_alter. case_decide as Hcase; [|reflexivity].
  destruct Hcase as [-> _]. apply list_lookup_total_insert_ne. congruence.
Qed.

(** Filling a table row by row, left to right, with a step that writes
    into cell [(i, j)] a value determined by the cells [(i-1, j-1)],
    [(i-1, j)] and [(i, j-1)]: the table ends up equal to the function [T]
    that satisfies the same recurrence. *)
Section table_fill.
Context (step : Z → Z → table → table) (T : nat → nat → Z) (M N : nat).

Hypothesis step_recurrence : ∀ (i j : nat) (dp : table),
  ∃ v, step (Z.of_nat (Datatypes.S i)) (Z.of_nat (Datatypes.S j)) dp
       = dp_set dp (Z.of_nat (Datatypes.S i)) (Z.of_nat (Datatypes.S j)) v
     ∧ (cell dp i j = T i j →
        cell dp i (Datatypes.S j) = T i (Datatypes.S j) →
        cell dp (Datatypes.S i) j = T (Datatypes.S i) j →
        v = T (Datatypes.S i) (Datatypes.S j)).

Lemma fill_row (k : nat) (dp : table) :
  (k < M)%nat → filled_upto T M N k O dp →
  filled_upto T M N k N
    (for_le 1 (Z.of_nat N) (λ j dp, step (Z.of_nat (Datatypes.S k)) j dp) dp).
Proof.
  intros Hk Hdp. unfold for_le.
  replace (Z.to_nat (Z.of_nat N + 1 - 1)) with N by lia.
  apply (for_up_invariant (filled_upto T M N k)); [exact Hdp|].
  intros l st Hl [Hdims Hst].
  replace (1 + Z.of_nat l) with (Z.of_nat (Datatypes.S l)) by lia.
  destruct (step_recurrence k l st) as (v & -> & Hv).
  rewrite Hv by (apply Hst; lia). split; [by apply dp_set_dims|].
  intros i j Hi Hj Hreg.
  destruct (decide ((Datatypes.S k, Datatypes.S l) = (i, j))) as [Heq|Hne].
  - injection Heq as <- <-. apply (cell_set_eq _ _ _ _ _ _ Hdims); lia.
  - rewrite cell_set_ne by exact Hne. apply Hst; [done|done|].
    destruct Hreg as [?|[?|[-> ?]]]; [lia|lia|].
    right. right. split; [done|].
    destruct (decide (j = Datatypes.S l)) as [->|]; [done|lia].
Qed.

Lemma fill_rows (dp : table) :
  filled_upto T M N O O dp →
  filled_upto T M N M O
    (for_le 1 (Z.of_nat M)
       (λ i dp, for_le 1 (Z.of_nat N) (λ j dp, step i j dp) dp) dp).
Proof.
  intros Hdp. unfold for_le at 1.
  replace (Z.to_nat (Z.of_nat M + 1 - 1)) with M by lia.
  apply (for_up_invariant (λ k, filled_upto T M N k O)); [exact Hdp|].
  intros k st Hk Hst.
  replace (1 + Z.of_nat k) with (Z.of_nat (Datatypes.S k)) by lia.
  destruct (fill_row k st Hk Hst) as [Hdims Hrow].
  split; [exact Hdims|]. intros i j Hi Hj Hreg. apply Hrow; [done|done|].
  destruct Hreg as [?|[?|[? ?]]]; [|lia|lia].
  destruct (decide (i = Datatypes.S k)) as [->|]; [|lia].
  right. right. lia.
Qed.

Lemma fill_correct (dp : table) :
  dp_dims dp (Datatypes.S M) (Datatypes.S N) →
  (∀ i j, (i ≤ M)%nat → (j ≤ N)%nat → i = O ∨ j = O → cell dp i j = T i j) →
  ∀ i j, (i ≤ M)%nat → (j ≤ N)%nat →
    cell (for_le 1 (Z.of_nat M)
            (λ i dp, for_le 1 (Z.of_nat N) (λ j dp, step i j dp) dp) dp) i j
    = T i j.
Proof.
  intros Hdims Hedge i j Hi Hj.
  destruct (fill_rows dp) as [_ Hall].
  - split; [exact Hdims|]. intros i' j' Hi' Hj' Hreg. apply Hedge; lia.
  - apply Hall; [done|done|]. left. exact Hi.
Qed.
End table_fill.

(** ** [levenshtein_distance] *)

Lemma char_at_pred (s : cstring) (i : nat) :
  char_at s (Z.of_nat (Datatypes.S i) - 1) = s !!! i.
Proof. unfold char_at. f_equal. lia. Qed.

Lemma lev_table_succ (s1 s2 : cstring) (i j : nat) :
  lev_table s1 s2 (Datatypes.S i) (Datatypes.S j)
  = Z.min (lev_table s1 s2 i (Datatypes.S j) + 1)
      (Z.min (lev_table s1 s2 (Datatypes.S i) j + 1)
         (lev_table s1 s2 i j + if Ascii.eqb (s1 !!! i) (s2 !!! j) then 0 else 1)).
Proof. reflexivity. Qed.

Lemma lev_table_col0 (s1 s2 : cstring) (i : nat) : lev_table s1 s2 i O = Z.of_nat i.
Proof. destruct i; reflexivity. Qed.

Lemma lev_table_nonneg (s1 s2 : cstring) (i j : nat) : 0 ≤ lev_table s1 s2 i j.
Proof.
  revert j. induction i as [|i IHi]; intros j; [simpl; lia|].
  induction j as [|j IHj]; [rewrite lev_table_col0; lia|].
  rewrite lev_table_succ. specialize (IHi j) as Hd. specialize (IHi (Datatypes.S j)).
  destruct (Ascii.eqb _ _); lia.
Qed.

(** A cell is at most one more than the cell above it or to its left. *)
Lemma lev_table_up (s1 s2 : cstring) (i j : nat) :
  lev_table s1 s2 (Datatypes.S i) j ≤ lev_table s1 s2 i j + 1.
Proof.
  destruct j as [|j]; [rewrite !lev_table_col0; lia|].
  rewrite lev_table_succ. lia.
Qed.

Lemma lev_table_left (s1 s2 : cstring) (i j : nat) :
  lev_table s1 s2 i (Datatypes.S j) ≤ lev_table s1 s2 i j + 1.
Proof.
  destruct i as [|i]; [simpl; lia|].
  rewrite lev_table_succ. lia.
Qed.

(** And at least one less. *)
Lemma lev_table_right (s1 s2 : cstring) (i j : nat) :
  lev_table s1 s2 i j ≤ lev_table s1 s2 i (Datatypes.S j) + 1.
Proof.
  induction i as [|i IH]; [simpl; lia|].
  rewrite (lev_table_succ s1 s2 i j).
  pose proof (lev_table_up s1 s2 i j).
  destruct (Ascii.eqb _ _); lia.
Qed.

Lemma lev_table_down (s1 s2 : cstring) (i j : nat) :
  lev_table s1 s2 i j ≤ lev_table s1 s2 (Datatypes.S i) j + 1.
Proof.
  induction j as [|j IH]; [rewrite !lev_table_col0; lia|].
  rewrite (lev_table_succ s1 s2 i j).
  pose proof (lev_table_left s1 s2 i j).
  destruct (Ascii.eqb _ _); lia.
Qed.

Lemma lev_table_diag (s : cstring) (i : nat) : lev_table s s i i = 0.
Proof.
  induction i as [|i IH]; [reflexivity|].
  rewrite lev_table_succ, IH, Ascii.eqb_refl.
  pose proof (lev_table_nonneg s s i (Datatypes.S i)).
  pose proof (lev_table_nonneg s s (Datatypes.S i) i). lia.
Qed.

(** Every entry is at most the larger index, so the table of two strings
    whose lengths fit in an [int] holds no value outside the [int] range. *)
Lemma lev_table_bound (s1 s2 : cstring) (i j : nat) :
  lev_table s1 s2 i j ≤ Z.of_nat (Nat.max i j).
Proof.
  revert j. induction i as [|i IHi]; intros j; [simpl; lia|].
  destruct j as [|j]; [rewrite lev_table_col0; lia|].
  rewrite lev_table_succ. specialize (IHi j).
  destruct (Ascii.eqb _ _); lia.
Qed.

(** The inner-loop body of the C++ code writes the value of the classic
    recurrence. *)
Lemma lev_cell_recurrence (str1 str2 : cstring) (i j : nat) (dp : table) :
  ∃ v, lev_cell str1 str2 (Z.of_nat (Datatypes.S i)) (Z.of_nat (Datatypes.S j)) dp
       = dp_set dp (Z.of_nat (Datatypes.S i)) (Z.of_nat (Datatypes.S j)) v
     ∧ (cell dp i j = lev_table str1 str2 i j →
        cell dp i (Datatypes.S j) = lev_table str1 str2 i (Datatypes.S j) →
        cell dp (Datatypes.S i) j = lev_table str1 str2 (Datatypes.S i) j →
        v = lev_table str1 str2 (Datatypes.S i) (Datatypes.S j)).
Proof.
  unfold lev_cell. rewrite !char_at_pred.
  replace (Z.of_nat (Datatypes.S i) - 1) with (Z.of_nat i) by lia.
  replace (Z.of_nat (Datatypes.S j) - 1) with (Z.of_nat j) by lia.
  change (dp_get dp (Z.of_nat i) (Z.of_nat j)) with (cell dp i j).
  change (dp_get dp (Z.of_nat i) (Z.of_nat (Datatypes.S j)))
    with (cell dp i (Datatypes.S j)).
  change (dp_get dp (Z.of_nat (Datatypes.S i)) (Z.of_nat j))
    with (cell dp (Datatypes.S i) j).
  pose proof (lev_table_right str1 str2 i j).
  pose proof (lev_table_down str1 str2 i j).
  rewrite lev_table_succ. unfold std_min3.
  destruct (Ascii.eqb _ _); (eexists; split; [reflexivity|]);
    intros E1 E2 E3; rewrite ?E1, ?E2, ?E3; lia.
Qed.

(** The two initialisation loops [dp[i][0] = i] and [dp[0][j] = j]. *)
Lemma lev_init_column (dp : table) (M N : nat) :
  dp_dims dp (Datatypes.S M) (Datatypes.S N) →
  let dp' := for_le 0 (Z.of_nat M) (λ i dp, dp_set dp i 0 i) dp in
  dp_dims dp' (Datatypes.S M) (Datatypes.S N)
  ∧ ∀ i, (i ≤ M)%nat → cell dp' i O = Z.of_nat i.
Proof.
  intros Hdims dp'. subst dp'. unfold for_le.
  replace (Z.to_nat (Z.of_nat M + 1 - 0)) with (Datatypes.S M) by lia.
  pose (P := λ (k : nat) (st : table),
     dp_dims st (Datatypes.S M) (Datatypes.S N)
     ∧ ∀ i, (i < k)%nat → cell st i O = Z.of_nat i).
  assert (HP : P (Datatypes.S M)
                 (for_up (Datatypes.S M) 0 (λ i dp, dp_set dp i 0 i) dp)).
  { apply (for_up_invariant P).
    - split; [exact Hdims|]. intros i Hi. lia.
    - intros k st Hk [Hd Hst]. rewrite Z.add_0_l.
      split; [by apply dp_set_dims|]. intros i Hi.
      destruct (decide (i = k)) as [->|Hne].
      + apply (cell_set_eq st (Datatypes.S M) (Datatypes.S N) k O); [done|lia|lia].
      + rewrite (cell_set_ne st k O i O) by congruence. apply Hst. lia. }
  destruct HP as [Hd Hst]. split; [exact Hd|]. intros i Hi. apply Hst. lia.
Qed.

Lemma lev_init_row (dp : table) (M N : nat) :
  dp_dims dp (Datatypes.S M) (Datatypes.S N) →
  (∀ i, (i ≤ M)%nat → cell dp i O = Z.of_nat i) →
  let dp' := for_le 0 (Z.of_nat N) (λ j dp, dp_set dp 0 j j) dp in
  dp_dims dp' (Datatypes.S M) (Datatypes.S N)
  ∧ (∀ i, (i ≤ M)%nat → cell dp' i O = Z.of_nat i)
  ∧ (∀ j, (j ≤ N)%nat → cell dp' O j = Z.of_nat j).
Proof.
  intros Hdims Hcol dp'. subst dp'. unfold for_le.
  replace (Z.to_nat (Z.of_nat N + 1 - 0)) with (Datatypes.S N) by lia.
  pose (P := λ (k : nat) (st : table),
     dp_dims st (Datatypes.S M) (Datatypes.S N)
     ∧ (∀ i, (i ≤ M)%nat → cell st i O = Z.of_nat i)
     ∧ ∀ j, (j < k)%nat → cell st O j = Z.of_nat j).
  assert (HP : P (Datatypes.S N)
                 (for_up (Datatypes.S N) 0 (λ j dp, dp_set dp 0 j j) dp)).
  { apply (for_up_invariant P).
    - split; [exact Hdims|]. split; [exact Hcol|]. intros j Hj. lia.
    - intros k st Hk (Hd & Hc & Hr). rewrite Z.add_0_l.
      split; [by apply dp_set_dims|]. split.
      + intros i Hi. destruct (decide ((O, k) = (i, O))) as [Heq|Hne].
        * injection Heq as <- ->.
          apply (cell_set_eq st (Datatypes.S M) (Datatypes.S N) O O); [done|lia|lia].
        * rewrite (cell_set_ne st O k i O) by exact Hne. by apply Hc.
      + intros j Hj. destruct (decide (j = k)) as [->|Hne].
        * apply (cell_set_eq st (Datatypes.S M) (Datatypes.S N) O k); [done|lia|lia].
        * rewrite (cell_set_ne st O k O j) by congruence. apply Hr. lia. }
  destruct HP as (Hd & Hc & Hr). split; [exact Hd|]. split; [exact Hc|].
  intros j Hj. apply Hr. lia.
Qed.

Lemma lev_fill_table (str1 str2 : cstring) (M N i j : nat) :
  (i ≤ M)%nat → (j ≤ N)%nat →
  cell (lev_fill str1 str2 (Z.of_nat M) (Z.of_nat N)
          (dp_make (Z.of_nat M + 1) (Z.of_nat N + 1) 0)) i j
  = lev_table str1 str2 i j.
Proof.
  intros Hi Hj. unfold lev_fill.
  replace (Z.of_nat M + 1) with (Z.of_nat (Datatypes.S M)) by lia.
  replace (Z.of_nat N + 1) with (Z.of_nat (Datatypes.S N)) by lia.
  pose proof (dp_make_dims (Datatypes.S M) (Datatypes.S N) 0) as Hd0.
  destruct (lev_init_column _ M N Hd0) as [Hd1 Hc1].
  destruct (lev_init_row _ M N Hd1 Hc1) as (Hd2 & Hc2 & Hr2).
  apply (fill_correct (lev_cell str1 str2) (lev_table str1 str2) M N);
    [apply lev_cell_recurrence|exact Hd2| |exact Hi|exact Hj].
  intros i' j' Hi' Hj' [->| ->].
  - rewrite Hr2 by exact Hj'. reflexivity.
  - rewrite Hc2 by exact Hi'. by rewrite lev_table_col0.
Qed.

Lemma levenshtein_distance_table (str1 str2 : cstring) :
  fits_table str1 → fits_table str2 →
  levenshtein_distance str1 str2 = lev_classic str1 str2.
Proof.
  intros H1%fits_table_fits_int H2%fits_table_fits_int.
  unfold levenshtein_distance, lev_classic.
  rewrite !to_int_strlen by assumption. unfold strlen.
  apply (lev_fill_table str1 str2 (length str1) (length str2)); lia.
Qed.

(** *** The recurrence computes the least number of edits *)

Lemma take_snoc_inv {A : Type} `{!Inhabited A} (s a : list A) (x : A) (i : nat) :
  (i ≤ length s)%nat → take i s = a ++ [x] →
  ∃ i', i = Datatypes.S i' ∧ (i' < length s)%nat ∧ a = take i' s ∧ x = s !!! i'.
Proof.
  intros Hi Htake. destruct i as [|i'].
  { rewrite take_0 in Htake. by destruct a. }
  exists i'. rewrite take_snoc in Htake by lia.
  apply app_inj_tail in Htake as [<- <-]. repeat split. lia.
Qed.

Lemma lev_table_script (s1 s2 : cstring) (i j : nat) :
  (i ≤ length s1)%nat → (j ≤ length s2)%nat →
  ∃ k, edit_script (take i s1) (take j s2) k
       ∧ Z.of_nat k = lev_table s1 s2 i j.
Proof.
  revert j. induction i as [|i IHi]; intros j Hi Hj.
  { induction j as [|j IHj]; [exists O; split; [constructor|reflexivity]|].
    destruct IHj as (k & Hk & Hcost); [lia|]. exists (Datatypes.S k).
    rewrite take_snoc by lia. split; [by constructor|]. simpl in *. lia. }
  induction j as [|j IHj].
  { destruct (IHi O) as (k & Hk & Hcost); [lia|lia|]. exists (Datatypes.S k).
    rewrite take_snoc by lia. split; [by apply edit_delete|].
    rewrite lev_table_col0 in *. lia. }
  destruct (IHi j) as (kd & Hkd & Hcd); [lia|lia|].
  destruct (IHi (Datatypes.S j)) as (ku & Hku & Hcu); [lia|lia|].
  destruct IHj as (kl & Hkl & Hcl); [lia|].
  rewrite lev_table_succ.
  rewrite (take_snoc s1 i) in * by lia. rewrite (take_snoc s2 j) in * by lia.
  set (up := lev_table s1 s2 i (Datatypes.S j)) in *.
  set (left := lev_table s1 s2 (Datatypes.S i) j) in *.
  set (diag := lev_table s1 s2 i j) in *.
  destruct (Ascii.eqb_spec (s1 !!! i) (s2 !!! j)) as [Heq|Hne].
  - destruct (Z.le_gt_cases diag (Z.min (up + 1) (left + 1))).
    + exists kd. split; [rewrite Heq; by constructor|lia].
    + destruct (Z.le_gt_cases up left).
      * exists (Datatypes.S ku). split; [by apply edit_delete|lia].
      * exists (Datatypes.S kl). split; [by apply edit_insert|lia].
  - destruct (Z.le_gt_cases (diag + 1) (Z.min (up + 1) (left + 1))).
    + exists (Datatypes.S kd). split; [by constructor|lia].
    + destruct (Z.le_gt_cases up left).
      * exists (Datatypes.S ku). split; [by apply edit_delete|lia].
      * exists (Datatypes.S kl). split; [by apply edit_insert|lia].
Qed.

Lemma lev_table_least (s t : cstring) (k : nat) :
  edit_script s t k →
  ∀ (s1 s2 : cstring) (i j : nat),
    (i ≤ length s1)%nat → (j ≤ length s2)%nat →
    s = take i s1 → t = take j s2 →
    lev_table s1 s2 i j ≤ Z.of_nat k.
Proof.
  induction 1 as [|x s t k _ IH|x y s t k _ IH|x s t k _ IH|y s t k _ IH];
    intros s1 s2 i j Hi Hj Hs Ht.
  - symmetry in Hs, Ht.
    apply (f_equal length) in Hs, Ht. rewrite length_take_le in Hs, Ht by lia.
    simpl in *. subst. reflexivity.
  - symmetry in Hs, Ht.
    apply take_snoc_inv in Hs as (i' & -> & Hi' & -> & ->); [|exact Hi].
    apply take_snoc_inv in Ht as (j' & -> & Hj' & -> & Hx); [|exact Hj].
    specialize (IH s1 s2 i' j' ltac:(lia) ltac:(lia) eq_refl eq_refl).
    rewrite lev_table_succ, Hx, Ascii.eqb_refl. lia.
  - symmetry in Hs, Ht.
    apply take_snoc_inv in Hs as (i' & -> & Hi' & -> & ->); [|exact Hi].
    apply take_snoc_inv in Ht as (j' & -> & Hj' & -> & ->); [|exact Hj].
    specialize (IH s1 s2 i' j' ltac:(lia) ltac:(lia) eq_refl eq_refl).
    rewrite lev_table_succ. destruct (Ascii.eqb _ _); lia.
  - symmetry in Hs.
    apply take_snoc_inv in Hs as (i' & -> & Hi' & -> & ->); [|exact Hi].
    specialize (IH s1 s2 i' j ltac:(lia) ltac:(lia) eq_refl Ht).
    pose proof (lev_table_up s1 s2 i' j). lia.
  - symmetry in Ht.
    apply take_snoc_inv in Ht as (j' & -> & Hj' & -> & ->); [|exact Hj].
    specialize (IH s1 s2 i j' ltac:(lia) ltac:(lia) Hs eq_refl).
    pose proof (lev_table_left s1 s2 i j'). lia.
Qed.

(** The value of the classic recurrence is the length of a shortest edit
    script from [s1] to [s2]. *)
Lemma lev_classic_edit_distance (s1 s2 : cstring) :
  (∃ k, edit_script s1 s2 k ∧ Z.of_nat k = lev_classic s1 s2)
  ∧ ∀ k, edit_script s1 s2 k → lev_classic s1 s2 ≤ Z.of_nat k.
Proof.
  unfold lev_classic. split.
  - destruct (lev_table_script s1 s2 (length s1) (length s2)) as (k & Hk & Hc);
      [lia|lia|].
    rewrite !firstn_all in Hk. by exists k.
  - intros k Hk.
    apply (lev_table_least s1 s2 k Hk); [lia|lia| |]; by rewrite firstn_all.
Qed.

(** C8: for strings whose lengths are below [INT_MAX], [levenshtein_distance]
    is the value of the classic recurrence at the bottom-right cell (base
    cases [dp[i][0] = i], [dp[0][j] = j]; insertion, deletion and
    substitution cost 1, a match costs 0), which is the length of a
    shortest edit script from the first string to the second; the distance
    from a string to itself is 0, and from ["kitten"] to ["sitting"] it
    is 3. *)
Theorem levenshtein_distance_classic (str1 str2 : cstring) :
  fits_table str1 → fits_table str2 →
  levenshtein_distance str1 str2 = lev_classic str1 str2
  ∧ (∃ k, edit_script str1 str2 k ∧ Z.of_nat k = levenshtein_distance str1 str2)
  ∧ (∀ k, edit_script str1 str2 k → levenshtein_distance str1 str2 ≤ Z.of_nat k)
  ∧ levenshtein_distance str1 str1 = 0
  ∧ levenshtein_distance (lit "kitten") (lit "sitting") = 3.
Proof.
  intros H1 H2.
  pose proof (levenshtein_distance_table str1 str2 H1 H2) as Heq.
  destruct (lev_classic_edit_distance str1 str2) as [Hex Hmin].
  split; [exact Heq|]. rewrite Heq.
  split; [exact Hex|]. split; [exact Hmin|]. split; [|reflexivity].
  rewrite levenshtein_distance_table by assumption. apply lev_table_diag.
Qed.

Lemma levenshtein_distance_classic_witness :
  levenshtein_distance (lit "flaw") (lit "lawn") = lev_classic (lit "flaw") (lit "lawn")
  ∧ (∃ k, edit_script (lit "flaw") (lit "lawn") k
          ∧ Z.of_nat k = levenshtein_distance (lit "flaw") (lit "lawn"))
  ∧ (∀ k, edit_script (lit "flaw") (lit "lawn") k
          → levenshtein_distance (lit "flaw") (lit "lawn") ≤ Z.of_nat k)
  ∧ levenshtein_distance (lit "flaw") (lit "flaw") = 0
  ∧ levenshtein_distance (lit "kitten") (lit "sitting") = 3.
Proof.
  apply (levenshtein_distance_classic (lit "flaw") (lit "lawn"));
    unfold fits_table; vm_compute; reflexivity.
Defined.

(** ** [longest_common_subsequence] *)

Lemma sublist_snoc_r {A : Type} (l k : list A) (x : A) :
  l `sublist_of` k ++ [x] →
  l `sublist_of` k ∨ ∃ l', l = l' ++ [x] ∧ l' `sublist_of` k.
Proof.
  intros (l1 & l2 & -> & H1 & H2)%sublist_app_r.
  apply sublist_cons_r in H2 as [H2|(l' & -> & H2)];
    apply sublist_nil_r in H2 as ->.
  - left. by rewrite app_nil_r.
  - right. by exists l1.
Qed.

Lemma lcs_table_succ (s1 s2 : cstring) (i j : nat) :
  lcs_table s1 s2 (Datatypes.S i) (Datatypes.S j)
  = if Ascii.eqb (s1 !!! i) (s2 !!! j)
    then lcs_table s1 s2 i j + 1
    else Z.max (lcs_table s1 s2 i (Datatypes.S j)) (lcs_table s1 s2 (Datatypes.S i) j).
Proof. reflexivity. Qed.

Lemma lcs_table_col0 (s1 s2 : cstring) (i : nat) : lcs_table s1 s2 i O = 0.
Proof. destruct i; reflexivity. Qed.

Lemma lcs_backtrack_succ (tie : tie_break) (s1 s2 : cstring) (i j : nat) :
  lcs_backtrack tie s1 s2 (Datatypes.S i) (Datatypes.S j)
  = if Ascii.eqb (s1 !!! i) (s2 !!! j)
    then lcs_backtrack tie s1 s2 i j ++ [s1 !!! i]
    else
      let up := lcs_table s1 s2 i (Datatypes.S j) in
      let left := lcs_table s1 s2 (Datatypes.S i) j in
      if up >? left then lcs_backtrack tie s1 s2 i (Datatypes.S j)
      else if left >? up then lcs_backtrack tie s1 s2 (Datatypes.S i) j
      else match tie with
           | TieUp => lcs_backtrack tie s1 s2 i (Datatypes.S j)
           | TieLeft => lcs_backtrack tie s1 s2 (Datatypes.S i) j
           end.
Proof. reflexivity. Qed.

Lemma lcs_backtrack_col0 (tie : tie_break) (s1 s2 : cstring) (i : nat) :
  lcs_backtrack tie s1 s2 i O = [].
Proof. destruct i; reflexivity. Qed.

(** Every entry lies between 0 and the smaller index, so the table of two
    strings whose lengths fit in an [int] holds no value outside the [int]
    range. *)
Lemma lcs_table_bound (s1 s2 : cstring) (i j : nat) :
  0 ≤ lcs_table s1 s2 i j ≤ Z.of_nat (Nat.min i j).
Proof.
  revert j. induction i as [|i IHi]; intros j; [simpl; lia|].
  induction j as [|j IHj]; [rewrite lcs_table_col0; lia|].
  rewrite lcs_table_succ.
  specialize (IHi j) as Hd. specialize (IHi (Datatypes.S j)).
  destruct (Ascii.eqb _ _); lia.
Qed.

(** No common subsequence of two prefixes is longer than the table says. *)
Lemma lcs_table_upper (s1 s2 : cstring) (i j : nat) (l : cstring) :
  (i ≤ length s1)%nat → (j ≤ length s2)%nat →
  l `sublist_of` take i s1 → l `sublist_of` take j s2 →
  Z.of_nat (length l) ≤ lcs_table s1 s2 i j.
Proof.
  revert j l. induction i as [|i IHi]; intros j l Hi Hj H1 H2.
  { apply sublist_nil_r in H1 as ->. simpl. lia. }
  revert l H1 H2. induction j as [|j IHj]; intros l H1 H2.
  { apply sublist_nil_r in H2 as ->. rewrite lcs_table_col0. simpl. lia. }
  rewrite take_snoc in H1 by lia. rewrite take_snoc in H2 by lia.
  rewrite lcs_table_succ.
  apply sublist_snoc_r in H1 as [H1|(l1 & -> & H1)];
    apply sublist_snoc_r in H2 as [H2|(l2 & E2 & H2)].
  - pose proof (IHi j l ltac:(lia) ltac:(lia) H1 H2).
    assert (Z.of_nat (length l) ≤ lcs_table s1 s2 i (Datatypes.S j)).
    { apply IHi; [lia|lia|exact H1|].
      rewrite take_snoc by lia. by apply sublist_inserts_r. }
    destruct (Ascii.eqb _ _); lia.
  - subst l.
    assert (Hl2 : l2 `sublist_of` take i s1).
    { etrans; [|exact H1]. by apply sublist_inserts_r. }
    pose proof (IHi j l2 ltac:(lia) ltac:(lia) Hl2 H2) as Hlen.
    assert (Z.of_nat (length (l2 ++ [s2 !!! j])) ≤ lcs_table s1 s2 i (Datatypes.S j)).
    { apply IHi; [lia|lia|exact H1|].
      rewrite take_snoc by lia. by apply sublist_app. }
    rewrite length_app in *. simpl in *.
    destruct (Ascii.eqb _ _); lia.
  - assert (Hl1 : l1 `sublist_of` take j s2).
    { etrans; [|exact H2]. by apply sublist_inserts_r. }
    pose proof (IHi j l1 ltac:(lia) ltac:(lia) H1 Hl1) as Hlen.
    assert (Z.of_nat (length (l1 ++ [s1 !!! i])) ≤ lcs_table s1 s2 (Datatypes.S i) j).
    { apply IHj; [lia| |exact H2].
      rewrite take_snoc by lia. by apply sublist_app. }
    rewrite length_app in *. simpl in *.
    destruct (Ascii.eqb _ _); lia.
  - apply app_inj_tail in E2 as [-> E2]. rewrite E2, Ascii.eqb_refl.
    pose proof (IHi j l2 ltac:(lia) ltac:(lia) H1 H2).
    rewrite length_app. simpl. lia.
Qed.

(** Backtracking, with either tie-break, returns a common subsequence of
    the two prefixes whose length is the table entry. *)
Lemma lcs_backtrack_optimal (tie : tie_break) (s1 s2 : cstring) (i j : nat) :
  (i ≤ length s1)%nat → (j ≤ length s2)%nat →
  lcs_backtrack tie s1 s2 i j `sublist_of` take i s1
  ∧ lcs_backtrack tie s1 s2 i j `sublist_of` take j s2
  ∧ Z.of_nat (length (lcs_backtrack tie s1 s2 i j)) = lcs_table s1 s2 i j.
Proof.
  revert j. induction i as [|i IHi]; intros j Hi Hj.
  { simpl. split; [constructor|]. split; [apply sublist_nil_l|reflexivity]. }
  induction j as [|j IHj].
  { rewrite lcs_backtrack_col0, lcs_table_col0.
    split; [apply sublist_nil_l|]. split; [constructor|reflexivity]. }
  rewrite lcs_backtrack_succ, lcs_table_succ.
  rewrite (take_snoc s1 i) by lia. rewrite (take_snoc s2 j) by lia.
  destruct (IHi j ltac:(lia) ltac:(lia)) as (Hd1 & Hd2 & Hdl).
  destruct (IHi (Datatypes.S j) ltac:(lia) ltac:(lia)) as (Hu1 & Hu2 & Hul).
  destruct (IHj ltac:(lia)) as (Hl1 & Hl2 & Hll).
  rewrite (take_snoc s1 i) in Hl1 by lia. rewrite (take_snoc s2 j) in Hu2 by lia.
  assert (Hup : lcs_backtrack tie s1 s2 i (Datatypes.S j)
                  `sublist_of` take i s1 ++ [s1 !!! i])
    by (by apply sublist_inserts_r).
  assert (Hleft : lcs_backtrack tie s1 s2 (Datatypes.S i) j
                    `sublist_of` take j s2 ++ [s2 !!! j])
    by (by apply sublist_inserts_r).
  destruct (Ascii.eqb_spec (s1 !!! i) (s2 !!! j)) as [Heq|Hne].
  - split; [by apply sublist_app|]. split.
    + rewrite Heq. by apply sublist_app.
    + rewrite length_app. simpl. lia.
  - cbv zeta.
    destruct (Z.gtb_spec (lcs_table s1 s2 i (Datatypes.S j))
                (lcs_table s1 s2 (Datatypes.S i) j)) as [Hgt|Hle].
    { split; [exact Hup|]. split; [exact Hu2|lia]. }
    destruct (Z.gtb_spec (lcs_table s1 s2 (Datatypes.S i) j)
                (lcs_table s1 s2 i (Datatypes.S j))) as [Hgt|Hge].
    { split; [exact Hl1|]. split; [exact Hleft|lia]. }
    destruct tie.
    + split; [exact Hup|]. split; [exact Hu2|lia].
    + split; [exact Hl1|]. split; [exact Hleft|lia].
Qed.

(** The table-filling step of the C++ code follows the LCS recurrence. *)
Lemma lcs_cell_recurrence (str1 str2 : cstring) (i j : nat) (dp : table) :
  ∃ v, lcs_cell str1 str2 (Z.of_nat (Datatypes.S i)) (Z.of_nat (Datatypes.S j)) dp
       = dp_set dp (Z.of_nat (Datatypes.S i)) (Z.of_nat (Datatypes.S j)) v
     ∧ (cell dp i j = lcs_table str1 str2 i j →
        cell dp i (Datatypes.S j) = lcs_table str1 str2 i (Datatypes.S j) →
        cell dp (Datatypes.S i) j = lcs_table str1 str2 (Datatypes.S i) j →
        v = lcs_table str1 str2 (Datatypes.S i) (Datatypes.S j)).
Proof.
  unfold lcs_cell. rewrite !char_at_pred.
  replace (Z.of_nat (Datatypes.S i) - 1) with (Z.of_nat i) by lia.
  replace (Z.of_nat (Datatypes.S j) - 1) with (Z.of_nat j) by lia.
  change (dp_get dp (Z.of_nat i) (Z.of_nat j)) with (cell dp i j).
  change (dp_get dp (Z.of_nat i) (Z.of_nat (Datatypes.S j)))
    with (cell dp i (Datatypes.S j)).
  change (dp_get dp (Z.of_nat (Datatypes.S i)) (Z.of_nat j))
    with (cell dp (Datatypes.S i) j).
  rewrite lcs_table_succ.
  destruct (Ascii.eqb _ _); (eexists; split; [reflexivity|]);
    intros E1 E2 E3; rewrite ?E1, ?E2, ?E3; reflexivity.
Qed.

Lemma lcs_fill_table (str1 str2 : cstring) (M N i j : nat) :
  (i ≤ M)%nat → (j ≤ N)%nat →
  cell (lcs_fill str1 str2 (Z.of_nat M) (Z.of_nat N)
          (dp_make (Z.of_nat M + 1) (Z.of_nat N + 1) 0)) i j
  = lcs_table str1 str2 i j.
Proof.
  intros Hi Hj. unfold lcs_fill.
  replace (Z.of_nat M + 1) with (Z.of_nat (Datatypes.S M)) by lia.
  replace (Z.of_nat N + 1) with (Z.of_nat (Datatypes.S N)) by lia.
  apply (fill_correct (lcs_cell str1 str2) (lcs_table str1 str2) M N);
    [apply lcs_cell_recurrence|apply dp_make_dims| |exact Hi|exact Hj].
  intros i' j' Hi' Hj' Hedge. rewrite dp_make_cell by lia.
  destruct Hedge as [-> | ->]; [reflexivity|by rewrite lcs_table_col0].
Qed.

(** The backtracking loop of the C++ code, started in cell [(i, j)] with
    [acc] already collected, ends with the left-tie-break backtracking of
    the table prepended to [acc]. *)
Lemma lcs_back_loop (str1 str2 : cstring) (dp : table) (M N : nat) :
  (∀ i j, (i ≤ M)%nat → (j ≤ N)%nat → cell dp i j = lcs_table str1 str2 i j) →
  ∀ (i j fuel : nat) (acc : cstring),
    (i ≤ M)%nat → (j ≤ N)%nat → (i + j < fuel)%nat →
    lcs_result <$>
      while_loop fuel lcs_cond (lcs_back str1 str2 dp)
        (LcsState (Z.of_nat i) (Z.of_nat j) acc)
    = Some (lcs_backtrack TieLeft str1 str2 i j ++ acc).
Proof.
  intros Hdp i. induction i as [|i IHi]; intros j fuel acc Hi Hj Hfuel.
  { destruct fuel as [|fuel]; [lia|]. reflexivity. }
  revert fuel acc Hfuel. induction j as [|j IHj]; intros fuel acc Hfuel.
  { destruct fuel as [|fuel]; [lia|]. rewrite lcs_backtrack_col0. reflexivity. }
  destruct fuel as [|fuel]; [lia|].
  cbn [while_loop].
  replace (lcs_cond (LcsState (Z.of_nat (Datatypes.S i)) (Z.of_nat (Datatypes.S j)) acc))
    with true by (unfold lcs_cond; simpl; reflexivity).
  unfold lcs_back. cbn [lcs_i lcs_j lcs_result].
  rewrite !char_at_pred, lcs_backtrack_succ.
  replace (Z.of_nat (Datatypes.S i) - 1) with (Z.of_nat i) by lia.
  replace (Z.of_nat (Datatypes.S j) - 1) with (Z.of_nat j) by lia.
  change (dp_get dp (Z.of_nat i) (Z.of_nat (Datatypes.S j)))
    with (cell dp i (Datatypes.S j)).
  change (dp_get dp (Z.of_nat (Datatypes.S i)) (Z.of_nat j))
    with (cell dp (Datatypes.S i) j).
  rewrite !Hdp by lia.
  destruct (Ascii.eqb (str1 !!! i) (str2 !!! j)).
  - rewrite IHi by lia. by rewrite <- app_assoc.
  - cbv zeta.
    destruct (Z.gtb_spec (lcs_table str1 str2 i (Datatypes.S j))
                (lcs_table str1 str2 (Datatypes.S i) j)) as [Hgt|Hle].
    + apply IHi; lia.
    + rewrite IHj by lia.
      by destruct (lcs_table str1 str2 (Datatypes.S i) j
                   >? lcs_table str1 str2 i (Datatypes.S j)).
Qed.

Lemma longest_common_subsequence_backtrack (str1 str2 : cstring) :
  fits_table str1 → fits_table str2 →
  longest_common_subsequence str1 str2
  = Some (lcs_by_backtracking TieLeft str1 str2).
Proof.
  intros H1%fits_table_fits_int H2%fits_table_fits_int.
  unfold longest_common_subsequence, lcs_by_backtracking.
  rewrite !to_int_strlen by assumption. unfold strlen.
  rewrite (lcs_back_loop str1 str2 _ (length str1) (length str2)).
  - by rewrite app_nil_r.
  - intros i j Hi Hj. by apply lcs_fill_table.
  - lia.
  - lia.
  - lia.
Qed.

(** C1, as the code has it: for strings whose lengths are below [INT_MAX],
    [longest_common_subsequence] returns the subsequence found by
    backtracking from the bottom-right cell of the standard LCS table,
    going to the larger neighbour when the characters differ and, on a tie,
    lowering the index into the second string (moving left).  The result is
    a common subsequence of the two strings and no common subsequence is
    longer. *)
Theorem longest_common_subsequence_left_tie (str1 str2 : cstring) :
  fits_table str1 → fits_table str2 →
  longest_common_subsequence str1 str2
  = Some (lcs_by_backtracking TieLeft str1 str2)
  ∧ common_subsequence (lcs_by_backtracking TieLeft str1 str2) str1 str2
  ∧ ∀ l, common_subsequence l str1 str2 →
      (length l ≤ length (lcs_by_backtracking TieLeft str1 str2))%nat.
Proof.
  intros H1 H2. split; [by apply longest_common_subsequence_backtrack|].
  destruct (lcs_backtrack_optimal TieLeft str1 str2 (length str1) (length str2))
    as (Hs1 & Hs2 & Hlen); [lia|lia|].
  rewrite firstn_all in Hs1, Hs2. split; [split; assumption|].
  intros l [Hl1 Hl2]. unfold lcs_by_backtracking.
  pose proof (lcs_table_upper str1 str2 (length str1) (length str2) l) as Hup.
  rewrite !firstn_all in Hup. specialize (Hup ltac:(lia) ltac:(lia) Hl1 Hl2). lia.
Qed.

Lemma longest_common_subsequence_left_tie_witness :
  longest_common_subsequence (lit "ABCBDAB") (lit "BDCAB")
  = Some (lcs_by_backtracking TieLeft (lit "ABCBDAB") (lit "BDCAB"))
  ∧ common_subsequence (lcs_by_backtracking TieLeft (lit "ABCBDAB") (lit "BDCAB"))
      (lit "ABCBDAB") (lit "BDCAB")
  ∧ ∀ l, common_subsequence l (lit "ABCBDAB") (lit "BDCAB") →
      (length l ≤ length (lcs_by_backtracking TieLeft (lit "ABCBDAB") (lit "BDCAB")))%nat.
Proof.
  apply (longest_common_subsequence_left_tie (lit "ABCBDAB") (lit "BDCAB"));
    unfold fits_table; vm_compute; reflexivity.
Defined.

(** C1, as the specification words it (on a tie, lower the index into the
    first string), fails: on ["ab"] and ["ba"] the code returns ["b"], and
    backtracking with the upward tie-break gives ["a"]. *)
Lemma longest_common_subsequence_tie_up_fails :
  longest_common_subsequence (lit "ab") (lit "ba") = Some (lit "b")
  ∧ lcs_by_backtracking TieUp (lit "ab") (lit "ba") = lit "a"
  ∧ longest_common_subsequence (lit "ab") (lit "ba")
    ≠ Some (lcs_by_backtracking TieUp (lit "ab") (lit "ba")).
Proof. split; [reflexivity|]. split; [reflexivity|]. vm_compute. discriminate. Qed.

(** ** [find_pattern]: Knuth-Morris-Pratt *)

Lemma char_at_nat (s : cstring) (i : nat) : char_at s (Z.of_nat i) = s !!! i.
Proof. unfold char_at. by rewrite Nat2Z.id. Qed.

(** Of two suffixes of the same list, the shorter is a suffix of the longer. *)
Lemma suffix_shorter {A : Type} (l1 l2 t : list A) :
  l1 `suffix_of` t → l2 `suffix_of` t → (length l1 ≤ length l2)%nat →
  l1 `suffix_of` l2.
Proof.
  intros H1 H2 Hlen.
  destruct (suffix_weak_total l1 l2 t H1 H2) as [H|H]; [exact H|].
  by rewrite (suffix_length_eq l2 l1 H Hlen).
Qed.

Lemma matches_zero (pattern t : cstring) : matches pattern t O.
Proof. split; [lia|]. apply suffix_nil. Qed.

Lemma matches_length (pattern t : cstring) (k : nat) :
  matches pattern t k → (k ≤ length t)%nat.
Proof.
  intros [Hk Hsuf]. apply suffix_length in Hsuf.
  by rewrite length_take_le in Hsuf.
Qed.

(** Reading one more character [c]: the matches of the longer text are 0
    and the successors of the matches that [c] extends. *)
Lemma matches_snoc (pattern t : cstring) (c : char) (k : nat) :
  matches pattern (t ++ [c]) (Datatypes.S k)
  ↔ (k < length pattern)%nat ∧ pattern !!! k = c ∧ matches pattern t k.
Proof.
  unfold matches. split.
  - intros [Hk Hsuf]. rewrite take_snoc in Hsuf by lia.
    split; [lia|]. split; [by apply suffix_snoc_inv_1 in Hsuf|].
    split; [lia|]. by apply suffix_snoc_inv_2 in Hsuf.
  - intros (Hk & <- & _ & Hsuf). split; [lia|].
    rewrite take_snoc by lia. by apply suffix_snoc.
Qed.

Lemma failure_ok_mono (pattern : cstring) (failure : list Z) (n n' : nat) :
  (n' ≤ n)%nat → failure_ok pattern failure n → failure_ok pattern failure n'.
Proof. intros Hn Hok k Hk. apply Hok. lia. Qed.

Lemma failure_ok_lookup (pattern : cstring) (failure : list Z) (n j : nat) :
  failure_ok pattern failure n → (0 < j ≤ n)%nat →
  ∃ b, failure !!! Z.to_nat (Z.of_nat j - 1) = Z.of_nat b
       ∧ greatest (border pattern j) b.
Proof.
  intros Hok Hj. destruct (Hok (j - 1)%nat) as (b & Hb & Hgr); [lia|].
  exists b. replace (Z.to_nat (Z.of_nat j - 1)) with (j - 1)%nat by lia.
  split; [by apply list_lookup_total_correct|].
  by replace (Datatypes.S (j - 1)) with j in Hgr by lia.
Qed.

Lemma kmp_fallback_loop (pattern : cstring) (failure : list Z) (t : cstring)
    (c : char) (fuel j : nat) :
  failure_ok pattern failure j → (j < fuel)%nat →
  fallback_inv pattern t c j →
  ∃ j', while_loop fuel
          (λ j, (0 <? j) && negb (Ascii.eqb c (char_at pattern j)))
          (λ j, failure !!! Z.to_nat (j - 1)) (Z.of_nat j)
        = Some (Z.of_nat j')
      ∧ fallback_inv pattern t c j'
      ∧ (j' = O ∨ pattern !!! j' = c).
Proof.
  revert j. induction fuel as [|fuel IH]; intros j Hok Hfuel Hinv; [lia|].
  cbn [while_loop]. rewrite char_at_nat.
  destruct j as [|j].
  { exists O. split; [reflexivity|]. split; [exact Hinv|by left]. }
  replace (0 <? Z.of_nat (Datatypes.S j)) with true by (symmetry; apply Z.ltb_lt; lia).
  destruct (Ascii.eqb_spec c (pattern !!! Datatypes.S j)) as [Heq|Hne].
  { exists (Datatypes.S j). split; [reflexivity|]. split; [exact Hinv|by right]. }
  cbn [andb negb].
  destruct (failure_ok_lookup pattern failure (Datatypes.S j) (Datatypes.S j) Hok)
    as (b & -> & [[Hb Hbsuf] Hbmax]); [lia|].
  destruct Hinv as (Hj & [_ Hjsuf] & Hcand).
  apply IH; [apply (failure_ok_mono _ _ (Datatypes.S j)); [lia|exact Hok]|lia|].
  split; [lia|]. split.
  - split; [lia|]. by etrans.
  - intros k Hk Hmk Hck. specialize (Hcand k Hk Hmk Hck).
    assert (k ≠ Datatypes.S j) by congruence.
    apply Hbmax. split; [lia|]. destruct Hmk as [_ Hksuf].
    apply (suffix_shorter _ _ t Hksuf Hjsuf).
    rewrite !length_take_le by lia. lia.
Qed.

(** One character of input moves the longest proper match of [t] to the
    longest match of [t ++ [c]]. *)
Lemma kmp_advance_spec (pattern : cstring) (failure : list Z) (t : cstring)
    (c : char) (j : nat) :
  failure_ok pattern failure j →
  greatest (proper_match pattern t) j →
  ∃ j', kmp_advance pattern failure c (Z.of_nat j) = Some (Z.of_nat j')
      ∧ greatest (matches pattern (t ++ [c])) j'.
Proof.
  intros Hok [[Hj Hm] Hmax]. unfold kmp_advance, kmp_fallback.
  destruct (kmp_fallback_loop pattern failure t c
              (Z.to_nat (Z.of_nat j) + 1) j Hok ltac:(lia))
    as (j' & -> & (Hj' & Hm' & Hcand) & Hexit).
  { split; [exact Hj|]. split; [exact Hm|].
    intros k Hk Hmk _. apply Hmax. by split. }
  cbn [mbind option_bind]. rewrite char_at_nat.
  destruct (Ascii.eqb_spec c (pattern !!! j')) as [Heq|Hne].
  - exists (Datatypes.S j'). split; [f_equal; lia|]. split.
    + apply matches_snoc. done.
    + intros [|k] Hk; [lia|]. apply matches_snoc in Hk as (Hk & Hc & Hmk).
      specialize (Hcand k Hk Hmk Hc). lia.
  - exists j'. split; [reflexivity|].
    destruct Hexit as [->|Hc]; [|congruence]. split; [apply matches_zero|].
    intros [|k] Hk; [lia|]. apply matches_snoc in Hk as (Hk & Hc & Hmk).
    specialize (Hcand k Hk Hmk Hc).
    assert (k = O) as -> by lia. congruence.
Qed.

Lemma greatest_iff (P Q : nat → Prop) (j : nat) :
  (∀ k, P k ↔ Q k) → greatest P j → greatest Q j.
Proof.
  intros HPQ [Hj Hmax]. split; [by apply HPQ|].
  intros k Hk. by apply Hmax, HPQ.
Qed.

(** The proper borders of a prefix are the matches of the prefix without
    its first character: the failure table is the pattern matched against
    itself, one place to the right. *)
Lemma border_matches (pattern : cstring) (i k : nat) :
  (1 ≤ i ≤ length pattern)%nat →
  border pattern i k ↔ matches pattern (drop 1 (take i pattern)) k.
Proof.
  intros Hi. unfold border, matches. split.
  - intros [Hk [pre Hpre]]. split; [lia|].
    assert (Hlen : length (take i pattern) = (length pre + k)%nat).
    { rewrite Hpre at 1. rewrite length_app, length_take_le by lia. lia. }
    rewrite length_take_le in Hlen by lia.
    destruct pre as [|x pre]; [simpl in Hlen; lia|].
    rewrite Hpre. by exists pre.
  - intros [Hk Hsuf]. split.
    + apply suffix_length in Hsuf.
      rewrite length_take_le, length_drop, length_take_le in Hsuf by lia. lia.
    + etrans; [exact Hsuf|]. apply suffix_drop.
Qed.

Lemma border_proper_match (pattern : cstring) (i k : nat) :
  (1 ≤ i ≤ length pattern)%nat →
  border pattern i k ↔ proper_match pattern (drop 1 (take i pattern)) k.
Proof.
  intros Hi. rewrite border_matches by exact Hi. unfold proper_match.
  split; [|tauto]. intros Hm. split; [|exact Hm].
  apply matches_length in Hm. rewrite length_drop, length_take_le in Hm by lia. lia.
Qed.

Lemma drop_take_snoc (pattern : cstring) (i : nat) :
  (1 ≤ i < length pattern)%nat →
  drop 1 (take (Datatypes.S i) pattern)
  = drop 1 (take i pattern) ++ [pattern !!! i].
Proof.
  intros Hi. rewrite take_snoc by lia.
  rewrite drop_app_le; [reflexivity|]. rewrite length_take_le; lia.
Qed.

Lemma border_one (pattern : cstring) : greatest (border pattern 1) O.
Proof.
  split; [split; [lia|apply suffix_nil]|]. intros k [Hk _]. lia.
Qed.

Lemma build_failure_function_spec (pattern : cstring) :
  pattern ≠ [] →
  ∃ failure, build_failure_function pattern = Some failure
           ∧ failure_ok pattern failure (length pattern).
Proof.
  intros Hne. assert (Hm : (1 ≤ length pattern)%nat).
  { destruct pattern; [done|simpl; lia]. }
  unfold build_failure_function, for_lt, strlen.
  replace (Z.to_nat (Z.of_nat (length pattern) - 1)) with (length pattern - 1)%nat by lia.
  match goal with |- context [for_up ?n ?lo ?body ?s] =>
    assert (Hinv : build_inv pattern (length pattern - 1) (for_up n lo body s))
  end.
  { apply (for_up_invariant (build_inv pattern)).
    - exists (replicate (length pattern) 0), O.
      split; [reflexivity|]. split; [apply length_replicate|].
      split; [|apply border_one].
      intros k Hk. exists O. split; [|assert (k = O) as -> by lia; apply border_one].
      apply lookup_replicate_2. lia.
    - intros k st Hk (failure & j & -> & Hlen & Hok & Hj).
      replace (1 + Z.of_nat k) with (Z.of_nat (Datatypes.S k)) by lia.
      cbn [mbind option_bind]. rewrite char_at_nat.
      destruct (kmp_advance_spec pattern failure
                  (drop 1 (take (Datatypes.S k) pattern))
                  (pattern !!! Datatypes.S k) j)
        as (j' & -> & Hj').
      { apply (failure_ok_mono _ _ (Datatypes.S k)); [|exact Hok].
        destruct Hj as [[? _] _]. lia. }
      { apply (greatest_iff (border pattern (Datatypes.S k))); [|exact Hj].
        intros b. apply border_proper_match. lia. }
      cbn [mbind option_bind]. rewrite Nat2Z.id.
      rewrite <- drop_take_snoc in Hj' by lia.
      assert (Hj'' : greatest (border pattern (Datatypes.S (Datatypes.S k))) j').
      { apply (greatest_iff (matches pattern
                 (drop 1 (take (Datatypes.S (Datatypes.S k)) pattern))));
          [|exact Hj'].
        intros b. symmetry. apply border_matches. lia. }
      exists (<[Datatypes.S k := Z.of_nat j']> failure), j'.
      split; [reflexivity|]. split; [by rewrite length_insert|].
      split; [|exact Hj''].
      intros b Hb. destruct (decide (b = Datatypes.S k)) as [->|Hbk].
      + exists j'. split; [|exact Hj''].
        apply list_lookup_insert_eq. lia.
      + rewrite list_lookup_insert_ne by congruence. apply Hok. lia. }
  destruct Hinv as (failure & j & -> & _ & Hok & _).
  exists failure. split; [reflexivity|].
  by replace (Datatypes.S (length pattern - 1)) with (length pattern) in Hok by lia.
Qed.

(** *** Occurrences *)

Lemma occ_list_S (text pattern : cstring) (k : nat) :
  occ_list text pattern (Datatypes.S k)
  = occ_list text pattern k
    ++ if decide (occurs_nat text pattern k) then [k] else [].
Proof.
  unfold occ_list. rewrite seq_S, filter_app, filter_cons, filter_nil.
  reflexivity.
Qed.

Lemma elem_of_occ_list (text pattern : cstring) (k o : nat) :
  o ∈ occ_list text pattern k ↔ (o < k)%nat ∧ occurs_nat text pattern o.
Proof.
  unfold occ_list. rewrite list_elem_of_filter, elem_of_seq.
  split; intros [? ?]; split; (done || lia).
Qed.

Lemma occ_list_sorted (text pattern : cstring) (k : nat) :
  StronglySorted lt (occ_list text pattern k).
Proof.
  induction k as [|k IH]; [constructor|].
  rewrite occ_list_S. apply StronglySorted_app_2; [|exact IH|].
  - intros x1 x2 [Hx1 _]%elem_of_occ_list Hx2.
    destruct (decide (occurs_nat text pattern k)).
    + apply list_elem_of_singleton in Hx2 as ->. exact Hx1.
    + by apply elem_of_nil in Hx2.
  - destruct (decide (occurs_nat text pattern k)); repeat constructor.
Qed.

(** An occurrence at offset [o] is the pattern ending the first
    [o + length pattern] characters of the text. *)
Lemma occurs_nat_suffix (text pattern : cstring) (o : nat) :
  (o + length pattern ≤ length text)%nat →
  occurs_nat text pattern o
  ↔ pattern `suffix_of` take (o + length pattern) text.
Proof.
  intros Hlen. unfold occurs_nat. split.
  - intros Hocc. rewrite <- take_take_drop, Hocc. by exists (take o text).
  - intros [pre Hpre]. rewrite take_drop_commute, Hpre.
    apply drop_app_length'.
    apply (f_equal length) in Hpre.
    rewrite length_take_le, length_app in Hpre by lia. lia.
Qed.

Lemma occurs_at_nat (text pattern : cstring) (p : Z) :
  pattern ≠ [] →
  occurs_at text pattern p ↔ 0 ≤ p ∧ occurs_nat text pattern (Z.to_nat p).
Proof.
  intros Hne. unfold occurs_at, occurs_nat, strlen. split.
  - intros (before & after & -> & <-). split; [lia|].
    rewrite Nat2Z.id, drop_app_length. apply take_app_length.
  - intros [Hp Hocc].
    exists (take (Z.to_nat p) text), (drop (length pattern) (drop (Z.to_nat p) text)).
    assert (Hlt : (Z.to_nat p < length text)%nat).
    { assert (1 ≤ length pattern)%nat by (destruct pattern; [done|simpl; lia]).
      apply (f_equal length) in Hocc.
      rewrite length_take, length_drop in Hocc. lia. }
    split.
    + rewrite <- Hocc at 1. by rewrite take_drop, take_drop.
    + rewrite length_take_le by lia. lia.
Qed.

(** *** The scanning loop *)

Lemma to_size_t_small (z : Z) : 0 ≤ z ≤ INT_MAX → to_size_t z = z.
Proof. unfold to_size_t, INT_MAX. intros Hz. apply Z.mod_small. lia. Qed.

Lemma scan_start (text pattern : cstring) :
  pattern ≠ [] → scan_inv text pattern O (Some ([], 0)).
Proof.
  intros Hne. assert (1 ≤ length pattern)%nat by (destruct pattern; [done|simpl; lia]).
  exists O. split.
  - by replace (0 + 1 - length pattern)%nat with O by lia.
  - split; [split; [lia|apply matches_zero]|].
    intros k [_ Hk]. apply matches_length in Hk. simpl in Hk. lia.
Qed.

Lemma scan_step (text pattern : cstring) (failure : list Z) (k : nat)
    (st : option (list Z * Z)) :
  fits_int text →
  (1 ≤ length pattern ≤ length text)%nat →
  failure_ok pattern failure (length pattern) →
  (k < length text)%nat →
  scan_inv text pattern k st →
  scan_inv text pattern (Datatypes.S k)
    (kmp_scan_step text pattern failure (Z.of_nat k) st).
Proof.
  intros Hfits Hmn Hok Hk (j & -> & Hj).
  unfold fits_int, strlen in Hfits.
  unfold kmp_scan_step. cbn [mbind option_bind]. rewrite char_at_nat.
  destruct (kmp_advance_spec pattern failure (take k text) (text !!! k) j)
    as (j' & -> & Hj'); [|exact Hj|].
  { apply (failure_ok_mono _ _ (length pattern)); [|exact Hok].
    destruct Hj as [[? _] _]. lia. }
  cbn [mbind option_bind]. rewrite <- take_snoc in Hj' by exact Hk.
  destruct Hj' as [Hm' Hmax'].
  pose proof Hm' as [Hj'm _].
  rewrite to_size_t_small by (unfold INT_MAX in *; lia).
  unfold strlen. destruct (Z.eqb_spec (Z.of_nat j') (Z.of_nat (length pattern)))
    as [Heq|Hneq].
  - apply Nat2Z.inj in Heq. subst j'.
    pose proof (matches_length _ _ _ Hm') as Hle.
    rewrite length_take_le in Hle by lia.
    destruct Hm' as [_ Hsuf]. rewrite firstn_all in Hsuf.
    set (o := (k + 1 - length pattern)%nat).
    assert (Hocc : occurs_nat text pattern o).
    { apply occurs_nat_suffix; [lia|].
      by replace (o + length pattern)%nat with (Datatypes.S k) by lia. }
    destruct (failure_ok_lookup pattern failure (length pattern) (length pattern) Hok)
      as (b & -> & Hb); [lia|].
    exists b. split.
    + replace (Datatypes.S k + 1 - length pattern)%nat with (Datatypes.S o) by lia.
      rewrite occ_list_S, decide_True by exact Hocc.
      rewrite fmap_app. do 3 f_equal. simpl. f_equal.
      replace (Z.of_nat k - Z.of_nat (length pattern) + 1) with (Z.of_nat o) by lia.
      rewrite to_size_t_small by (unfold INT_MAX in *; lia).
      apply to_int_small. unfold INT_MAX in *. lia.
    + apply (greatest_iff (border pattern (length pattern))); [|exact Hb].
      intros x. unfold border, proper_match, matches. rewrite firstn_all. split.
      * intros [Hx Hxs]. split; [lia|]. split; [lia|]. by etrans.
      * intros (Hx & _ & Hxs). split; [lia|].
        apply (suffix_shorter _ _ _ Hxs Hsuf). rewrite length_take_le; lia.
  - assert (Hlt : (j' < length pattern)%nat) by lia.
    exists j'. split.
    + do 3 f_equal.
      destruct (decide (Datatypes.S k < length pattern)%nat) as [Hshort|Hlong];
        [f_equal; lia|].
      replace (Datatypes.S k + 1 - length pattern)%nat
        with (Datatypes.S (k + 1 - length pattern)) by lia.
      rewrite occ_list_S. destruct (decide _) as [Hocc|_]; [|by rewrite app_nil_r].
      apply occurs_nat_suffix in Hocc; [|lia].
      replace (k + 1 - length pattern + length pattern)%nat
        with (Datatypes.S k) in Hocc by lia.
      assert (Hfull : matches pattern (take (Datatypes.S k) text) (length pattern)).
      { split; [lia|]. by rewrite firstn_all. }
      apply Hmax' in Hfull. lia.
    + split; [by split|]. intros x [_ Hx]. by apply Hmax'.
Qed.

(** [find_pattern] on inputs that pass its guard: the offsets of all
    occurrences, by increasing value. *)
Lemma find_pattern_occ_list (text pattern : cstring) :
  fits_int text → pattern ≠ [] → (length pattern ≤ length text)%nat →
  find_pattern text pattern
  = Some (Z.of_nat <$> occ_list text pattern (length text + 1 - length pattern)).
Proof.
  intros Hfits Hne Hmn.
  assert (1 ≤ length pattern)%nat by (destruct pattern; [done|simpl; lia]).
  unfold find_pattern.
  rewrite bool_decide_eq_false_2 by exact Hne.
  rewrite bool_decide_eq_false_2 by (intros ->; simpl in *; lia).
  replace (strlen pattern >? strlen text) with false
    by (symmetry; unfold strlen; rewrite Z.gtb_ltb; apply Z.ltb_ge; lia).
  cbn [orb].
  destruct (build_failure_function_spec pattern Hne) as (failure & -> & Hok).
  cbn [mbind option_bind]. unfold for_lt, strlen.
  replace (Z.to_nat (Z.of_nat (length text) - 0)) with (length text) by lia.
  match goal with |- context [for_up ?n ?lo ?body ?s] =>
    assert (Hinv : scan_inv text pattern (length text) (for_up n lo body s))
  end.
  { apply (for_up_invariant (scan_inv text pattern)); [by apply scan_start|].
    intros k st Hk Hst. rewrite Z.add_0_l. apply scan_step; (done || lia). }
  destruct Hinv as (j & -> & _). reflexivity.
Qed.

(** C2: for a nonempty text whose length fits in an [int] and a nonempty
    pattern no longer than the text, [find_pattern] returns the list of all
    offsets [p] with [0 <= p <= |text| - |pattern|] at which the pattern
    occurs as a contiguous block of the text, in strictly ascending order,
    overlapping occurrences included; on ["aaa"] and ["aa"] it returns
    [[0; 1]]. *)
Theorem find_pattern_all_occurrences (text pattern : cstring) :
  fits_int text → text ≠ [] → pattern ≠ [] →
  (length pattern ≤ length text)%nat →
  (∃ positions, find_pattern text pattern = Some positions
     ∧ ascending positions
     ∧ ∀ p, p ∈ positions
            ↔ 0 ≤ p ≤ strlen text - strlen pattern ∧ occurs_at text pattern p)
  ∧ find_pattern (lit "aaa") (lit "aa") = Some [0; 1].
Proof.
  intros Hfits _ Hne Hmn. split; [|reflexivity].
  eexists. split; [by apply find_pattern_occ_list|]. split.
  - apply (StronglySorted_fmap _ lt Z.lt); [|apply occ_list_sorted].
    intros x y Hxy. lia.
  - intros p. rewrite list_elem_of_fmap, occurs_at_nat by exact Hne.
    unfold strlen. split.
    + intros (o & -> & [Ho Hocc]%elem_of_occ_list).
      rewrite Nat2Z.id. split; [lia|]. split; [lia|exact Hocc].
    + intros (Hp & _ & Hocc). exists (Z.to_nat p). split; [lia|].
      apply elem_of_occ_list. split; [lia|exact Hocc].
Qed.

Lemma find_pattern_all_occurrences_witness :
  (∃ positions, find_pattern (lit "abababa") (lit "aba") = Some positions
     ∧ ascending positions
     ∧ ∀ p, p ∈ positions
            ↔ 0 ≤ p ≤ strlen (lit "abababa") - strlen (lit "aba")
              ∧ occurs_at (lit "abababa") (lit "aba") p)
  ∧ find_pattern (lit "aaa") (lit "aa") = Some [0; 1].
Proof.
  apply (find_pattern_all_occurrences (lit "abababa") (lit "aba")).
  - unfold fits_int. vm_compute. discriminate.
  - discriminate.
  - discriminate.
  - simpl. lia.
Defined.

(** *** Patterns of one character *)

Lemma occ_list_single_from (pre s : cstring) (c : char) :
  length (filter (occurs_nat (pre ++ s) [c]) (seq (length pre) (length s)))
  = std_count s c.
Proof.
  revert pre. induction s as [|x s IH]; intros pre; [reflexivity|].
  cbn [length seq std_count].
  assert (Hhere : occurs_nat (pre ++ x :: s) [c] (length pre) ↔ x = c).
  { unfold occurs_nat. rewrite drop_app_length. simpl. rewrite take_0.
    split; [by intros [= ->]|by intros ->]. }
  specialize (IH (pre ++ [x])).
  rewrite <- app_assoc, length_app in IH. simpl in IH.
  replace (length pre + 1)%nat with (Datatypes.S (length pre)) in IH by lia.
  destruct (Ascii.eqb_spec x c) as [Heq|Hneq].
  - rewrite filter_cons_True by (by apply Hhere). simpl. by rewrite IH.
  - rewrite filter_cons_False by (by rewrite Hhere). exact IH.
Qed.

Lemma occ_list_single (text : cstring) (c : char) :
  length (occ_list text [c] (length text)) = std_count text c.
Proof. apply (occ_list_single_from [] text c). Qed.

(** C10: for a text whose length fits in an [int], searching for the
    one-character pattern [c] returns as many positions as [count_char]
    counts occurrences of [c]. *)
Theorem find_pattern_single_char_count (text : cstring) (c : char) :
  fits_int text →
  ∃ positions, find_pattern text [c] = Some positions
             ∧ Z.of_nat (length positions) = count_char text c.
Proof.
  intros Hfits. destruct (decide (text = [])) as [->|Hne].
  { exists []. split; reflexivity. }
  assert (1 ≤ length text)%nat by (destruct text; [done|simpl; lia]).
  eexists. split; [apply find_pattern_occ_list; [exact Hfits|done|simpl; lia]|].
  rewrite length_fmap. simpl length.
  replace (length text + 1 - 1)%nat with (length text) by lia.
  by rewrite occ_list_single, count_char_std_count.
Qed.

Lemma find_pattern_single_char_count_witness :
  ∃ positions, find_pattern (lit "mississippi") ["s"%char] = Some positions
             ∧ Z.of_nat (length positions) = count_char (lit "mississippi") "s".
Proof.
  apply (find_pattern_single_char_count (lit "mississippi") "s").
  unfold fits_int. vm_compute. discriminate.
Defined.

(** ** [calculate_gc_content]: the integer part *)

Lemma gc_count_bounds (sequence : cstring) :
  fits_int sequence → 0 ≤ gc_count sequence ≤ strlen sequence.
Proof.
  intros Hfits. unfold gc_count.
  pose proof (length_filter (λ c, is_gc c = true) sequence) as Hle.
  unfold fits_int, strlen in *.
  rewrite to_int_small; lia.
Qed.


(** * Further properties of the library *)

(** ** [reverse_string]: positions *)

Lemma rev_is_reverse {A : Type} (l : list A) : rev l = reverse l.
Proof. unfold reverse. apply rev_alt. Qed.

(** X1.  The result of [reverse_string] has the length of its input, and its
    character at index [i] is the character of the input at the mirrored
    index. *)
Theorem reverse_string_mirror (s : cstring) (i : nat) :
  (i < length s)%nat →
  length (reverse_string s) = length s
  ∧ reverse_string s !! i = s !! (length s - 1 - i)%nat.
Proof.
  intros Hi. rewrite reverse_string_rev, rev_is_reverse.
  split; [apply length_reverse|].
  rewrite reverse_lookup by exact Hi. f_equal. lia.
Qed.

Lemma reverse_string_mirror_witness :
  length (reverse_string (lit "hello")) = length (lit "hello")
  ∧ reverse_string (lit "hello") !! 1%nat
    = lit "hello" !! (length (lit "hello") - 1 - 1)%nat.
Proof. apply (reverse_string_mirror (lit "hello") 1). simpl. lia. Defined.

(** ** [count_char]: range, zero and concatenation *)

Lemma std_count_app (s t : cstring) (c : char) :
  std_count (s ++ t) c = (std_count s c + std_count t c)%nat.
Proof.
  induction s as [|x s IH]; [reflexivity|].
  simpl. rewrite IH. by destruct (Ascii.eqb x c).
Qed.

Lemma std_count_zero (s : cstring) (c : char) : std_count s c = O ↔ c ∉ s.
Proof.
  induction s as [|x s IH]; simpl.
  - split; [intros _; apply not_elem_of_nil|done].
  - rewrite not_elem_of_cons. destruct (Ascii.eqb_spec x c) as [->|Hne].
    + split; [done|]. intros [? _]. done.
    + rewrite IH. split; [by split|tauto].
Qed.

Lemma fits_int_app (s t : cstring) :
  fits_int (s ++ t) → fits_int s ∧ fits_int t.
Proof. unfold fits_int, strlen. rewrite length_app. lia. Qed.

(** X2.  For strings whose total length fits in an [int]: a count lies between 0
    and the length, it is 0 exactly for a character that does not occur,
    and the count in a concatenation is the sum of the counts in the
    parts. *)
Theorem count_char_range_zero_append (s t : cstring) (c : char) :
  fits_int (s ++ t) →
  0 ≤ count_char s c ≤ strlen s
  ∧ (count_char s c = 0 ↔ c ∉ s)
  ∧ count_char (s ++ t) c = count_char s c + count_char t c.
Proof.
  intros Hst. destruct (fits_int_app s t Hst) as [Hs Ht].
  rewrite !count_char_std_count by assumption. split; [|split].
  - pose proof (std_count_le s c). unfold strlen. lia.
  - rewrite <- std_count_zero. lia.
  - rewrite std_count_app. lia.
Qed.

Lemma count_char_range_zero_append_witness :
  0 ≤ count_char (lit "abra") "a" ≤ strlen (lit "abra")
  ∧ (count_char (lit "abra") "a" = 0 ↔ "a"%char ∉ lit "abra")
  ∧ count_char (lit "abra" ++ lit "cadabra") "a"
    = count_char (lit "abra") "a" + count_char (lit "cadabra") "a".
Proof.
  apply (count_char_range_zero_append (lit "abra") (lit "cadabra") "a").
  unfold fits_int. vm_compute. discriminate.
Defined.

(** ** [count_chars] *)

Lemma count_chars_loop (rest : cstring) (counts : gmap char Z) (c : char) :
  fold_left count_chars_step rest counts !! c
  = if decide (c ∈ rest)
    then Some (default 0 (counts !! c) + Z.of_nat (std_count rest c))
    else counts !! c.
Proof.
  revert counts. induction rest as [|x rest IH]; intros counts.
  { cbn [fold_left]. rewrite decide_False; [done|apply not_elem_of_nil]. }
  cbn [fold_left std_count]. rewrite IH. unfold count_chars_step.
  destruct (Ascii.eqb_spec x c) as [->|Hne].
  - rewrite lookup_insert_eq. cbn [default].
    rewrite (decide_True (P := c ∈ c :: rest)) by (by left).
    destruct (decide (c ∈ rest)) as [Hin|Hnin].
    + f_equal. unfold id. lia.
    + apply std_count_zero in Hnin. by rewrite Hnin.
  - rewrite lookup_insert_ne by exact Hne.
    destruct (decide (c ∈ rest)) as [Hin|Hnin].
    + rewrite decide_True by (by right). reflexivity.
    + rewrite decide_False; [reflexivity|].
      rewrite not_elem_of_cons. split; [congruence|exact Hnin].
Qed.

Lemma count_chars_lookup_std (s : cstring) (c : char) :
  count_chars s !! c
  = if decide (c ∈ s) then Some (Z.of_nat (std_count s c)) else None.
Proof.
  unfold count_chars. rewrite count_chars_loop, lookup_empty.
  by destruct (decide (c ∈ s)).
Qed.

(** X3.  For a string whose length fits in an [int], the map returned by
    [count_chars] has exactly the characters of the string as keys, and
    the value stored under a key is what [count_char] returns for it. *)
Theorem count_chars_lookup (s : cstring) (c : char) :
  fits_int s →
  count_chars s !! c
  = if decide (c ∈ s) then Some (count_char s c) else None.
Proof.
  intros Hs. rewrite count_chars_lookup_std.
  by rewrite count_char_std_count by exact Hs.
Qed.

Lemma count_chars_lookup_witness :
  count_chars (lit "banana") !! "n"%char
  = if decide ("n"%char ∈ lit "banana")
    then Some (count_char (lit "banana") "n") else None.
Proof.
  apply (count_chars_lookup (lit "banana") "n").
  unfold fits_int. vm_compute. discriminate.
Defined.

(** X4.  For a string whose length fits in an [int], the values stored in the
    map returned by [count_chars] add up to the length of the string. *)
Theorem count_chars_total (s : cstring) :
  fits_int s →
  foldr Z.add 0 ((map_to_list (count_chars s)).*2) = strlen s.
Proof.
  intros _. set (m := count_chars s).
  assert (Hval : (map_to_list m).*2
                 = (λ c, Z.of_nat (std_count s c)) <$> (map_to_list m).*1).
  { rewrite <- list_fmap_compose. apply list_fmap_ext.
    intros _ [c n] Hcn%list_elem_of_lookup_2%elem_of_map_to_list. simpl.
    unfold m in Hcn. rewrite count_chars_lookup_std in Hcn.
    destruct (decide (c ∈ s)); congruence. }
  rewrite Hval.
  assert (Hsum : ∀ cs : list char,
            foldr Z.add 0 ((λ c, Z.of_nat (std_count s c)) <$> cs)
            = Z.of_nat (foldr Nat.add O ((std_count s) <$> cs))).
  { induction cs as [|c cs IH]; [reflexivity|].
    rewrite !fmap_cons. cbn [foldr]. rewrite IH. lia. }
  rewrite Hsum, std_count_sum; [reflexivity|apply NoDup_fst_map_to_list|].
  intros c Hc. apply list_elem_of_fmap.
  exists (c, Z.of_nat (std_count s c)). split; [reflexivity|].
  apply elem_of_map_to_list. unfold m.
  by rewrite count_chars_lookup_std, decide_True.
Qed.

Lemma count_chars_total_witness :
  foldr Z.add 0 ((map_to_list (count_chars (lit "mississippi"))).*2)
  = strlen (lit "mississippi").
Proof.
  apply (count_chars_total (lit "mississippi")).
  unfold fits_int. vm_compute. discriminate.
Defined.

(** ** The character-wise functions and the order of the characters *)

Lemma count_char_nil_inv (s : cstring) (c : char) :
  count_char s c = to_int (Z.of_nat (std_count s c)).
Proof. destruct s; reflexivity. Qed.

Lemma reverse_string_Permutation (s : cstring) : reverse_string s ≡ₚ s.
Proof. rewrite reverse_string_rev, rev_is_reverse. apply reverse_Permutation. Qed.

(** X5.  For a string whose length fits in an [int]: [count_char],
    [count_chars], [validate_dna] and the G/C count of
    [calculate_gc_content] depend on the characters of the string and not
    on their order: they give the same result on any rearrangement of the
    string, and so on its [reverse_string]. *)
Theorem rearrangement_invariance (s t : cstring) (c : char) :
  fits_int s → s ≡ₚ t →
  (count_char s c = count_char t c
   ∧ count_chars s = count_chars t
   ∧ validate_dna s = validate_dna t
   ∧ gc_count s = gc_count t)
  ∧ (count_char (reverse_string s) c = count_char s c
     ∧ count_chars (reverse_string s) = count_chars s
     ∧ validate_dna (reverse_string s) = validate_dna s
     ∧ gc_count (reverse_string s) = gc_count s).
Proof.
  assert (Hall : ∀ a b : cstring, a ≡ₚ b →
            count_char a c = count_char b c
            ∧ count_chars a = count_chars b
            ∧ validate_dna a = validate_dna b
            ∧ gc_count a = gc_count b).
  { intros a b Hab.
    assert (Hcount : ∀ d, std_count a d = std_count b d).
    { intros d. rewrite !std_count_filter. by rewrite Hab. }
    split; [by rewrite !count_char_nil_inv, Hcount|]. split; [|split].
    - apply map_eq. intros d. rewrite !count_chars_lookup_std, Hcount.
      destruct (decide (d ∈ a)) as [Hd|Hd]; rewrite Hab in Hd.
      + by rewrite decide_True.
      + by rewrite decide_False.
    - rewrite !validate_dna_forallb.
      destruct (forallb is_nucleotide b) eqn:Hb.
      + apply forallb_forall. intros x Hx%list_elem_of_In.
        rewrite Hab in Hx. apply list_elem_of_In in Hx.
        by apply (proj1 (forallb_forall _ _) Hb).
      + destruct (forallb is_nucleotide a) eqn:Ha; [|reflexivity].
        rewrite <- Hb. symmetry. apply forallb_forall.
        intros x Hx%list_elem_of_In. rewrite <- Hab in Hx.
        apply list_elem_of_In in Hx.
        by apply (proj1 (forallb_forall _ _) Ha).
    - unfold gc_count. by rewrite Hab. }
  intros _ Hst. split; [by apply Hall|].
  apply Hall, reverse_string_Permutation.
Qed.

Lemma rearrangement_invariance_witness :
  (count_char (lit "GATTACA") "A" = count_char (lit "AAACGTT") "A"
   ∧ count_chars (lit "GATTACA") = count_chars (lit "AAACGTT")
   ∧ validate_dna (lit "GATTACA") = validate_dna (lit "AAACGTT")
   ∧ gc_count (lit "GATTACA") = gc_count (lit "AAACGTT"))
  ∧ (count_char (reverse_string (lit "GATTACA")) "A" = count_char (lit "GATTACA") "A"
     ∧ count_chars (reverse_string (lit "GATTACA")) = count_chars (lit "GATTACA")
     ∧ validate_dna (reverse_string (lit "GATTACA")) = validate_dna (lit "GATTACA")
     ∧ gc_count (reverse_string (lit "GATTACA")) = gc_count (lit "GATTACA")).
Proof.
  apply (rearrangement_invariance (lit "GATTACA") (lit "AAACGTT") "A").
  - unfold fits_int. vm_compute. discriminate.
  - apply (bool_decide_unpack _). vm_compute. exact I.
Defined.

(** ** [validate_dna]: concatenation and case *)

Lemma is_nucleotide_upper (c : char) :
  is_nucleotide (upper_char c) = is_nucleotide c.
Proof. destruct c as [[] [] [] [] [] [] [] []]; vm_compute; reflexivity. Qed.

(** X6.  A concatenation is valid DNA exactly when both parts are, and folding
    every character to upper case does not change the verdict. *)
Theorem validate_dna_append_case (s t : cstring) :
  validate_dna (s ++ t) = validate_dna s && validate_dna t
  ∧ validate_dna (upper_char <$> s) = validate_dna s.
Proof.
  rewrite !validate_dna_forallb. split; [apply forallb_app|].
  induction s as [|x s IH]; [reflexivity|].
  rewrite fmap_cons. cbn [forallb]. by rewrite IH, is_nucleotide_upper.
Qed.

(** ** Nucleotide accounting *)

Lemma is_gc_letters (x : char) :
  (if is_gc x then 1 else 0)%nat
  = ((if Ascii.eqb x "G" then 1 else 0) + (if Ascii.eqb x "C" then 1 else 0)
     + (if Ascii.eqb x "g" then 1 else 0) + (if Ascii.eqb x "c" then 1 else 0))%nat.
Proof. destruct x as [[] [] [] [] [] [] [] []]; vm_compute; reflexivity. Qed.

Lemma is_nucleotide_split (x : char) :
  is_nucleotide x = true →
  ((if Ascii.eqb x "A" then 1 else 0) + (if Ascii.eqb x "a" then 1 else 0)
   + (if Ascii.eqb x "T" then 1 else 0) + (if Ascii.eqb x "t" then 1 else 0)
   + (if is_gc x then 1 else 0))%nat = 1%nat.
Proof.
  destruct x as [[] [] [] [] [] [] [] []]; vm_compute; intros H;
    (reflexivity || discriminate H).
Qed.

Lemma std_count_cons (x : char) (s : cstring) (c : char) :
  std_count (x :: s) c = ((if Ascii.eqb x c then 1 else 0) + std_count s c)%nat.
Proof. simpl. by destruct (Ascii.eqb x c). Qed.

Lemma gc_filter_cons (x : char) (s : cstring) :
  length (filter (λ c, is_gc c = true) (x :: s))
  = ((if is_gc x then 1 else 0) + length (filter (λ c, is_gc c = true) s))%nat.
Proof.
  rewrite filter_cons. destruct (is_gc x) eqn:Hx.
  - by rewrite decide_True.
  - by rewrite decide_False.
Qed.

Lemma gc_filter_counts (s : cstring) :
  length (filter (λ c, is_gc c = true) s)
  = (std_count s "G" + std_count s "C" + std_count s "g" + std_count s "c")%nat.
Proof.
  induction s as [|x s IH]; [reflexivity|].
  rewrite gc_filter_cons, !std_count_cons, IH, is_gc_letters. lia.
Qed.

Lemma nucleotide_counts (s : cstring) :
  forallb is_nucleotide s = true →
  (std_count s "A" + std_count s "a" + std_count s "T" + std_count s "t"
   + length (filter (λ c, is_gc c = true) s))%nat = length s.
Proof.
  induction s as [|x s IH]; [reflexivity|].
  cbn [forallb]. intros [Hx Hs]%andb_true_iff.
  rewrite gc_filter_cons, !std_count_cons. cbn [length].
  specialize (IH Hs). pose proof (is_nucleotide_split x Hx). lia.
Qed.

(** X7.  For a string whose length fits in an [int], the G/C count used by
    [calculate_gc_content] is the sum of what [count_char] returns for
    G, C, g and c. *)
Theorem gc_count_count_char (s : cstring) :
  fits_int s →
  gc_count s = count_char s "G" + count_char s "C"
               + count_char s "g" + count_char s "c".
Proof.
  intros Hs. unfold gc_count.
  rewrite to_int_small, !count_char_std_count by
    (try exact Hs; pose proof (length_filter (λ c, is_gc c = true) s);
     unfold fits_int, strlen in Hs; lia).
  rewrite gc_filter_counts. lia.
Qed.

Lemma gc_count_count_char_witness :
  gc_count (lit "GattaCa")
  = count_char (lit "GattaCa") "G" + count_char (lit "GattaCa") "C"
    + count_char (lit "GattaCa") "g" + count_char (lit "GattaCa") "c".
Proof.
  apply (gc_count_count_char (lit "GattaCa")).
  unfold fits_int. vm_compute. discriminate.
Defined.

(** X8.  For a string that [validate_dna] accepts and whose length fits in an
    [int], the counts of A, a, T and t returned by [count_char] and the G/C
    count of [calculate_gc_content] add up to the length. *)
Theorem nucleotide_accounting (s : cstring) :
  fits_int s → validate_dna s = true →
  count_char s "A" + count_char s "a" + count_char s "T" + count_char s "t"
  + gc_count s = strlen s.
Proof.
  intros Hs Hvalid. rewrite validate_dna_forallb in Hvalid.
  pose proof (nucleotide_counts s Hvalid) as Hsum.
  unfold gc_count. rewrite !count_char_std_count by exact Hs.
  rewrite to_int_small.
  - unfold strlen. lia.
  - unfold fits_int, strlen in Hs. lia.
Qed.

Lemma nucleotide_accounting_witness :
  count_char (lit "GattaCa") "A" + count_char (lit "GattaCa") "a"
  + count_char (lit "GattaCa") "T" + count_char (lit "GattaCa") "t"
  + gc_count (lit "GattaCa") = strlen (lit "GattaCa").
Proof.
  apply (nucleotide_accounting (lit "GattaCa")).
  - unfold fits_int. vm_compute. discriminate.
  - reflexivity.
Defined.

(** ** [remove_duplicates]: fixed points and size *)

Lemma remove_duplicates_NoDup_elem (s : cstring) :
  NoDup (remove_duplicates s) ∧ ∀ c, c ∈ remove_duplicates s ↔ c ∈ s.
Proof.
  destruct (remove_duplicates_loop_elements s (DedupState [] ∅)) as [Hnd Hel].
  - constructor.
  - intros c. simpl. rewrite lookup_empty, elem_of_nil.
    split; [done|]. by intros [? ?].
  - split; [exact Hnd|]. intros c. unfold remove_duplicates.
    rewrite Hel. simpl. rewrite elem_of_nil. tauto.
Qed.

Lemma dedup_loop_NoDup (rest : cstring) (st : dedup_state) :
  (∀ c, c ∈ dd_result st ↔ is_Some (dd_seen st !! c)) →
  NoDup (dd_result st ++ rest) →
  dd_result (fold_left dedup_step rest st) = dd_result st ++ rest.
Proof.
  revert st. induction rest as [|x rest IH]; intros st Hseen Hnd.
  { simpl. by rewrite app_nil_r. }
  cbn [fold_left]. unfold dedup_step at 2.
  apply NoDup_app in Hnd as Hparts. destruct Hparts as (_ & Hdisj & _).
  destruct (dd_seen st !! x) as [b|] eqn:Hx.
  { exfalso. apply (Hdisj x); [|by left]. apply Hseen. by rewrite Hx. }
  rewrite IH.
  - simpl. by rewrite <- app_assoc.
  - intros c. simpl. rewrite elem_of_app, list_elem_of_singleton, Hseen.
    destruct (decide (x = c)) as [->|Hne].
    + rewrite lookup_insert_eq. split; [by eauto|by right].
    + rewrite lookup_insert_ne by exact Hne. split; [|by left].
      intros [?|?]; [done|congruence].
  - simpl. by rewrite <- app_assoc.
Qed.

(** X9.  [remove_duplicates] returns its input unchanged exactly when the input
    has no repeated character; in particular applying it twice is the same
    as applying it once. *)
Theorem remove_duplicates_fixed_point (s : cstring) :
  (remove_duplicates s = s ↔ NoDup s)
  ∧ remove_duplicates (remove_duplicates s) = remove_duplicates s.
Proof.
  assert (Hfix : ∀ t : cstring, NoDup t → remove_duplicates t = t).
  { intros t Ht. unfold remove_duplicates.
    rewrite (dedup_loop_NoDup t (DedupState [] ∅)); [reflexivity| |exact Ht].
    intros c. simpl. rewrite lookup_empty, elem_of_nil.
    split; [done|]. by intros [? ?]. }
  split; [split|].
  - intros <-. apply remove_duplicates_NoDup_elem.
  - apply Hfix.
  - apply Hfix, remove_duplicates_NoDup_elem.
Qed.

Lemma NoDup_char_length (l : cstring) : NoDup l → (length l ≤ 256)%nat.
Proof.
  intros Hnd.
  assert (Hsub : (N_of_ascii <$> l) ⊆+ (N.of_nat <$> seq 0 256)).
  { apply NoDup_submseteq.
    - apply NoDup_fmap_2; [|exact Hnd].
      intros a b Hab. by rewrite <- (ascii_N_embedding a), <- (ascii_N_embedding b), Hab.
    - intros n (c & -> & _)%list_elem_of_fmap.
      apply list_elem_of_fmap. exists (N.to_nat (N_of_ascii c)).
      split; [by rewrite N2Nat.id|]. apply elem_of_seq.
      pose proof (N_ascii_bounded c). lia. }
  apply submseteq_length in Hsub. by rewrite !length_fmap, length_seq in Hsub.
Qed.

(** X10.  The result of [remove_duplicates] is never longer than its input and
    never longer than 256 characters, the number of values of a [char]. *)
Theorem remove_duplicates_length (s : cstring) :
  (length (remove_duplicates s) ≤ length s)%nat
  ∧ (length (remove_duplicates s) ≤ 256)%nat.
Proof.
  destruct (remove_duplicates_NoDup_elem s) as [Hnd Hel]. split.
  - apply submseteq_length, NoDup_submseteq; [exact Hnd|].
    intros c Hc. by apply Hel.
  - by apply NoDup_char_length.
Qed.

(** ** [is_palindrome] *)

Lemma palindrome_loop (s acc : cstring) :
  fold_left palindrome_step s acc = acc ++ (s ≫= palindrome_char).
Proof.
  revert acc. induction s as [|c s IH]; intros acc.
  { simpl. by rewrite app_nil_r. }
  cbn [fold_left]. rewrite IH, bind_cons, app_assoc. f_equal.
  unfold palindrome_step, palindrome_char.
  destruct (std_isalnum _); [reflexivity|by rewrite app_nil_r].
Qed.

Lemma is_palindrome_cleaned (s : cstring) :
  is_palindrome s
  = bool_decide (s ≫= palindrome_char = rev (s ≫= palindrome_char)).
Proof. unfold is_palindrome, std_reverse. by rewrite palindrome_loop. Qed.

Lemma palindrome_char_rev (c : char) : rev (palindrome_char c) = palindrome_char c.
Proof. unfold palindrome_char. by destruct (std_isalnum _). Qed.

Lemma cleaned_rev (s : cstring) :
  rev s ≫= palindrome_char = rev (s ≫= palindrome_char).
Proof.
  induction s as [|c s IH]; [reflexivity|].
  cbn [rev]. rewrite bind_app, IH, (bind_cons _ c s), rev_app_distr.
  f_equal. change ([c] ≫= palindrome_char) with (palindrome_char c ++ []).
  by rewrite app_nil_r, palindrome_char_rev.
Qed.

(** X11.  For seven-bit strings: [is_palindrome] gives the same answer on a
    string and on its [reverse_string], and it accepts every string
    followed by its own reversal. *)
Theorem is_palindrome_reverse (s : cstring) :
  seven_bit s →
  is_palindrome (reverse_string s) = is_palindrome s
  ∧ is_palindrome (s ++ reverse_string s) = true.
Proof.
  intros _. rewrite !is_palindrome_cleaned, reverse_string_rev. split.
  - rewrite cleaned_rev, rev_involutive.
    apply bool_decide_ext. split; congruence.
  - apply bool_decide_eq_true.
    by rewrite bind_app, cleaned_rev, rev_app_distr, rev_involutive.
Qed.

Lemma is_palindrome_reverse_witness :
  is_palindrome (reverse_string (lit "Was it a car")) = is_palindrome (lit "Was it a car")
  ∧ is_palindrome (lit "Was it a car" ++ reverse_string (lit "Was it a car")) = true.
Proof.
  apply (is_palindrome_reverse (lit "Was it a car")).
  apply (bool_decide_unpack _). vm_compute. exact I.
Defined.

Lemma same_letter_isalnum (a b : N) :
  std_tolower a = std_tolower b → std_isalnum a = std_isalnum b.
Proof.
  unfold std_tolower, std_isalnum.
  repeat match goal with
         | |- context [(?x <=? ?y)%N] => destruct (N.leb_spec x y)
         end; cbn [andb orb]; intros Heq; (reflexivity || lia).
Qed.

Lemma same_letter_cleaned (s t : cstring) :
  Forall2 (λ a b, std_tolower (N_of_ascii a) = std_tolower (N_of_ascii b)) s t →
  s ≫= palindrome_char = t ≫= palindrome_char.
Proof.
  induction 1 as [|a b s t Hab _ IH]; [reflexivity|].
  rewrite !bind_cons, IH. f_equal. unfold palindrome_char.
  by rewrite (same_letter_isalnum _ _ Hab), Hab.
Qed.

(** X12.  For seven-bit strings, [is_palindrome] does not see letter case: two
    strings of the same length whose characters agree position by position
    after [std::tolower] get the same answer. *)
Theorem is_palindrome_case_insensitive (s t : cstring) :
  seven_bit s → seven_bit t →
  Forall2 (λ a b, std_tolower (N_of_ascii a) = std_tolower (N_of_ascii b)) s t →
  is_palindrome s = is_palindrome t.
Proof.
  intros _ _ Hst. rewrite !is_palindrome_cleaned.
  by rewrite (same_letter_cleaned s t Hst).
Qed.

Lemma is_palindrome_case_insensitive_witness :
  is_palindrome (lit "Level up") = is_palindrome (lit "lEVEL UP").
Proof.
  apply (is_palindrome_case_insensitive (lit "Level up") (lit "lEVEL UP")).
  - apply (bool_decide_unpack _). vm_compute. exact I.
  - apply (bool_decide_unpack _). vm_compute. exact I.
  - repeat constructor.
Defined.

Lemma cleaned_filter (s : cstring) :
  filter (λ c, std_isalnum (N_of_ascii c) = true) s ≫= palindrome_char
  = s ≫= palindrome_char.
Proof.
  induction s as [|c s IH]; [reflexivity|].
  rewrite filter_cons, (bind_cons _ c s).
  destruct (std_isalnum (N_of_ascii c)) eqn:Hc.
  - rewrite decide_True by reflexivity. by rewrite bind_cons, IH.
  - rewrite decide_False by discriminate.
    assert (palindrome_char c = []) as ->
      by (unfold palindrome_char; by rewrite Hc).
    exact IH.
Qed.

(** X13.  For seven-bit strings, [is_palindrome] sees only the alphanumeric
    characters: removing every other character from the string does not
    change the answer. *)
Theorem is_palindrome_alnum_only (s : cstring) :
  seven_bit s →
  is_palindrome (filter (λ c, std_isalnum (N_of_ascii c) = true) s)
  = is_palindrome s.
Proof. intros _. by rewrite !is_palindrome_cleaned, cleaned_filter. Qed.

Lemma is_palindrome_alnum_only_witness :
  is_palindrome (filter (λ c, std_isalnum (N_of_ascii c) = true)
                   (lit "A man, a plan, a canal: Panama"))
  = is_palindrome (lit "A man, a plan, a canal: Panama").
Proof.
  apply (is_palindrome_alnum_only (lit "A man, a plan, a canal: Panama")).
  apply (bool_decide_unpack _). vm_compute. exact I.
Defined.

(** ** [levenshtein_distance] is a metric *)

Lemma edit_script_sym (s t : cstring) (k : nat) :
  edit_script s t k → edit_script t s k.
Proof. induction 1; by constructor. Qed.

Lemma edit_script_zero (s t : cstring) (k : nat) :
  edit_script s t k → k = O → s = t.
Proof. induction 1; intros Hk; try discriminate; [reflexivity|]. by rewrite IHedit_script. Qed.

Lemma edit_script_length (s t : cstring) (k : nat) :
  edit_script s t k →
  (length s ≤ length t + k)%nat ∧ (length t ≤ length s + k)%nat.
Proof. induction 1; rewrite ?length_app; simpl; lia. Qed.

(** Two edit scripts in a row can be merged into one that is no longer
    than both together. *)
Lemma edit_script_trans (a b : cstring) (k1 : nat) :
  edit_script a b k1 →
  ∀ (c : cstring) (k2 : nat), edit_script b c k2 →
    ∃ k, edit_script a c k ∧ (k ≤ k1 + k2)%nat.
Proof.
  induction 1 as [|x a b k1 H1 IH1|x y a b k1 H1 IH1|x a b k1 H1 IH1|y a b k1 H1 IH1].
  - intros c k2 H2. exists k2. split; [exact H2|lia].
  - (* keep x *)
    intros c k2 H2. remember (b ++ [x]) as b' eqn:Hb.
    induction H2 as [|z b2 c k2 H2 _|y z b2 c k2 H2 _|y b2 c k2 H2 _|z b2 c k2 H2 IH2].
    + by destruct b.
    + apply app_inj_tail in Hb as [-> ->].
      destruct (IH1 c k2 H2) as (k & Hk & Hle).
      exists k. split; [by constructor|lia].
    + apply app_inj_tail in Hb as [-> ->].
      destruct (IH1 c k2 H2) as (k & Hk & Hle).
      exists (Datatypes.S k). split; [by constructor|lia].
    + apply app_inj_tail in Hb as [-> ->].
      destruct (IH1 c k2 H2) as (k & Hk & Hle).
      exists (Datatypes.S k). split; [by apply edit_delete|lia].
    + destruct (IH2 Hb) as (k & Hk & Hle).
      exists (Datatypes.S k). split; [by apply edit_insert|lia].
  - (* substitute x by y *)
    intros c k2 H2. remember (b ++ [y]) as b' eqn:Hb.
    induction H2 as [|z b2 c k2 H2 _|y' z b2 c k2 H2 _|y' b2 c k2 H2 _|z b2 c k2 H2 IH2].
    + by destruct b.
    + apply app_inj_tail in Hb as [-> ->].
      destruct (IH1 c k2 H2) as (k & Hk & Hle).
      exists (Datatypes.S k). split; [by constructor|lia].
    + apply app_inj_tail in Hb as [-> ->].
      destruct (IH1 c k2 H2) as (k & Hk & Hle).
      exists (Datatypes.S k). split; [by constructor|lia].
    + apply app_inj_tail in Hb as [-> ->].
      destruct (IH1 c k2 H2) as (k & Hk & Hle).
      exists (Datatypes.S k). split; [by apply edit_delete|lia].
    + destruct (IH2 Hb) as (k & Hk & Hle).
      exists (Datatypes.S k). split; [by apply edit_insert|lia].
  - (* delete x *)
    intros c k2 H2. destruct (IH1 c k2 H2) as (k & Hk & Hle).
    exists (Datatypes.S k). split; [by apply edit_delete|lia].
  - (* insert y *)
    intros c k2 H2. remember (b ++ [y]) as b' eqn:Hb.
    induction H2 as [|z b2 c k2 H2 _|y' z b2 c k2 H2 _|y' b2 c k2 H2 _|z b2 c k2 H2 IH2].
    + by destruct b.
    + apply app_inj_tail in Hb as [-> ->].
      destruct (IH1 c k2 H2) as (k & Hk & Hle).
      exists (Datatypes.S k). split; [by apply edit_insert|lia].
    + apply app_inj_tail in Hb as [-> ->].
      destruct (IH1 c k2 H2) as (k & Hk & Hle).
      exists (Datatypes.S k). split; [by apply edit_insert|lia].
    + apply app_inj_tail in Hb as [-> ->].
      destruct (IH1 c k2 H2) as (k & Hk & Hle).
      exists k. split; [exact Hk|lia].
    + destruct (IH2 Hb) as (k & Hk & Hle).
      exists (Datatypes.S k). split; [by apply edit_insert|lia].
Qed.

Lemma lev_classic_sym (s t : cstring) : lev_classic s t = lev_classic t s.
Proof.
  assert (Hle : ∀ a b : cstring, lev_classic a b ≤ lev_classic b a).
  { intros a b. destruct (lev_classic_edit_distance b a) as [(k & Hk & <-) _].
    apply (lev_classic_edit_distance a b), edit_script_sym, Hk. }
  apply Z.le_antisymm; apply Hle.
Qed.

Lemma lev_classic_zero (s t : cstring) : lev_classic s t = 0 ↔ s = t.
Proof.
  split.
  - intros Hz. destruct (lev_classic_edit_distance s t) as [(k & Hk & Hc) _].
    apply (edit_script_zero s t k Hk). lia.
  - intros ->. apply lev_table_diag.
Qed.

Lemma lev_classic_triangle (a b c : cstring) :
  lev_classic a c ≤ lev_classic a b + lev_classic b c.
Proof.
  destruct (lev_classic_edit_distance a b) as [(k1 & H1 & <-) _].
  destruct (lev_classic_edit_distance b c) as [(k2 & H2 & <-) _].
  destruct (edit_script_trans a b k1 H1 c k2 H2) as (k & Hk & Hle).
  pose proof (proj2 (lev_classic_edit_distance a c) k Hk). lia.
Qed.

Lemma lev_classic_bounds (s t : cstring) :
  Z.abs (strlen s - strlen t) ≤ lev_classic s t
  ∧ lev_classic s t ≤ Z.max (strlen s) (strlen t).
Proof.
  unfold strlen. split.
  - destruct (lev_classic_edit_distance s t) as [(k & Hk & <-) _].
    apply edit_script_length in Hk. lia.
  - pose proof (lev_table_bound s t (length s) (length t)).
    unfold lev_classic. lia.
Qed.

(** X14.  For strings whose lengths are below [INT_MAX],
    [levenshtein_distance] is a metric on strings: it is symmetric, it is 0
    exactly for equal strings, and it satisfies the triangle inequality. *)
Theorem levenshtein_distance_metric (a b c : cstring) :
  fits_table a → fits_table b → fits_table c →
  levenshtein_distance a b = levenshtein_distance b a
  ∧ (levenshtein_distance a b = 0 ↔ a = b)
  ∧ levenshtein_distance a c
    ≤ levenshtein_distance a b + levenshtein_distance b c.
Proof.
  intros Ha Hb Hc. rewrite !levenshtein_distance_table by assumption.
  split; [apply lev_classic_sym|]. split; [apply lev_classic_zero|].
  apply lev_classic_triangle.
Qed.

Lemma levenshtein_distance_metric_witness :
  levenshtein_distance (lit "kitten") (lit "sitting")
  = levenshtein_distance (lit "sitting") (lit "kitten")
  ∧ (levenshtein_distance (lit "kitten") (lit "sitting") = 0
     ↔ lit "kitten" = lit "sitting")
  ∧ levenshtein_distance (lit "kitten") (lit "mitten")
    ≤ levenshtein_distance (lit "kitten") (lit "sitting")
      + levenshtein_distance (lit "sitting") (lit "mitten").
Proof.
  apply (levenshtein_distance_metric (lit "kitten") (lit "sitting") (lit "mitten"));
    unfold fits_table; vm_compute; reflexivity.
Defined.

(** X15.  For strings whose lengths are below [INT_MAX], the distance is at
    least the difference of the two lengths and at most the larger length;
    so the distance to the empty string is the length. *)
Theorem levenshtein_distance_bounds (s t : cstring) :
  fits_table s → fits_table t →
  Z.abs (strlen s - strlen t) ≤ levenshtein_distance s t
  ∧ levenshtein_distance s t ≤ Z.max (strlen s) (strlen t)
  ∧ levenshtein_distance s [] = strlen s
  ∧ levenshtein_distance [] s = strlen s.
Proof.
  intros Hs Ht.
  assert (Hnil : fits_table []) by (unfold fits_table; vm_compute; reflexivity).
  rewrite !levenshtein_distance_table by assumption.
  split; [apply lev_classic_bounds|]. split; [apply lev_classic_bounds|].
  pose proof (lev_classic_bounds s []) as [H1 H2].
  pose proof (lev_classic_bounds [] s) as [H3 H4].
  pose proof (strlen_nonneg s). unfold strlen in *. simpl in *. lia.
Qed.

Lemma levenshtein_distance_bounds_witness :
  Z.abs (strlen (lit "flaw") - strlen (lit "lawnmower"))
  ≤ levenshtein_distance (lit "flaw") (lit "lawnmower")
  ∧ levenshtein_distance (lit "flaw") (lit "lawnmower")
    ≤ Z.max (strlen (lit "flaw")) (strlen (lit "lawnmower"))
  ∧ levenshtein_distance (lit "flaw") [] = strlen (lit "flaw")
  ∧ levenshtein_distance [] (lit "flaw") = strlen (lit "flaw").
Proof.
  apply (levenshtein_distance_bounds (lit "flaw") (lit "lawnmower"));
    unfold fits_table; vm_compute; reflexivity.
Defined.

(** ** [longest_common_subsequence]: subsequences, length *)

Lemma sublist_full_length {A : Type} (l k : list A) :
  l `sublist_of` k → (length k ≤ length l)%nat → l = k.
Proof.
  induction 1 as [|x l k _ IH|x l k Hlk _]; simpl; intros Hlen.
  - reflexivity.
  - f_equal. apply IH. lia.
  - apply sublist_length in Hlk. lia.
Qed.

Lemma sublist_singleton {A : Type} (x : A) (l : list A) :
  x ∈ l → [x] `sublist_of` l.
Proof.
  intros (l1 & l2 & ->)%list_elem_of_split.
  apply sublist_inserts_l, sublist_skip, sublist_nil_l.
Qed.

(** The three facts about the backtracking of the whole table. *)
Lemma lcs_by_backtracking_optimal (s1 s2 : cstring) :
  lcs_by_backtracking TieLeft s1 s2 `sublist_of` s1
  ∧ lcs_by_backtracking TieLeft s1 s2 `sublist_of` s2
  ∧ ∀ l, l `sublist_of` s1 → l `sublist_of` s2 →
      (length l ≤ length (lcs_by_backtracking TieLeft s1 s2))%nat.
Proof.
  destruct (lcs_backtrack_optimal TieLeft s1 s2 (length s1) (length s2))
    as (H1 & H2 & Hlen); [lia|lia|].
  rewrite firstn_all in H1, H2. split; [exact H1|]. split; [exact H2|].
  intros l Hl1 Hl2. unfold lcs_by_backtracking.
  pose proof (lcs_table_upper s1 s2 (length s1) (length s2) l) as Hup.
  rewrite !firstn_all in Hup. specialize (Hup ltac:(lia) ltac:(lia) Hl1 Hl2). lia.
Qed.

(** X16.  For strings whose lengths are below [INT_MAX]: when the first
    string is a subsequence of the second, [longest_common_subsequence]
    returns the first string, whichever way round the arguments are given;
    so a string compared with itself is returned unchanged. *)
Theorem longest_common_subsequence_of_subsequence (str1 str2 : cstring) :
  fits_table str1 → fits_table str2 → str1 `sublist_of` str2 →
  longest_common_subsequence str1 str2 = Some str1
  ∧ longest_common_subsequence str2 str1 = Some str1
  ∧ longest_common_subsequence str1 str1 = Some str1.
Proof.
  intros H1 H2 Hsub.
  rewrite !longest_common_subsequence_backtrack by assumption.
  destruct (lcs_by_backtracking_optimal str1 str2) as (Ha & _ & Hamax).
  destruct (lcs_by_backtracking_optimal str2 str1) as (_ & Hb & Hbmax).
  destruct (lcs_by_backtracking_optimal str1 str1) as (Hc & _ & Hcmax).
  split; [|split]; f_equal; apply sublist_full_length; auto.
Qed.

Lemma longest_common_subsequence_of_subsequence_witness :
  longest_common_subsequence (lit "ace") (lit "abcde") = Some (lit "ace")
  ∧ longest_common_subsequence (lit "abcde") (lit "ace") = Some (lit "ace")
  ∧ longest_common_subsequence (lit "ace") (lit "ace") = Some (lit "ace").
Proof.
  apply (longest_common_subsequence_of_subsequence (lit "ace") (lit "abcde")).
  - unfold fits_table. vm_compute. reflexivity.
  - unfold fits_table. vm_compute. reflexivity.
  - unfold lit. simpl.
    repeat first [apply sublist_skip | apply sublist_cons]. apply sublist_nil.
Defined.

(** X17.  For strings whose lengths are below [INT_MAX]: swapping the
    arguments of [longest_common_subsequence] may change the result but not
    its length; the length is at most the shorter input's; and the result is
    empty exactly when the two strings have no character in common. *)
Theorem longest_common_subsequence_length (str1 str2 : cstring) :
  fits_table str1 → fits_table str2 →
  ∃ r1 r2,
    longest_common_subsequence str1 str2 = Some r1
    ∧ longest_common_subsequence str2 str1 = Some r2
    ∧ length r1 = length r2
    ∧ (length r1 ≤ Nat.min (length str1) (length str2))%nat
    ∧ (r1 = [] ↔ ∀ c, c ∈ str1 → c ∉ str2).
Proof.
  intros H1 H2.
  rewrite !longest_common_subsequence_backtrack by assumption.
  destruct (lcs_by_backtracking_optimal str1 str2) as (Ha1 & Ha2 & Hamax).
  destruct (lcs_by_backtracking_optimal str2 str1) as (Hb2 & Hb1 & Hbmax).
  do 2 eexists. split; [reflexivity|]. split; [reflexivity|].
  split; [|split].
  - apply Nat.le_antisymm; [by apply Hbmax|by apply Hamax].
  - apply sublist_length in Ha1, Ha2. lia.
  - split.
    + intros Hnil c Hc1 Hc2.
      specialize (Hamax [c] (sublist_singleton c _ Hc1) (sublist_singleton c _ Hc2)).
      rewrite Hnil in Hamax. simpl in Hamax. lia.
    + intros Hdisj. destruct (lcs_by_backtracking TieLeft str1 str2) as [|c r] eqn:Hr;
        [reflexivity|].
      exfalso. apply (Hdisj c).
      * apply (sublist_subseteq _ _ Ha1). by left.
      * apply (sublist_subseteq _ _ Ha2). by left.
Qed.

Lemma longest_common_subsequence_length_witness :
  ∃ r1 r2,
    longest_common_subsequence (lit "ab") (lit "ba") = Some r1
    ∧ longest_common_subsequence (lit "ba") (lit "ab") = Some r2
    ∧ length r1 = length r2
    ∧ (length r1 ≤ Nat.min (length (lit "ab")) (length (lit "ba")))%nat
    ∧ (r1 = [] ↔ ∀ c, c ∈ lit "ab" → c ∉ lit "ba").
Proof.
  apply (longest_common_subsequence_length (lit "ab") (lit "ba"));
    unfold fits_table; vm_compute; reflexivity.
Defined.

(** ** [levenshtein_distance] and [longest_common_subsequence] *)

Lemma lcs_table_attained (s1 s2 : cstring) (i j : nat) :
  (i ≤ length s1)%nat → (j ≤ length s2)%nat →
  ∃ l, l `sublist_of` take i s1 ∧ l `sublist_of` take j s2
       ∧ Z.of_nat (length l) = lcs_table s1 s2 i j.
Proof.
  intros Hi Hj. exists (lcs_backtrack TieLeft s1 s2 i j).
  by apply lcs_backtrack_optimal.
Qed.

Lemma lcs_table_mono (s1 s2 : cstring) (i j : nat) :
  (i ≤ length s1)%nat → (j ≤ length s2)%nat →
  ((Datatypes.S j ≤ length s2)%nat →
     lcs_table s1 s2 i j ≤ lcs_table s1 s2 i (Datatypes.S j)
     ∧ lcs_table s1 s2 i (Datatypes.S j) ≤ lcs_table s1 s2 i j + 1)
  ∧ ((Datatypes.S i ≤ length s1)%nat →
     lcs_table s1 s2 i j ≤ lcs_table s1 s2 (Datatypes.S i) j
     ∧ lcs_table s1 s2 (Datatypes.S i) j ≤ lcs_table s1 s2 i j + 1).
Proof.
  intros Hi Hj.
  destruct (lcs_table_attained s1 s2 i j Hi Hj) as (l & Hl1 & Hl2 & Hlen).
  split.
  - intros Hj'. split.
    + rewrite <- Hlen. apply lcs_table_upper; [lia|lia|exact Hl1|].
      rewrite take_snoc by lia. by apply sublist_inserts_r.
    + destruct (lcs_table_attained s1 s2 i (Datatypes.S j) Hi Hj')
        as (r & Hr1 & Hr2 & <-).
      rewrite take_snoc in Hr2 by lia.
      apply sublist_snoc_r in Hr2 as [Hr2|(r' & -> & Hr2)].
      * pose proof (lcs_table_upper s1 s2 i j r Hi Hj Hr1 Hr2). lia.
      * assert (Hr' : r' `sublist_of` take i s1).
        { etrans; [|exact Hr1]. by apply sublist_inserts_r. }
        pose proof (lcs_table_upper s1 s2 i j r' Hi Hj Hr' Hr2).
        rewrite length_app. simpl. lia.
  - intros Hi'. split.
    + rewrite <- Hlen. apply lcs_table_upper; [lia|lia| |exact Hl2].
      rewrite take_snoc by lia. by apply sublist_inserts_r.
    + destruct (lcs_table_attained s1 s2 (Datatypes.S i) j Hi' Hj)
        as (r & Hr1 & Hr2 & <-).
      rewrite take_snoc in Hr1 by lia.
      apply sublist_snoc_r in Hr1 as [Hr1|(r' & -> & Hr1)].
      * pose proof (lcs_table_upper s1 s2 i j r Hi Hj Hr1 Hr2). lia.
      * assert (Hr' : r' `sublist_of` take j s2).
        { etrans; [|exact Hr2]. by apply sublist_inserts_r. }
        pose proof (lcs_table_upper s1 s2 i j r' Hi Hj Hr1 Hr').
        rewrite length_app. simpl. lia.
Qed.

Lemma lev_lcs_table (s1 s2 : cstring) (i j : nat) :
  (i ≤ length s1)%nat → (j ≤ length s2)%nat →
  Z.max (Z.of_nat i) (Z.of_nat j) - lcs_table s1 s2 i j ≤ lev_table s1 s2 i j
  ∧ lev_table s1 s2 i j ≤ Z.of_nat i + Z.of_nat j - 2 * lcs_table s1 s2 i j.
Proof.
  revert j. induction i as [|i IHi]; intros j Hi Hj; [simpl; lia|].
  induction j as [|j IHj]; [rewrite lev_table_col0, lcs_table_col0; lia|].
  rewrite lev_table_succ, lcs_table_succ.
  pose proof (IHi j ltac:(lia) ltac:(lia)) as Hd.
  pose proof (IHi (Datatypes.S j) ltac:(lia) ltac:(lia)) as Hu.
  pose proof (IHj ltac:(lia)) as Hl.
  destruct (lcs_table_mono s1 s2 i j ltac:(lia) ltac:(lia)) as [Hmj Hmi].
  specialize (Hmj ltac:(lia)). specialize (Hmi ltac:(lia)).
  destruct (Ascii.eqb _ _); lia.
Qed.

(** X18.  For strings whose lengths are below [INT_MAX], the edit distance
    and the length of the longest common subsequence bound each other: with
    [r] the result of [longest_common_subsequence], the distance is at least
    the larger length minus [|r|] and at most the sum of the lengths minus
    twice [|r|]. *)
Theorem levenshtein_distance_lcs (str1 str2 : cstring) :
  fits_table str1 → fits_table str2 →
  ∃ r, longest_common_subsequence str1 str2 = Some r
     ∧ Z.max (strlen str1) (strlen str2) - strlen r
       ≤ levenshtein_distance str1 str2
     ∧ levenshtein_distance str1 str2
       ≤ strlen str1 + strlen str2 - 2 * strlen r.
Proof.
  intros H1 H2.
  rewrite longest_common_subsequence_backtrack, levenshtein_distance_table
    by assumption.
  eexists. split; [reflexivity|].
  destruct (lcs_backtrack_optimal TieLeft str1 str2 (length str1) (length str2))
    as (_ & _ & Hlen); [lia|lia|].
  unfold strlen, lcs_by_backtracking, lev_classic. rewrite Hlen.
  apply lev_lcs_table; lia.
Qed.

Lemma levenshtein_distance_lcs_witness :
  ∃ r, longest_common_subsequence (lit "kitten") (lit "sitting") = Some r
     ∧ Z.max (strlen (lit "kitten")) (strlen (lit "sitting")) - strlen r
       ≤ levenshtein_distance (lit "kitten") (lit "sitting")
     ∧ levenshtein_distance (lit "kitten") (lit "sitting")
       ≤ strlen (lit "kitten") + strlen (lit "sitting") - 2 * strlen r.
Proof.
  apply (levenshtein_distance_lcs (lit "kitten") (lit "sitting"));
    unfold fits_table; vm_compute; reflexivity.
Defined.

(** ** [find_pattern]: the failure table *)

Lemma build_failure_function_length (pattern : cstring) (failure : list Z) :
  build_failure_function pattern = Some failure →
  length failure = length pattern.
Proof.
  unfold build_failure_function, for_lt.
  match goal with |- context [for_up ?n ?lo ?body ?s] =>
    assert (Hinv : ∀ f j, for_up n lo body s = Some (f, j) →
                          length f = length pattern)
  end.
  { apply (for_up_invariant
             (λ _ st, ∀ f j, st = Some (f, j) → length f = length pattern)).
    - intros f j [= <- _]. apply length_replicate.
    - intros k [[f0 j0]|] _ Hst f j; [|discriminate].
      cbn [mbind option_bind].
      destruct (kmp_advance _ _ _ _) as [j1|]; [|discriminate].
      cbn [mbind option_bind]. intros [= <- _].
      rewrite length_insert. by apply (Hst f0 j0). }
  destruct (for_up _ _ _ _) as [[f j]|]; [|discriminate].
  intros [= <-]. by apply (Hinv f j).
Qed.

(** X19.  For a nonempty pattern whose length fits in an [int],
    [build_failure_function] returns a table with one entry per character
    of the pattern; entry [k] is the length of the longest proper prefix of
    the first [k + 1] characters that is also a suffix of them. *)
Theorem build_failure_function_borders (pattern : cstring) :
  pattern ≠ [] → fits_int pattern →
  ∃ failure,
    build_failure_function pattern = Some failure
    ∧ length failure = length pattern
    ∧ ∀ k, (k < length pattern)%nat →
        ∃ b, failure !! k = Some (Z.of_nat b)
           ∧ (b ≤ k)%nat
           ∧ take b pattern `suffix_of` take (Datatypes.S k) pattern
           ∧ ∀ b', (b' ≤ k)%nat →
                   take b' pattern `suffix_of` take (Datatypes.S k) pattern →
                   (b' ≤ b)%nat.
Proof.
  intros Hne _. destruct (build_failure_function_spec pattern Hne)
    as (failure & Hbuild & Hok).
  exists failure. split; [exact Hbuild|].
  split; [by apply build_failure_function_length|].
  intros k Hk. destruct (Hok k Hk) as (b & Hb & [[Hlt Hsuf] Hmax]).
  exists b. split; [exact Hb|]. split; [lia|]. split; [exact Hsuf|].
  intros b' Hb' Hsuf'. apply Hmax. split; [lia|exact Hsuf'].
Qed.

Lemma build_failure_function_borders_witness :
  ∃ failure,
    build_failure_function (lit "abacabab") = Some failure
    ∧ length failure = length (lit "abacabab")
    ∧ ∀ k, (k < length (lit "abacabab"))%nat →
        ∃ b, failure !! k = Some (Z.of_nat b)
           ∧ (b ≤ k)%nat
           ∧ take b (lit "abacabab") `suffix_of` take (Datatypes.S k) (lit "abacabab")
           ∧ ∀ b', (b' ≤ k)%nat →
                   take b' (lit "abacabab")
                     `suffix_of` take (Datatypes.S k) (lit "abacabab") →
                   (b' ≤ b)%nat.
Proof.
  apply (build_failure_function_borders (lit "abacabab")).
  - discriminate.
  - unfold fits_int. vm_compute. discriminate.
Defined.

(** ** [find_pattern]: membership on every input *)

Lemma occurs_at_length (text pattern : cstring) (p : Z) :
  occurs_at text pattern p →
  0 ≤ p ∧ p + strlen pattern ≤ strlen text.
Proof.
  intros (before & after & -> & <-). unfold strlen.
  rewrite !length_app. lia.
Qed.

(** With a nonempty pattern, on a text of any length: the result is
    strictly ascending and its members are the offsets of the occurrences. *)
Lemma find_pattern_member (text pattern : cstring) :
  fits_int text → pattern ≠ [] →
  ∃ ps, find_pattern text pattern = Some ps
      ∧ StronglySorted Z.lt ps
      ∧ ∀ p, p ∈ ps ↔ occurs_at text pattern p.
Proof.
  intros Hfits Hne.
  destruct (decide (length pattern ≤ length text)%nat) as [Hle|Hgt].
  - eexists. split; [by apply find_pattern_occ_list|]. split.
    + apply (StronglySorted_fmap _ lt Z.lt); [|apply occ_list_sorted].
      intros x y Hxy. lia.
    + intros p. rewrite list_elem_of_fmap, occurs_at_nat by exact Hne. split.
      * intros (o & -> & [Ho Hocc]%elem_of_occ_list).
        rewrite Nat2Z.id. split; [lia|exact Hocc].
      * intros [Hp Hocc].
        assert (Hlen : p + strlen pattern ≤ strlen text).
        { apply (occurs_at_length text pattern p), occurs_at_nat; done. }
        unfold strlen in Hlen.
        exists (Z.to_nat p). split; [lia|].
        apply elem_of_occ_list. split; [lia|exact Hocc].
  - exists []. split; [|split; [constructor|]].
    + unfold find_pattern.
      rewrite bool_decide_eq_false_2 by exact Hne.
      replace (strlen pattern >? strlen text) with true
        by (symmetry; unfold strlen; apply Z.gtb_lt; lia).
      by rewrite orb_true_r.
    + intros p. rewrite elem_of_nil. split; [done|].
      intros Hocc%occurs_at_length. unfold strlen in Hocc. lia.
Qed.

(** X20.  For a nonempty pattern and a text whose length fits in an [int],
    [find_pattern] returns the empty list exactly when the pattern does not
    occur in the text as a contiguous block. *)
Theorem find_pattern_empty_iff (text pattern : cstring) :
  fits_int text → pattern ≠ [] →
  find_pattern text pattern = Some []
  ↔ ¬ ∃ before after, text = before ++ pattern ++ after.
Proof.
  intros Hfits Hne.
  destruct (find_pattern_member text pattern Hfits Hne) as (ps & -> & _ & Hmem).
  split.
  - intros [= ->] (before & after & Htext).
    apply (not_elem_of_nil (strlen before)), Hmem. by exists before, after.
  - intros Hnone. f_equal. destruct ps as [|p ps]; [reflexivity|].
    exfalso. apply Hnone.
    destruct (proj1 (Hmem p)) as (before & after & Htext & _); [by left|].
    by exists before, after.
Qed.

Lemma find_pattern_empty_iff_witness :
  find_pattern (lit "abcabc") (lit "cab") = Some []
  ↔ ¬ ∃ before after, lit "abcabc" = before ++ lit "cab" ++ after.
Proof.
  apply (find_pattern_empty_iff (lit "abcabc") (lit "cab")).
  - unfold fits_int. vm_compute. discriminate.
  - discriminate.
Defined.

(** X21.  Occurrences are local: for a nonempty pattern, when a text is embedded
    in a longer one (whose length fits in an [int]), every position found
    in the text is found in the longer text, moved by the length of what
    was put in front. *)
Theorem find_pattern_embedding (front text back pattern : cstring) :
  fits_int (front ++ text ++ back) → pattern ≠ [] →
  ∃ ps ps',
    find_pattern text pattern = Some ps
    ∧ find_pattern (front ++ text ++ back) pattern = Some ps'
    ∧ ∀ p, p ∈ ps → strlen front + p ∈ ps'.
Proof.
  intros Hfits Hne.
  assert (Htext : fits_int text).
  { apply fits_int_app in Hfits as [_ Hfits]. by apply fits_int_app in Hfits as [? _]. }
  destruct (find_pattern_member text pattern Htext Hne) as (ps & -> & _ & Hmem).
  destruct (find_pattern_member _ pattern Hfits Hne) as (ps' & -> & _ & Hmem').
  exists ps, ps'. split; [reflexivity|]. split; [reflexivity|].
  intros p (before & after & -> & <-)%Hmem. apply Hmem'.
  exists (front ++ before), (after ++ back). split.
  - by rewrite <- !app_assoc.
  - unfold strlen. rewrite length_app. lia.
Qed.

Lemma find_pattern_embedding_witness :
  ∃ ps ps',
    find_pattern (lit "banana") (lit "ana") = Some ps
    ∧ find_pattern (lit "a " ++ lit "banana" ++ lit " split") (lit "ana") = Some ps'
    ∧ ∀ p, p ∈ ps → strlen (lit "a ") + p ∈ ps'.
Proof.
  apply (find_pattern_embedding (lit "a ") (lit "banana") (lit " split") (lit "ana")).
  - unfold fits_int. vm_compute. discriminate.
  - discriminate.
Defined.

(** ** [find_pattern] and [reverse_string] *)

Lemma StronglySorted_lt_NoDup (l : list Z) : StronglySorted Z.lt l → NoDup l.
Proof.
  induction 1 as [|x l _ IH Hx]; constructor; [|exact IH].
  intros Hin. rewrite Forall_forall in Hx. specialize (Hx x Hin). lia.
Qed.

Lemma sorted_lists_equal (l1 l2 : list Z) :
  StronglySorted Z.lt l1 → StronglySorted Z.lt l2 →
  (∀ x, x ∈ l1 ↔ x ∈ l2) → l1 = l2.
Proof.
  intros H1 H2 Hmem. apply (StronglySorted_unique_strong Z.lt); [|done|done|].
  - intros x1 x2 _ _ ? ?. lia.
  - apply NoDup_Permutation; [by apply StronglySorted_lt_NoDup..|exact Hmem].
Qed.

Lemma StronglySorted_mirror (K : Z) (l : list Z) :
  StronglySorted Z.lt l → StronglySorted Z.lt (rev ((λ p, K - p) <$> l)).
Proof.
  induction 1 as [|x l _ IH Hx]; [constructor|].
  rewrite fmap_cons. cbn [rev]. apply StronglySorted_app_2; [|exact IH|repeat constructor].
  intros y z Hy ->%list_elem_of_singleton.
  rewrite rev_is_reverse, elem_of_reverse in Hy.
  apply list_elem_of_fmap in Hy as (p & -> & Hp).
  rewrite Forall_forall in Hx. specialize (Hx p Hp). lia.
Qed.

Lemma occurs_at_rev (text pattern : cstring) (p : Z) :
  occurs_at text pattern p →
  occurs_at (rev text) (rev pattern) (strlen text - strlen pattern - p).
Proof.
  intros (before & after & -> & <-). exists (rev after), (rev before). split.
  - by rewrite !rev_app_distr, <- app_assoc.
  - unfold strlen. rewrite !length_app, length_rev. lia.
Qed.

(** X22.  For a nonempty pattern and a text whose length fits in an [int]:
    searching the reversed pattern in the reversed text finds the mirror
    images of the positions found in the text: position [p] becomes
    [|text| - |pattern| - p], and the list comes out in the opposite
    order. *)
Theorem find_pattern_reverse (text pattern : cstring) :
  fits_int text → pattern ≠ [] →
  ∃ ps, find_pattern text pattern = Some ps
      ∧ find_pattern (reverse_string text) (reverse_string pattern)
        = Some (rev ((λ p, strlen text - strlen pattern - p) <$> ps)).
Proof.
  intros Hfits Hne. rewrite !reverse_string_rev.
  destruct (find_pattern_member text pattern Hfits Hne) as (ps & -> & Hsorted & Hmem).
  assert (Hfits' : fits_int (rev text)).
  { unfold fits_int, strlen in *. by rewrite length_rev. }
  assert (Hne' : rev pattern ≠ []).
  { intros Hnil. apply Hne. by rewrite <- (rev_involutive pattern), Hnil. }
  destruct (find_pattern_member (rev text) (rev pattern) Hfits' Hne')
    as (ps' & -> & Hsorted' & Hmem').
  exists ps. split; [reflexivity|]. f_equal.
  apply sorted_lists_equal; [exact Hsorted'| |].
  { apply (StronglySorted_mirror (strlen text - strlen pattern) ps Hsorted). }
  intros q. rewrite Hmem'.
  rewrite (rev_is_reverse (_ <$> ps)), elem_of_reverse, list_elem_of_fmap.
  split.
  - intros Hq%occurs_at_rev. rewrite !rev_involutive in Hq.
    eexists. split; [|by apply Hmem].
    unfold strlen. rewrite !length_rev. unfold strlen. lia.
  - intros (p & -> & Hp%Hmem). by apply occurs_at_rev.
Qed.

Lemma find_pattern_reverse_witness :
  ∃ ps, find_pattern (lit "abcabcab") (lit "abc") = Some ps
      ∧ find_pattern (reverse_string (lit "abcabcab")) (reverse_string (lit "abc"))
        = Some (rev ((λ p, strlen (lit "abcabcab") - strlen (lit "abc") - p) <$> ps)).
Proof.
  apply (find_pattern_reverse (lit "abcabcab") (lit "abc")).
  - unfold fits_int. vm_compute. discriminate.
  - discriminate.
Defined.

(** * Beyond the range of [int]

    What the code returns on strings longer than an [int] can count: the
    conversions to [int] wrap around.  The strings are kept symbolic
    ([replicate]) and are never built. *)

Lemma std_count_replicate (n : nat) (c : char) :
  std_count (replicate n c) c = n.
Proof.
  induction n as [|n IH]; [reflexivity|].
  simpl. by rewrite Ascii.eqb_refl, IH.
Qed.

Lemma count_char_replicate (n : nat) (c : char) :
  count_char (replicate n c) c = to_int (Z.of_nat n).
Proof. by rewrite count_char_nil_inv, std_count_replicate. Qed.

Lemma strlen_replicate (n : nat) (c : char) :
  strlen (replicate n c) = Z.of_nat n.
Proof. unfold strlen. by rewrite length_replicate. Qed.

(** A run of 2^31 characters ['a'], with its length [n] kept abstract. *)
Lemma count_char_run_wraps (n : nat) :
  Z.of_nat n = 2147483648 →
  count_char (replicate n "a"%char) "a" = -2147483648.
Proof. intros Hn. rewrite count_char_replicate, Hn. reflexivity. Qed.

(** C7, as the specification words it (for every string, a count is at
    least 0 and the counts of the distinct characters add up to the
    length), fails on the string of 2^31 characters ['a']: [count_char]
    returns -2147483648. *)
Lemma count_char_wraps_beyond_int :
  count_char (replicate (Z.to_nat 2147483648) "a"%char) "a" = -2147483648
  ∧ ¬ 0 ≤ count_char (replicate (Z.to_nat 2147483648) "a"%char) "a"
  ∧ foldr Z.add 0
      (count_char (replicate (Z.to_nat 2147483648) "a"%char) <$> ["a"%char])
    ≠ strlen (replicate (Z.to_nat 2147483648) "a"%char).
Proof.
  assert (Hn : Z.of_nat (Z.to_nat 2147483648) = 2147483648)
    by (apply Z2Nat.id; discriminate).
  revert Hn. generalize (Z.to_nat 2147483648). intros n Hn.
  pose proof (count_char_run_wraps n Hn) as Hc.
  split; [exact Hc|]. split.
  - rewrite Hc. lia.
  - rewrite fmap_cons, fmap_nil. cbn [foldr].
    rewrite Hc, strlen_replicate, Hn. lia.
Qed.

(** C10, as the specification words it (on every input), fails on the same
    string: the number of positions is not negative, the count is. *)
Lemma find_pattern_count_char_disagree_beyond_int :
  count_char (replicate (Z.to_nat 2147483648) "a"%char) "a" = -2147483648
  ∧ ¬ ∃ positions,
        find_pattern (replicate (Z.to_nat 2147483648) "a"%char) ["a"%char]
        = Some positions
        ∧ Z.of_nat (length positions)
          = count_char (replicate (Z.to_nat 2147483648) "a"%char) "a".
Proof.
  assert (Hn : Z.of_nat (Z.to_nat 2147483648) = 2147483648)
    by (apply Z2Nat.id; discriminate).
  revert Hn. generalize (Z.to_nat 2147483648). intros n Hn.
  pose proof (count_char_run_wraps n Hn) as Hc.
  split; [exact Hc|]. intros (positions & _ & Hlen). rewrite Hc in Hlen. lia.
Qed.

(** The scan of [find_pattern] for the pattern ["b"] over a run of ['a']
    followed by one ['b']. *)
Lemma scan_b_over_a (text : cstring) (i : Z) (ps : list Z) :
  char_at text i = "a"%char →
  kmp_scan_step text ["b"%char] [0] i (Some (ps, 0)) = Some (ps, 0).
Proof.
  intros Hi. unfold kmp_scan_step. cbn [mbind option_bind]. by rewrite Hi.
Qed.

Lemma scan_b_over_b (text : cstring) (i : Z) (ps : list Z) :
  char_at text i = "b"%char →
  kmp_scan_step text ["b"%char] [0] i (Some (ps, 0))
  = Some (ps ++ [to_int (to_size_t (i - 1 + 1))], 0).
Proof.
  intros Hi. unfold kmp_scan_step. cbn [mbind option_bind]. by rewrite Hi.
Qed.

Lemma find_pattern_run_then_b (n : nat) :
  find_pattern (replicate n "a"%char ++ ["b"%char]) ["b"%char]
  = Some [to_int (to_size_t (Z.of_nat n))].
Proof.
  set (text := replicate n "a"%char ++ ["b"%char]).
  assert (Hlen : strlen text = Z.of_nat (Datatypes.S n)).
  { unfold strlen, text. rewrite length_app, length_replicate. simpl. lia. }
  unfold find_pattern.
  rewrite (bool_decide_eq_false_2 (text = [])) by (unfold text; by destruct n).
  replace (strlen ["b"%char] >? strlen text) with false
    by (symmetry; rewrite Hlen, Z.gtb_ltb; apply Z.ltb_ge; unfold strlen; simpl; lia).
  change (build_failure_function ["b"%char]) with (Some [0]).
  cbn [bool_decide decide_rel orb mbind option_bind].
  rewrite (bool_decide_eq_false_2 (["b"%char] = [])) by discriminate.
  cbn [orb]. unfold for_lt. rewrite Hlen.
  replace (Z.to_nat (Z.of_nat (Datatypes.S n) - 0)) with (Datatypes.S n) by lia.
  rewrite for_up_snoc.
  assert (Hrun : for_up n 0 (kmp_scan_step text ["b"%char] [0]) (Some ([], 0))
                 = Some ([], 0)).
  { apply (for_up_invariant (λ _ st, st = Some ([], 0))); [reflexivity|].
    intros k st Hk ->. apply scan_b_over_a.
    unfold char_at, text. rewrite Z.add_0_l, Nat2Z.id.
    rewrite lookup_total_app_l by (rewrite length_replicate; lia).
    by apply lookup_total_replicate_2. }
  rewrite Hrun, scan_b_over_b.
  - replace (0 + Z.of_nat n - 1 + 1) with (Z.of_nat n) by lia. reflexivity.
  - unfold char_at, text. rewrite Z.add_0_l, Nat2Z.id.
    rewrite lookup_total_app_r by (rewrite length_replicate; lia).
    by rewrite length_replicate, Nat.sub_diag.
Qed.

(** C2, as the specification words it (for every nonempty text), fails on
    the text of 2^31 characters ['a'] followed by ['b'], with the pattern
    ["b"]: the pattern occurs at offset 2147483648, and [find_pattern]
    returns [[-2147483648]]. *)
Lemma find_pattern_offset_wraps_beyond_int :
  find_pattern (replicate (Z.to_nat 2147483648) "a"%char ++ ["b"%char]) ["b"%char]
  = Some [-2147483648]
  ∧ occurs_at (replicate (Z.to_nat 2147483648) "a"%char ++ ["b"%char])
      ["b"%char] 2147483648
  ∧ ¬ ∃ positions,
        find_pattern (replicate (Z.to_nat 2147483648) "a"%char ++ ["b"%char])
          ["b"%char] = Some positions
        ∧ ascending positions
        ∧ ∀ p, p ∈ positions
               ↔ 0 ≤ p ≤ strlen (replicate (Z.to_nat 2147483648) "a"%char
                                   ++ ["b"%char]) - strlen ["b"%char]
                 ∧ occurs_at (replicate (Z.to_nat 2147483648) "a"%char
                                ++ ["b"%char]) ["b"%char] p.
Proof.
  assert (Hn : Z.of_nat (Z.to_nat 2147483648) = 2147483648)
    by (apply Z2Nat.id; discriminate).
  revert Hn. generalize (Z.to_nat 2147483648). intros n Hn.
  assert (Hfind : find_pattern (replicate n "a"%char ++ ["b"%char]) ["b"%char]
                  = Some [-2147483648]).
  { rewrite find_pattern_run_then_b, Hn. reflexivity. }
  assert (Hocc : occurs_at (replicate n "a"%char ++ ["b"%char])
                   ["b"%char] 2147483648).
  { exists (replicate n "a"%char), []. split; [reflexivity|].
    rewrite strlen_replicate. lia. }
  split; [exact Hfind|]. split; [exact Hocc|].
  intros (positions & Hpos & _ & Hmem). rewrite Hfind in Hpos.
  injection Hpos as <-.
  assert (Hin : 2147483648 ∈ [-2147483648]).
  { apply Hmem. split; [|exact Hocc].
    unfold strlen. rewrite length_app, length_replicate.
    change (length ["b"%char]) with 1%nat. lia. }
  apply list_elem_of_singleton in Hin. lia.
Qed.

(** A first string whose length is 0 as an [int] is treated as empty. *)
Lemma levenshtein_distance_truncated (s : cstring) :
  to_int (strlen s) = 0 → levenshtein_distance s [] = 0.
Proof. intros Hm. unfold levenshtein_distance. rewrite Hm. reflexivity. Qed.

(** C8, as the specification words it (for every pair of strings), fails on
    the string of 2^32 characters ['a'] and the empty string: the length
    becomes 0 as an [int], and the distance returned is 0, where the
    recurrence gives 4294967296. *)
Lemma levenshtein_distance_wraps_beyond_int :
  levenshtein_distance (replicate (Z.to_nat 4294967296) "a"%char) [] = 0
  ∧ lev_classic (replicate (Z.to_nat 4294967296) "a"%char) [] = 4294967296
  ∧ levenshtein_distance (replicate (Z.to_nat 4294967296) "a"%char) []
    ≠ lev_classic (replicate (Z.to_nat 4294967296) "a"%char) [].
Proof.
  assert (Hn : Z.of_nat (Z.to_nat 4294967296) = 4294967296)
    by (apply Z2Nat.id; discriminate).
  revert Hn. generalize (Z.to_nat 4294967296). intros n Hn.
  assert (Hd : levenshtein_distance (replicate n "a"%char) [] = 0).
  { apply levenshtein_distance_truncated.
    rewrite strlen_replicate, Hn. reflexivity. }
  assert (Hc : lev_classic (replicate n "a"%char) [] = 4294967296).
  { unfold lev_classic. rewrite length_replicate.
    change (length (@nil char)) with 0%nat.
    rewrite lev_table_col0. exact Hn. }
  split; [exact Hd|]. split; [exact Hc|]. rewrite Hd, Hc. discriminate.
Qed.

Lemma longest_common_subsequence_truncated (s t : cstring) :
  to_int (strlen s) = 0 → longest_common_subsequence s t = Some [].
Proof.
  intros Hm. unfold longest_common_subsequence. rewrite Hm.
  destruct (Z.to_nat (0 + to_int (strlen t)) + 1)%nat as [|fuel] eqn:Hfuel; [lia|].
  reflexivity.
Qed.

(** The same truncation in [longest_common_subsequence]: on the string of
    2^32 characters ['a'] and ["a"] the code returns the empty string,
    where the common subsequence ["a"] is there to be found. *)
Lemma longest_common_subsequence_wraps_beyond_int :
  longest_common_subsequence (replicate (Z.to_nat 4294967296) "a"%char) ["a"%char]
  = Some []
  ∧ common_subsequence ["a"%char]
      (replicate (Z.to_nat 4294967296) "a"%char) ["a"%char].
Proof.
  assert (Hn : Z.of_nat (Z.to_nat 4294967296) = 4294967296)
    by (apply Z2Nat.id; discriminate).
  revert Hn. generalize (Z.to_nat 4294967296). intros n Hn.
  split.
  - apply longest_common_subsequence_truncated.
    rewrite strlen_replicate, Hn. reflexivity.
  - split; [|reflexivity]. apply sublist_singleton.
    apply elem_of_replicate. split; [reflexivity|lia].
Qed.

(** * [calculate_gc_content]: the percentage

    The quotient and the product are rounded to the nearest double.  The
    lemmas below follow a bound through [binary_round_aux]: rounding never
    goes past an integer multiple of the unit in the last place, so a value
    that is at most 1 stays at most 1, and its product with 100.0 stays at
    most 100. *)

Lemma digits2_pos_le (p : positive) (N : Z) :
  0 ≤ N → Z.pos p < 2 ^ N → Z.pos (digits2_pos p) ≤ N.
Proof.
  revert N. induction p as [p IH|p IH|]; intros N HN Hp.
  - assert (N ≠ 0) by (intros ->; simpl in Hp; lia).
    replace N with (Z.succ (N - 1)) in Hp by lia.
    rewrite Z.pow_succ_r in Hp by lia.
    specialize (IH (N - 1) ltac:(lia) ltac:(lia)). cbn [digits2_pos]. lia.
  - assert (N ≠ 0) by (intros ->; simpl in Hp; lia).
    replace N with (Z.succ (N - 1)) in Hp by lia.
    rewrite Z.pow_succ_r in Hp by lia.
    specialize (IH (N - 1) ltac:(lia) ltac:(lia)). cbn [digits2_pos]. lia.
  - assert (N ≠ 0) by (intros ->; simpl in Hp; lia).
    cbn [digits2_pos]. lia.
Qed.

Lemma Zdigits2_le (m N : Z) :
  0 ≤ m → 0 ≤ N → m < 2 ^ N → Zdigits2 m ≤ N.
Proof.
  intros Hm HN Hlt. destruct m as [|p|p]; [exact HN| |lia].
  by apply digits2_pos_le.
Qed.

Lemma shr_1_below (B : Z) (mrs : shr_record) :
  shr_below (2 * B) mrs → shr_below B (shr_1 mrs).
Proof.
  destruct mrs as [m r s]. unfold shr_below.
  destruct m as [|[p|p|]|p]; destruct r, s; cbn; lia.
Qed.

Lemma iter_shr_1_below (p : positive) (B : Z) (mrs : shr_record) :
  shr_below (2 ^ Z.pos p * B) mrs → shr_below B (SpecFloat.iter_pos shr_1 p mrs).
Proof.
  revert B mrs. induction p as [p IH|p IH|]; intros B mrs H; cbn [SpecFloat.iter_pos].
  - apply IH, IH, shr_1_below.
    replace (2 * (2 ^ Z.pos p * (2 ^ Z.pos p * B))) with (2 ^ Z.pos p~1 * B); [exact H|].
    replace (Z.pos p~1) with (1 + Z.pos p + Z.pos p) by lia.
    rewrite !Z.pow_add_r by lia. change (2 ^ 1) with 2. ring.
  - apply IH, IH.
    replace (2 ^ Z.pos p * (2 ^ Z.pos p * B)) with (2 ^ Z.pos p~0 * B); [exact H|].
    replace (Z.pos p~0) with (Z.pos p + Z.pos p) by lia.
    rewrite Z.pow_add_r by lia. ring.
  - apply shr_1_below. exact H.
Qed.

Lemma round_nearest_even_below (B : Z) (mrs : shr_record) :
  shr_below B mrs →
  0 ≤ round_nearest_even (shr_m mrs) (loc_of_shr_record mrs) ≤ B.
Proof.
  destruct mrs as [m [] []]; unfold shr_below; cbn; destruct (Z.even m); lia.
Qed.

Lemma shr_record_of_loc_below (B m : Z) (l : location) :
  0 ≤ m → m ≤ B → (l ≠ loc_Exact → m < B) →
  shr_below B (shr_record_of_loc m l).
Proof.
  intros H0 Hle Hlt. unfold shr_below.
  destruct l as [|[]]; cbn; (split; [exact H0|]); try exact Hle;
    apply Hlt; discriminate.
Qed.

Lemma shr_below_le (B : Z) (mrs : shr_record) :
  shr_below B mrs → 0 ≤ shr_m mrs ≤ B.
Proof. unfold shr_below. destruct (shr_r mrs || shr_s mrs); lia. Qed.

Lemma shr_m_of_loc (m : Z) (l : location) : shr_m (shr_record_of_loc m l) = m.
Proof. by destruct l as [|[]]. Qed.

(** One [shr_fexp] keeps a mantissa below [b * 2^-e]. *)
Lemma shr_fexp_below (b m e : Z) (l : location) :
  1 ≤ b < 2 ^ 53 → e ≤ 0 →
  shr_below (b * 2 ^ (- e)) (shr_record_of_loc m l) →
  (shr_fexp 53 1024 m e l).2 ≤ 0
  ∧ shr_below (b * 2 ^ (- (shr_fexp 53 1024 m e l).2)) (shr_fexp 53 1024 m e l).1.
Proof.
  intros Hb He Hbelow. unfold shr_fexp, shr.
  destruct (fexp 53 1024 (Zdigits2 m + e) - e) as [|k|k] eqn:Hk;
    cbn [fst snd]; [by split| |by split].
  pose proof (shr_below_le _ _ Hbelow) as Hm. rewrite shr_m_of_loc in Hm.
  assert (Hd : Zdigits2 m ≤ 53 - e).
  { apply Zdigits2_le; [lia|lia|].
    replace (53 - e) with (53 + - e) by lia. rewrite Z.pow_add_r by lia.
    assert (0 < 2 ^ (- e)) by (apply Z.pow_pos_nonneg; lia).
    nia. }
  assert (He' : e + Z.pos k ≤ 0) by (unfold fexp, emin in Hk; lia).
  split; [exact He'|]. apply iter_shr_1_below.
  replace (2 ^ Z.pos k * (b * 2 ^ (- (e + Z.pos k)))) with (b * 2 ^ (- e));
    [exact Hbelow|].
  replace (- e) with (Z.pos k + - (e + Z.pos k)) at 1 by lia.
  rewrite Z.pow_add_r by lia. ring.
Qed.

(** Rounding a nonnegative value that is at most [b] gives a double that is
    at most [b]: no rounding step goes past a representable bound. *)
Lemma binary_round_aux_upto (b mx ex : Z) (lx : location) :
  1 ≤ b < 2 ^ 53 → ex ≤ 0 → 0 ≤ mx → mx ≤ b * 2 ^ (- ex) →
  (lx ≠ loc_Exact → mx < b * 2 ^ (- ex)) →
  double_upto b (binary_round_aux 53 1024 false mx ex lx).
Proof.
  intros Hb Hex Hmx Hle Hlt. unfold binary_round_aux.
  destruct (shr_fexp_below b mx ex lx Hb Hex) as [He1 H1];
    [by apply shr_record_of_loc_below|].
  destruct (shr_fexp 53 1024 mx ex lx) as [mrs1 e1]. cbn [fst snd] in He1, H1.
  pose proof (round_nearest_even_below _ _ H1) as Hr.
  set (m1 := round_nearest_even (shr_m mrs1) (loc_of_shr_record mrs1)) in *.
  destruct (shr_fexp_below b m1 e1 loc_Exact Hb He1) as [He2 H2].
  { apply shr_record_of_loc_below; [lia|lia|done]. }
  destruct (shr_fexp 53 1024 m1 e1 loc_Exact) as [mrs2 e2].
  cbn [fst snd] in He2, H2.
  apply shr_below_le in H2.
  destruct (shr_m mrs2) as [|m|m]; [exact I| |lia].
  replace (e2 <=? 1024 - 53) with true by (symmetry; apply Z.leb_le; lia).
  split; [exact He2|lia].
Qed.

Lemma digits2_pos_iter_xO (p k : positive) :
  digits2_pos (Pos.iter xO p k) = (digits2_pos p + k)%positive
  ∧ Z.pos (Pos.iter xO p k) = Z.pos p * 2 ^ Z.pos k.
Proof.
  induction k as [|k [IH1 IH2]] using Pos.peano_ind.
  - cbn [Pos.iter digits2_pos]. split; lia.
  - rewrite Pos.iter_succ. cbn [digits2_pos]. rewrite IH1. split; [lia|].
    rewrite Pos2Z.inj_xO, IH2, Pos2Z.inj_succ, Z.pow_succ_r by lia. ring.
Qed.

(** A mantissa of 53 digits with an exponent in range is left as it is. *)
Lemma binary_round_aux_normal (m : positive) (e : Z) :
  Z.pos (digits2_pos m) = 53 → -1074 ≤ e ≤ 971 →
  binary_round_aux 53 1024 false (Z.pos m) e loc_Exact = S754_finite false m e.
Proof.
  intros Hd He.
  assert (Hshr : shr_fexp 53 1024 (Z.pos m) e loc_Exact
                 = (Build_shr_record (Z.pos m) false false, e)).
  { unfold shr_fexp. cbn [Zdigits2]. rewrite Hd.
    replace (fexp 53 1024 (53 + e) - e) with 0 by (unfold fexp, emin; lia).
    reflexivity. }
  unfold binary_round_aux. rewrite Hshr. cbn [shr_m loc_of_shr_record round_nearest_even].
  rewrite Hshr. cbn [shr_m].
  by replace (e <=? 1024 - 53) with true by (symmetry; apply Z.leb_le; lia).
Qed.

(** The conversion of a positive integer below 2^53 to [double] is exact:
    the mantissa is the integer shifted to 53 digits. *)
Lemma double_of_Z_exact (z : Z) :
  0 < z < 2 ^ 53 →
  ∃ m e, double_of_Z z = S754_finite false m e
         ∧ Z.pos (digits2_pos m) = 53 ∧ -52 ≤ e ≤ 0
         ∧ Z.pos m = z * 2 ^ (- e).
Proof.
  intros [Hpos Hlt]. destruct z as [|p|p]; [lia| |lia].
  pose proof (digits2_pos_le p 53 ltac:(lia) Hlt) as Hd.
  unfold double_of_Z, binary_normalize, binary_round, shl_align.
  rewrite Z.add_0_r.
  replace (fexp 53 1024 (Z.pos (digits2_pos p))) with (Z.pos (digits2_pos p) - 53)
    by (unfold fexp, emin; lia).
  rewrite Z.sub_0_r.
  destruct (Z.pos (digits2_pos p) - 53) as [|k|k] eqn:Hk; [|lia|].
  - exists p, 0. split; [apply binary_round_aux_normal; lia|].
    split; [lia|]. split; [lia|]. change (2 ^ (- 0)) with 1. lia.
  - destruct (digits2_pos_iter_xO p k) as [Hdig Hval].
    exists (Pos.iter xO p k), (Z.neg k).
    split; [apply binary_round_aux_normal; lia|].
    split; [lia|]. split; [lia|]. exact Hval.
Qed.

Lemma new_location_exact (n r : Z) :
  new_location n r ≠ loc_Exact → r ≠ 0.
Proof.
  intros H ->. apply H. unfold new_location, new_location_even, new_location_odd.
  by destruct (Z.even n).
Qed.

(** The quotient of two doubles with 53-digit mantissas, the first no larger
    than the second, is at most 1. *)
Lemma SFdiv_upto_one (mx my : positive) (ex ey g n : Z) :
  Z.pos (digits2_pos mx) = 53 → Z.pos (digits2_pos my) = 53 →
  -52 ≤ ex ≤ 0 → -52 ≤ ey ≤ 0 →
  Z.pos mx = g * 2 ^ (- ex) → Z.pos my = n * 2 ^ (- ey) → g ≤ n →
  double_upto 1 (SFdiv 53 1024 (S754_finite false mx ex) (S754_finite false my ey)).
Proof.
  intros Hdx Hdy Hex Hey Hmx Hmy Hgn.
  unfold SFdiv, SFdiv_core_binary. cbn [Zdigits2 xorb]. rewrite Hdx, Hdy.
  replace (Z.min (fexp 53 1024 (53 + ex - (53 + ey))) (ex - ey))
    with (ex - ey - 53) by (unfold fexp, emin; lia).
  replace (ex - ey - (ex - ey - 53)) with 53 by lia.
  cbv iota. rewrite Z.shiftl_mul_pow2 by lia.
  pose proof (Z_div_mod (Z.pos mx * 2 ^ 53) (Z.pos my) ltac:(lia)) as Hdiv.
  destruct (Z.div_eucl (Z.pos mx * 2 ^ 53) (Z.pos my)) as [q r].
  destruct Hdiv as [Hqr Hr].
  assert (H2x : 0 < 2 ^ (- ex)) by (apply Z.pow_pos_nonneg; lia).
  assert (H2y : 0 < 2 ^ (- ey)) by (apply Z.pow_pos_nonneg; lia).
  assert (Hpow : 2 ^ (- (ex - ey - 53)) * 2 ^ (- ey) = 2 ^ 53 * 2 ^ (- ex)).
  { rewrite <- !Z.pow_add_r by lia. f_equal. lia. }
  assert (HB : 0 < 2 ^ (- (ex - ey - 53))) by (apply Z.pow_pos_nonneg; lia).
  set (B := 2 ^ (- (ex - ey - 53))) in *.
  assert (Hle : Z.pos mx * 2 ^ 53 ≤ B * Z.pos my).
  { rewrite Hmx, Hmy.
    replace (B * (n * 2 ^ (- ey))) with (n * (B * 2 ^ (- ey))) by ring.
    rewrite Hpow. nia. }
  assert (Hq0 : 0 ≤ q) by nia.
  apply binary_round_aux_upto; [lia|lia|exact Hq0|fold B; nia|].
  intros Hr0%new_location_exact. fold B. nia.
Qed.

(** Multiplying a double that is at most 1 by 100.0 gives at most 100. *)
Lemma SFmul_upto_hundred (x : spec_float) :
  double_upto 1 x → double_upto 100 (SFmul 53 1024 x (double_of_Z 100)).
Proof.
  change (double_of_Z 100) with (S754_finite false 7036874417766400 (-46)).
  destruct x as [[]|[]| |[] m e]; try done.
  intros [He Hm]. unfold SFmul. cbn [xorb].
  apply binary_round_aux_upto; [lia|lia|lia| |done].
  replace (- (e + -46)) with (- e + 46) by lia.
  rewrite Z.pow_add_r, Pos2Z.inj_mul by lia.
  change (Z.pos 7036874417766400) with (100 * 2 ^ 46). nia.
Qed.

(** ** Mantissas of full width *)

Lemma digits2_pos_ge (p : positive) : 2 ^ (Z.pos (digits2_pos p) - 1) ≤ Z.pos p.
Proof.
  induction p as [p IH|p IH|]; cbn [digits2_pos]; [| |done];
    rewrite Pos2Z.inj_succ;
    replace (Z.succ (Z.pos (digits2_pos p)) - 1)
      with (Z.succ (Z.pos (digits2_pos p) - 1)) by lia;
    rewrite Z.pow_succ_r by lia; lia.
Qed.

Lemma shr_1_above (L : Z) (mrs : shr_record) :
  2 * L ≤ shr_m mrs → L ≤ shr_m (shr_1 mrs).
Proof. destruct mrs as [m r s]. destruct m as [|[p|p|]|[p|p|]]; cbn; lia. Qed.

Lemma iter_shr_1_above (p : positive) (L : Z) (mrs : shr_record) :
  2 ^ Z.pos p * L ≤ shr_m mrs → L ≤ shr_m (SpecFloat.iter_pos shr_1 p mrs).
Proof.
  revert L mrs. induction p as [p IH|p IH|]; intros L mrs H; cbn [SpecFloat.iter_pos].
  - apply IH, IH, shr_1_above.
    replace (2 * (2 ^ Z.pos p * (2 ^ Z.pos p * L))) with (2 ^ Z.pos p~1 * L); [exact H|].
    replace (Z.pos p~1) with (1 + Z.pos p + Z.pos p) by lia.
    rewrite !Z.pow_add_r by lia. change (2 ^ 1) with 2. ring.
  - apply IH, IH.
    replace (2 ^ Z.pos p * (2 ^ Z.pos p * L)) with (2 ^ Z.pos p~0 * L); [exact H|].
    replace (Z.pos p~0) with (Z.pos p + Z.pos p) by lia.
    rewrite Z.pow_add_r by lia. ring.
  - apply shr_1_above. exact H.
Qed.

Lemma digits2_pos_lt (p : positive) : Z.pos p < 2 ^ Z.pos (digits2_pos p).
Proof.
  induction p as [p IH|p IH|]; cbn [digits2_pos]; [| |done];
    rewrite Pos2Z.inj_succ, Z.pow_succ_r by lia; lia.
Qed.

(** [shr_fexp] leaves a mantissa of at least 53 digits, except at the least
    exponent. *)
Lemma shr_fexp_full (m e : Z) (l : location) :
  0 ≤ m → 2 ^ 52 ≤ m ∨ e ≤ -1073 →
  0 ≤ shr_m (shr_fexp 53 1024 m e l).1
  ∧ (2 ^ 52 ≤ shr_m (shr_fexp 53 1024 m e l).1
     ∨ (shr_fexp 53 1024 m e l).2 ≤ -1073).
Proof.
  intros Hm H. unfold shr_fexp, shr.
  destruct (fexp 53 1024 (Zdigits2 m + e) - e) as [|k|k] eqn:Hk;
    cbn [fst snd]; rewrite ?shr_m_of_loc; [by split| |by split].
  split.
  { apply iter_shr_1_above. rewrite shr_m_of_loc. lia. }
  unfold fexp, emin in Hk.
  destruct (Z.max_spec (Zdigits2 m + e - 53) (3 - 1024 - 53)) as [[_ Hmax]|[_ Hmax]];
    rewrite Hmax in Hk; [right; lia|].
  left. apply iter_shr_1_above. rewrite shr_m_of_loc.
  destruct m as [|p|p]; [cbn in Hk; lia| |lia].
  cbn [Zdigits2] in Hk. pose proof (digits2_pos_ge p) as Hge.
  replace (Z.pos (digits2_pos p) - 1) with (Z.pos k + 52) in Hge by lia.
  rewrite Z.pow_add_r in Hge by lia. exact Hge.
Qed.

Lemma round_nearest_even_ge (m : Z) (l : location) : m ≤ round_nearest_even m l.
Proof. destruct l as [|[]]; cbn; try destruct (Z.even m); lia. Qed.

Lemma binary_round_aux_full (sx : bool) (mx ex : Z) (lx : location) :
  0 ≤ mx → 2 ^ 52 ≤ mx ∨ ex ≤ -1073 →
  double_full (binary_round_aux 53 1024 sx mx ex lx).
Proof.
  intros Hmx H. unfold binary_round_aux.
  destruct (shr_fexp_full mx ex lx Hmx H) as [H0 H1].
  destruct (shr_fexp 53 1024 mx ex lx) as [mrs1 e1]. cbn [fst snd] in H0, H1.
  pose proof (round_nearest_even_ge (shr_m mrs1) (loc_of_shr_record mrs1)) as Hr.
  set (m1 := round_nearest_even (shr_m mrs1) (loc_of_shr_record mrs1)) in *.
  destruct (shr_fexp_full m1 e1 loc_Exact ltac:(lia) ltac:(lia)) as [_ H2].
  destruct (shr_fexp 53 1024 m1 e1 loc_Exact) as [mrs2 e2]. cbn [fst snd] in H2.
  destruct (shr_m mrs2) as [|m|m]; [exact I| |exact I].
  destruct (e2 <=? 1024 - 53); [exact H2|exact I].
Qed.

Lemma SFdiv_full (mx my : positive) (ex ey : Z) :
  Z.pos (digits2_pos mx) = 53 → Z.pos (digits2_pos my) = 53 →
  -52 ≤ ex ≤ 0 → -52 ≤ ey ≤ 0 →
  double_full (SFdiv 53 1024 (S754_finite false mx ex) (S754_finite false my ey)).
Proof.
  intros Hdx Hdy Hex Hey.
  unfold SFdiv, SFdiv_core_binary. cbn [Zdigits2 xorb]. rewrite Hdx, Hdy.
  replace (Z.min (fexp 53 1024 (53 + ex - (53 + ey))) (ex - ey))
    with (ex - ey - 53) by (unfold fexp, emin; lia).
  replace (ex - ey - (ex - ey - 53)) with 53 by lia.
  cbv iota. rewrite Z.shiftl_mul_pow2 by lia.
  pose proof (Z_div_mod (Z.pos mx * 2 ^ 53) (Z.pos my) ltac:(lia)) as Hdiv.
  destruct (Z.div_eucl (Z.pos mx * 2 ^ 53) (Z.pos my)) as [q r].
  destruct Hdiv as [Hqr Hr].
  pose proof (digits2_pos_ge mx) as Hgx. rewrite Hdx in Hgx.
  change (2 ^ (53 - 1)) with (2 ^ 52) in Hgx.
  pose proof (digits2_pos_lt my) as Hmy. rewrite Hdy in Hmy.
  assert (H52 : 2 ^ 52 ≤ q) by nia.
  apply binary_round_aux_full; [lia|by left].
Qed.

Lemma SFmul_full (x : spec_float) (my : positive) (ey : Z) :
  ey ≤ 0 → double_full x →
  double_full (SFmul 53 1024 x (S754_finite false my ey)).
Proof.
  intros Hey. destruct x as [s|s| |s m e]; try done.
  intros [Hm|He]; unfold SFmul; apply binary_round_aux_full; lia.
Qed.

(** What the bounds say about the comparisons of doubles. *)
Lemma double_upto_between (b : Z) (x : spec_float) :
  0 ≤ b → double_upto b x → double_between 0 b x.
Proof.
  intros Hb. destruct x as [[]|[]| |[] m e]; try done.
  intros [He Hm]. unfold double_between, cond_Zopp.
  rewrite Z.max_l, Z.max_r by lia. change (2 ^ 0) with 1. lia.
Qed.

Lemma double_upto_hundred_leb (x : spec_float) :
  double_upto 100 x → double_full x →
  SFleb (S754_zero false) x = true ∧ SFleb x (double_of_Z 100) = true.
Proof.
  change (double_of_Z 100) with (S754_finite false 7036874417766400 (-46)).
  destruct x as [[]|[]| |[] m e]; try done.
  intros [He Hm] Hfull. split; [reflexivity|].
  assert (He46 : e ≤ -46).
  { destruct Hfull as [H52|]; [|lia].
    destruct (Z.le_gt_cases e (-46)) as [|Hgt]; [done|exfalso].
    assert (2 ^ (- e) ≤ 2 ^ 45) by (apply Z.pow_le_mono_r; lia). lia. }
  unfold SFleb, SFcompare.
  destruct (Z.compare_spec e (-46)) as [->| |]; [|done|lia].
  change (2 ^ (- -46)) with (2 ^ 46) in Hm.
  rewrite Pos.compare_cont_spec. unfold Pos.switch_Eq.
  destruct (Pos.compare_spec m 7036874417766400); [done|done|lia].
Qed.

(** The percentage computed from a count [g] out of [n]. *)
Lemma gc_percentage_range (g n : Z) :
  0 ≤ g ≤ n → 0 < n < 2 ^ 53 →
  double_upto 100
    (SFmul 53 1024 (SFdiv 53 1024 (double_of_Z g) (double_of_Z n)) (double_of_Z 100))
  ∧ double_full
      (SFmul 53 1024 (SFdiv 53 1024 (double_of_Z g) (double_of_Z n)) (double_of_Z 100)).
Proof.
  intros Hg Hn.
  destruct (double_of_Z_exact n Hn) as (my & ey & -> & Hdy & Hey & Hmy).
  destruct (decide (g = 0)) as [->|Hg0].
  { split; vm_compute; exact I. }
  assert (Hg53 : 0 < g < 2 ^ 53) by lia.
  destruct (double_of_Z_exact g Hg53) as (mx & ex' & Heq & Hdx & Hex & Hmx).
  rewrite Heq. split.
  - apply SFmul_upto_hundred. apply (SFdiv_upto_one mx my ex' ey g n); (done || lia).
  - change (double_of_Z 100) with (S754_finite false 7036874417766400 (-46)).
    apply SFmul_full; [lia|]. by apply SFdiv_full.
Qed.

(** A double divided by itself is 1.0. *)
Lemma SFdiv_self (m : positive) (e : Z) :
  Z.pos (digits2_pos m) = 53 → -52 ≤ e ≤ 0 →
  SFdiv 53 1024 (S754_finite false m e) (S754_finite false m e) = double_of_Z 1.
Proof.
  intros Hd He.
  unfold SFdiv, SFdiv_core_binary. cbn [Zdigits2 xorb]. rewrite Hd.
  replace (Z.min (fexp 53 1024 (53 + e - (53 + e))) (e - e))
    with (-53) by (unfold fexp, emin; lia).
  replace (e - e - -53) with 53 by lia.
  cbv iota. rewrite Z.shiftl_mul_pow2 by lia.
  pose proof (Z_div_mod (Z.pos m * 2 ^ 53) (Z.pos m) ltac:(lia)) as Hdiv.
  destruct (Z.div_eucl (Z.pos m * 2 ^ 53) (Z.pos m)) as [q r].
  destruct Hdiv as [Hqr Hr].
  destruct (Z.div_mod_unique (Z.pos m) q (2 ^ 53) r 0) as [-> ->];
    [by left|left; lia|lia|].
  replace (new_location (Z.pos m) 0) with loc_Exact; [reflexivity|].
  unfold new_location, new_location_even, new_location_odd.
  by destruct (Z.even (Z.pos m)).
Qed.

Lemma gc_percentage_all (n : Z) :
  0 < n < 2 ^ 53 →
  SFmul 53 1024 (SFdiv 53 1024 (double_of_Z n) (double_of_Z n)) (double_of_Z 100)
  = double_of_Z 100.
Proof.
  intros Hn. destruct (double_of_Z_exact n Hn) as (m & e & Heq & Hd & He & _).
  rewrite Heq, SFdiv_self by done. reflexivity.
Qed.

Lemma gc_percentage_none (n : Z) :
  0 < n < 2 ^ 53 →
  SFmul 53 1024 (SFdiv 53 1024 (double_of_Z 0) (double_of_Z n)) (double_of_Z 100)
  = S754_zero false.
Proof.
  intros Hn. destruct (double_of_Z_exact n Hn) as (m & e & Heq & _).
  rewrite Heq. reflexivity.
Qed.

(** ** The count *)

Lemma is_gc_elem (c : char) : is_gc c = bool_decide (c ∈ lit "GCgc").
Proof. destruct c as [[] [] [] [] [] [] [] []]; vm_compute; reflexivity. Qed.

Lemma gc_count_letters (s : cstring) : fits_int s → gc_count s = gc_letters s.
Proof.
  intros Hs. unfold gc_count, gc_letters.
  pose proof (length_filter (λ c, is_gc c = true) s) as Hle.
  rewrite to_int_small by (unfold fits_int, strlen in Hs; lia).
  do 2 f_equal. apply list_filter_iff. intros c.
  rewrite is_gc_elem. apply bool_decide_eq_true.
Qed.

Lemma gc_letters_bounds (s : cstring) : 0 ≤ gc_letters s ≤ strlen s.
Proof.
  unfold gc_letters, strlen.
  pose proof (length_filter (λ c, c ∈ lit "GCgc") s). lia.
Qed.

Lemma calculate_gc_content_nonempty (s : cstring) :
  fits_int s → s ≠ [] →
  calculate_gc_content s
  = SFmul 53 1024
      (SFdiv 53 1024 (double_of_Z (gc_letters s)) (double_of_Z (strlen s)))
      (double_of_Z 100).
Proof.
  intros Hs Hne. unfold calculate_gc_content.
  by rewrite bool_decide_eq_false_2, gc_count_letters.
Qed.

Lemma strlen_nonempty (s : cstring) : s ≠ [] → 0 < strlen s.
Proof. destruct s; [done|]. unfold strlen. simpl length. lia. Qed.

(** C5, as the code has it: for a string whose length fits in an [int],
    [calculate_gc_content] returns a double between 0 and 100 (also by the
    comparisons of doubles, [0.0 <= r] and [r <= 100.0]).  On a nonempty
    string it is the product with 100.0 of the quotient of the number of
    characters G, C, g, c by the length, the quotient and the product each
    rounded to the nearest double; it is 0.0 when no character is G or C and
    100.0 when all of them are.  On the empty string it is 0.0; on ["GCGC"]
    it is 100.0 and on ["ATGC"] it is 50.0. *)
Theorem calculate_gc_content_percentage (s : cstring) :
  fits_int s →
  double_between 0 100 (calculate_gc_content s)
  ∧ SFleb (S754_zero false) (calculate_gc_content s) = true
  ∧ SFleb (calculate_gc_content s) (double_of_Z 100) = true
  ∧ (s ≠ [] →
     calculate_gc_content s
     = SFmul 53 1024
         (SFdiv 53 1024 (double_of_Z (gc_letters s)) (double_of_Z (strlen s)))
         (double_of_Z 100))
  ∧ (s ≠ [] → gc_letters s = 0 → calculate_gc_content s = S754_zero false)
  ∧ (s ≠ [] → gc_letters s = strlen s → calculate_gc_content s = double_of_Z 100)
  ∧ calculate_gc_content [] = S754_zero false
  ∧ calculate_gc_content (lit "GCGC") = double_of_Z 100
  ∧ calculate_gc_content (lit "ATGC") = double_of_Z 50.
Proof.
  intros Hs.
  assert (Hrange : double_upto 100 (calculate_gc_content s)
                   ∧ double_full (calculate_gc_content s)).
  { destruct (decide (s = [])) as [->|Hne]; [by split|].
    rewrite calculate_gc_content_nonempty by done.
    pose proof (gc_letters_bounds s). pose proof (strlen_nonempty s Hne).
    apply gc_percentage_range; [lia|].
    unfold fits_int, INT_MAX in Hs. change (2 ^ 53) with 9007199254740992. lia. }
  destruct Hrange as [Hupto Hfull].
  split; [by apply double_upto_between|].
  destruct (double_upto_hundred_leb _ Hupto Hfull) as [Hge Hle].
  split; [exact Hge|]. split; [exact Hle|].
  split; [by apply calculate_gc_content_nonempty|].
  assert (H53 : s ≠ [] → 0 < strlen s < 2 ^ 53).
  { intros Hne%strlen_nonempty. unfold fits_int, INT_MAX in Hs.
    change (2 ^ 53) with 9007199254740992. lia. }
  split; [|split; [|by repeat split]].
  - intros Hne H0. rewrite calculate_gc_content_nonempty, H0 by done.
    by apply gc_percentage_none, H53.
  - intros Hne Hall. rewrite calculate_gc_content_nonempty, Hall by done.
    by apply gc_percentage_all, H53.
Qed.

Lemma calculate_gc_content_percentage_witness :
  double_between 0 100 (calculate_gc_content (lit "GATTACA"))
  ∧ SFleb (S754_zero false) (calculate_gc_content (lit "GATTACA")) = true
  ∧ SFleb (calculate_gc_content (lit "GATTACA")) (double_of_Z 100) = true
  ∧ (lit "GATTACA" ≠ [] →
     calculate_gc_content (lit "GATTACA")
     = SFmul 53 1024
         (SFdiv 53 1024 (double_of_Z (gc_letters (lit "GATTACA")))
                        (double_of_Z (strlen (lit "GATTACA"))))
         (double_of_Z 100))
  ∧ (lit "GATTACA" ≠ [] → gc_letters (lit "GATTACA") = 0 →
     calculate_gc_content (lit "GATTACA") = S754_zero false)
  ∧ (lit "GATTACA" ≠ [] → gc_letters (lit "GATTACA") = strlen (lit "GATTACA") →
     calculate_gc_content (lit "GATTACA") = double_of_Z 100)
  ∧ calculate_gc_content [] = S754_zero false
  ∧ calculate_gc_content (lit "GCGC") = double_of_Z 100
  ∧ calculate_gc_content (lit "ATGC") = double_of_Z 50.
Proof.
  apply (calculate_gc_content_percentage (lit "GATTACA")).
  unfold fits_int. vm_compute. discriminate.
Defined.

Lemma gc_count_run (n : nat) :
  gc_count (replicate n "G"%char) = to_int (Z.of_nat n).
Proof.
  unfold gc_count. do 2 f_equal.
  induction n as [|n IH]; [reflexivity|].
  cbn [replicate]. rewrite filter_cons_True by reflexivity.
  cbn [length]. by rewrite IH.
Qed.

(** C5, as the specification words it, fails twice.  With 7 characters G
    out of 25 the exact percentage 100 * 7 / 25 = 28 is a double, and it is
    what [100.0 * 7 / 25] evaluates to, but the code, which divides first,
    returns the next double above (28.000000000000004).  On the string of
    2^31 characters ['G'] the count wraps around and the code returns
    -100.0, which is not in [0, 100]. *)
Lemma calculate_gc_content_not_exact :
  calculate_gc_content (lit "GGGGGGGAAAAAAAAAAAAAAAAAA")
  = S754_finite false 7881299347898369 (-48)
  ∧ gc_letters (lit "GGGGGGGAAAAAAAAAAAAAAAAAA") = 7
  ∧ strlen (lit "GGGGGGGAAAAAAAAAAAAAAAAAA") = 25
  ∧ ¬ double_is_fraction
        (calculate_gc_content (lit "GGGGGGGAAAAAAAAAAAAAAAAAA")) (100 * 7) 25
  ∧ double_is_fraction (double_of_Z 28) (100 * 7) 25
  ∧ SFdiv 53 1024 (SFmul 53 1024 (double_of_Z 100) (double_of_Z 7)) (double_of_Z 25)
    = double_of_Z 28
  ∧ calculate_gc_content (lit "GGGGGGGAAAAAAAAAAAAAAAAAA") ≠ double_of_Z 28
  ∧ calculate_gc_content (replicate (Z.to_nat 2147483648) "G"%char)
    = S754_finite true 7036874417766400 (-46)
  ∧ ¬ double_between 0 100
        (calculate_gc_content (replicate (Z.to_nat 2147483648) "G"%char)).
Proof.
  assert (H28 : calculate_gc_content (lit "GGGGGGGAAAAAAAAAAAAAAAAAA")
                = S754_finite false 7881299347898369 (-48))
    by (vm_compute; reflexivity).
  assert (Hneg : calculate_gc_content (replicate (Z.to_nat 2147483648) "G"%char)
                 = S754_finite true 7036874417766400 (-46)).
  { assert (Hn : Z.of_nat (Z.to_nat 2147483648) = 2147483648)
      by (apply Z2Nat.id; discriminate).
    revert Hn. generalize (Z.to_nat 2147483648). intros n Hn.
    unfold calculate_gc_content.
    rewrite bool_decide_eq_false_2 by (destruct n; [lia|done]).
    rewrite gc_count_run, strlen_replicate, Hn. vm_compute. reflexivity. }
  split; [exact H28|]. split; [by vm_compute|]. split; [by vm_compute|].
  split; [rewrite H28; vm_compute; discriminate|].
  split; [by vm_compute|]. split; [by vm_compute|].
  split; [rewrite H28; vm_compute; discriminate|].
  split; [exact Hneg|]. rewrite Hneg. vm_compute. intros [H _]. by apply H.
Qed.
